(** * flow-chat: the Flow-to-C++ translator of [server.js]

    A shallow embedding of the translator ([translateFlowToCpp],
    [translateExpr], [translateCond], [closeBlocks]), of the history ledger
    ([logIdea]) and of the compile-and-run harness ([compileAndRun]),
    followed by the properties the specification states about them.

    JavaScript strings are sequences of UTF-16 code units; a code unit is a
    number of type [N] and a string a [list N].  Regular expressions are
    given as syntax trees and run by a backtracking matcher that follows the
    ECMAScript semantics of the constructs the source uses (greedy
    quantifiers, capture groups, [^], [$], [\b], the classes [\w], [\d],
    [\s] and [.]). *)

From Stdlib Require Import String Ascii NArith ZArith Bool Lia Arith List.
Import ListNotations.

Set Implicit Arguments.
Local Open Scope N_scope.

(** ** Strings *)

Abbreviation char := N.
Abbreviation str := (list N).

(** A literal of the source, written as a Rocq string of ASCII text. *)
Fixpoint u (s : string) : str :=
  match s with
  | EmptyString => []
  | String a rest => N_of_ascii a :: u rest
  end.

Fixpoint str_eqb (a b : str) : bool :=
  match a, b with
  | [], [] => true
  | x :: a', y :: b' => (x =? y) && str_eqb a' b'
  | _, _ => false
  end.

(** [\w] *)
Definition is_word (c : char) : bool :=
  ((48 <=? c) && (c <=? 57)) || ((65 <=? c) && (c <=? 90))
  || ((97 <=? c) && (c <=? 122)) || (c =? 95).

(** [\d] *)
Definition is_digit (c : char) : bool := (48 <=? c) && (c <=? 57).

(** Line terminators: LF, CR, U+2028, U+2029. *)
Definition is_line_term (c : char) : bool :=
  (c =? 10) || (c =? 13) || (c =? 8232) || (c =? 8233).

(** [\s], which is also what [trim] strips: white space and line
    terminators. *)
Definition is_space (c : char) : bool :=
  ((9 <=? c) && (c <=? 13)) || (c =? 32) || (c =? 160) || (c =? 5760)
  || ((8192 <=? c) && (c <=? 8202)) || (c =? 8232) || (c =? 8233)
  || (c =? 8239) || (c =? 8287) || (c =? 12288) || (c =? 65279).

(** [.] (no [s] flag) *)
Definition is_dot (c : char) : bool := negb (is_line_term c).

Fixpoint trimStart (s : str) : str :=
  match s with
  | c :: t => if is_space c then trimStart t else s
  | [] => []
  end.

Definition trimEnd (s : str) : str := rev (trimStart (rev s)).
Definition trim (s : str) : str := trimEnd (trimStart s).

Fixpoint startsWith (pre s : str) : bool :=
  match pre, s with
  | [], _ => true
  | x :: pre', y :: s' => (x =? y) && startsWith pre' s'
  | _ :: _, [] => false
  end.

(** [s.split("\n")]: the pieces between line feeds; [""] gives [[""]]. *)
Fixpoint split_lines_acc (acc : str) (s : str) : list str :=
  match s with
  | [] => [rev acc]
  | c :: t => if c =? 10 then rev acc :: split_lines_acc [] t
              else split_lines_acc (c :: acc) t
  end.

Definition split_lines (s : str) : list str := split_lines_acc [] s.

(** [parts.join(sep)] *)
Fixpoint join (sep : str) (l : list str) : str :=
  match l with
  | [] => []
  | [x] => x
  | x :: rest => x ++ sep ++ join sep rest
  end.

(** [list.includes(w)] *)
Definition includes_str (l : list str) (w : str) : bool :=
  existsb (str_eqb w) l.

(** ** Regular expressions *)

Inductive re : Type :=
| Chr (c : char)                 (* a literal character *)
| Cls (P : char -> bool)         (* a character class *)
| Seq (a b : re)
| Alt (a b : re)
| Star (a : re)                  (* greedy [*] *)
| Group (i : nat) (a : re)       (* capture group number [i] *)
| Bol                            (* [^] *)
| Eol                            (* [$] *)
| WordB                          (* [\b] *)
| Eps.

Definition Plus (a : re) : re := Seq a (Star a).

Fixpoint Lit (s : str) : re :=
  match s with
  | [] => Eps
  | [c] => Chr c
  | c :: t => Seq (Chr c) (Lit t)
  end.

Fixpoint seqs (l : list re) : re :=
  match l with
  | [] => Eps
  | [r] => r
  | r :: t => Seq r (seqs t)
  end.

(** Captures: the groups set so far, most recent first. *)
Definition caps := list (nat * str).

Fixpoint grp (i : nat) (cs : caps) : option str :=
  match cs with
  | [] => None
  | (j, v) :: t => if Nat.eqb i j then Some v else grp i t
  end.

Definition word_opt (c : option char) : bool :=
  match c with Some x => is_word x | None => false end.

Section Exec.
Variable A : Type.

(** A continuation receives the character before the current position
    (none at the start of the input), the rest of the input and the
    captures. *)
Definition cont := option char -> str -> caps -> option A.

(** The backtracking matcher.  An iteration of [Star] that consumes
    nothing is rejected, as in ECMAScript; the fuel of the inner loop is
    the length of the remaining input, which every iteration shortens. *)
Fixpoint exec (r : re) (p : option char) (s : str) (cs : caps) (k : cont)
  {struct r} : option A :=
  match r with
  | Chr c =>
      match s with
      | x :: t => if x =? c then k (Some x) t cs else None
      | [] => None
      end
  | Cls P =>
      match s with
      | x :: t => if P x then k (Some x) t cs else None
      | [] => None
      end
  | Seq a b => exec a p s cs (fun p' s' cs' => exec b p' s' cs' k)
  | Alt a b =>
      match exec a p s cs k with
      | Some res => Some res
      | None => exec b p s cs k
      end
  | Star a =>
      (fix star (n : nat) (p : option char) (s : str) (cs : caps)
         {struct n} : option A :=
         match n with
         | O => k p s cs
         | S n' =>
             match exec a p s cs
                     (fun p' s' cs' =>
                        if (length s' <? length s)%nat
                        then star n' p' s' cs' else None) with
             | Some res => Some res
             | None => k p s cs
             end
         end) (length s) p s cs
  | Group i a =>
      exec a p s cs
        (fun p' s' cs' =>
           k p' s' ((i, firstn (length s - length s') s) :: cs'))
  | Bol => match p with None => k p s cs | Some _ => None end
  | Eol => match s with [] => k p s cs | _ :: _ => None end
  | WordB =>
      if xorb (word_opt p) (word_opt (hd_error s)) then k p s cs else None
  | Eps => k p s cs
  end.
End Exec.

(** A match found at some position: the captures, and what follows the
    matched text. *)
Record found := { f_caps : caps; f_prev : option char; f_rest : str }.

Definition match_here (r : re) (p : option char) (s : str) : option found :=
  exec r p s []
    (fun p' s' cs' => Some {| f_caps := cs'; f_prev := p'; f_rest := s' |}).

(** [s.match(r)] for a regular expression without the [g] flag: the
    leftmost match, tried from every start position in turn. *)
Fixpoint search (r : re) (p : option char) (s : str) : option caps :=
  match match_here r p s with
  | Some f => Some (f_caps f)
  | None =>
      match s with
      | [] => None
      | c :: t => search r (Some c) t
      end
  end.

Definition re_match (r : re) (s : str) : option caps := search r None s.

(** [s.replace(r, by)] for a regular expression with the [g] flag and a
    replacement text free of [$]: every match, left to right, without
    overlap; after an empty match the scan moves on by one character. *)
Fixpoint replace_go (fuel : nat) (r : re) (by_ : str) (p : option char)
  (s : str) : str :=
  match fuel with
  | O => s
  | S fuel' =>
      match match_here r p s with
      | Some f =>
          if (length (f_rest f) <? length s)%nat
          then by_ ++ replace_go fuel' r by_ (f_prev f) (f_rest f)
          else by_ ++ match s with
                      | [] => []
                      | c :: t => c :: replace_go fuel' r by_ (Some c) t
                      end
      | None =>
          match s with
          | [] => []
          | c :: t => c :: replace_go fuel' r by_ (Some c) t
          end
      end
  end.

Definition replace_all (r : re) (by_ : str) (s : str) : str :=
  replace_go (S (length s)) r by_ None s.

(** [(s.match(r) || []).length] for a regular expression with the [g]
    flag: the number of matches. *)
Fixpoint count_go (fuel : nat) (r : re) (p : option char) (s : str) : nat :=
  match fuel with
  | O => O
  | S fuel' =>
      match match_here r p s with
      | Some f =>
          if (length (f_rest f) <? length s)%nat
          then S (count_go fuel' r (f_prev f) (f_rest f))
          else S (match s with
                  | [] => O
                  | c :: t => count_go fuel' r (Some c) t
                  end)
      | None =>
          match s with
          | [] => O
          | c :: t => count_go fuel' r (Some c) t
          end
      end
  end.

Definition count_matches (r : re) (s : str) : nat :=
  count_go (S (length s)) r None s.

(** [s.split(r)] for a non-empty [s] and a regular expression without
    groups: [acc] holds, reversed, the piece begun at the last separator. *)
Fixpoint split_go (fuel : nat) (r : re) (p : option char) (acc : str)
  (s : str) : list str :=
  match fuel with
  | O => [rev acc ++ s]
  | S fuel' =>
      match s with
      | [] => [rev acc]
      | c :: t =>
          match match_here r p s with
          | Some f =>
              if (length (f_rest f) <? length s)%nat
              then rev acc :: split_go fuel' r (f_prev f) [] (f_rest f)
              else match acc with
                   | [] => split_go fuel' r (Some c) [c] t
                   | _ :: _ => rev acc :: split_go fuel' r p [] s
                   end
          | None => split_go fuel' r (Some c) (c :: acc) t
          end
      end
  end.

Definition split_re (r : re) (s : str) : list str :=
  match s with
  | [] => match match_here r None [] with Some _ => [] | None => [[]] end
  | _ :: _ => split_go (2 * length s + 1) r None [] s
  end.

(** ** Values that may be [undefined], and exceptions *)

(** A call of a string method on [undefined] raises a [TypeError]. *)
Inductive Res (A : Type) : Type :=
| Ok (a : A)
| Throw.
Arguments Ok {A} a.
Arguments Throw {A}.

Definition bind {A B : Type} (x : Res A) (f : A -> Res B) : Res B :=
  match x with
  | Ok a => f a
  | Throw => Throw
  end.

Notation "x <- e ;; k" := (bind e (fun x => k))
  (at level 61, e at next level, right associativity).

(** The receiver of a method call: [m[i].trim()], [expr.replace(...)]. *)
Definition need (v : option str) : Res str :=
  match v with
  | Some s => Ok s
  | None => Throw
  end.

(** [${m[i]}] in a template literal. *)
Definition tpl (v : option str) : str :=
  match v with
  | Some s => s
  | None => u "undefined"
  end.

(** ** The regular expressions of the source

    Each definition is preceded by the expression as the source writes it;
    in these quotations a blank separates a star from a closing
    parenthesis. *)

Definition ws1 : re := Plus (Cls is_space).      (* \s+ *)
Definition ws0 : re := Star (Cls is_space).      (* \s* *)
Definition word : re := Plus (Cls is_word).      (* \w+ *)
Definition digits : re := Plus (Cls is_digit).   (* \d+ *)
Definition any0 : re := Star (Cls is_dot).       (* .*  *)
Definition any1 : re := Plus (Cls is_dot).       (* .+  *)
Definition kw (s : string) : re := Lit (u s).
Definition Opt (a : re) : re := Alt a Eps.       (* a?  *)

Definition dq : str := [34].     (* the double quote *)
Definition sq : str := [39].     (* the single quote *)
Definition c_dq : re := Chr 34.
Definition c_sq : re := Chr 39.
Definition c_colon : re := Chr 58.

(* /^to\s+start\s*:$/ *)
Definition re_to_start : re :=
  seqs [Bol; kw "to"; ws1; kw "start"; ws0; c_colon; Eol].
(* /^to\s+(\w+)\s*(.* ):\s*$/ *)
Definition re_to : re :=
  seqs [Bol; kw "to"; ws1; Group 1 word; ws0; Group 2 any0; c_colon; ws0; Eol].
(* /^a\s+(\w+)\s+has\s*:\s*$/ *)
Definition re_struct : re :=
  seqs [Bol; kw "a"; ws1; Group 1 word; ws1; kw "has"; ws0; c_colon; ws0; Eol].
(* /^(\w+)\s+as\s+(\w+)$/ *)
Definition re_field : re :=
  seqs [Bol; Group 1 word; ws1; kw "as"; ws1; Group 2 word; Eol].
(* /^a\s+(\w+)\s+can\s+(\w+)\s*(.* ):\s*$/ *)
Definition re_method : re :=
  seqs [Bol; kw "a"; ws1; Group 1 word; ws1; kw "can"; ws1; Group 2 word;
        ws0; Group 3 any0; c_colon; ws0; Eol].
(* /^say\s+DQ(.* )DQ$/ with DQ the double quote *)
Definition re_say_dq : re :=
  seqs [Bol; kw "say"; ws1; c_dq; Group 1 any0; c_dq; Eol].
(* /^say\s+'(.* )'$/ *)
Definition re_say_sq : re :=
  seqs [Bol; kw "say"; ws1; c_sq; Group 1 any0; c_sq; Eol].
(* /^say\s+(.+)$/ *)
Definition re_say : re := seqs [Bol; kw "say"; ws1; Group 1 any1; Eol].
(* /^print\s+DQ(.* )DQ$/ with DQ the double quote *)
Definition re_print_dq : re :=
  seqs [Bol; kw "print"; ws1; c_dq; Group 1 any0; c_dq; Eol].
(* /^print\s+(.+)$/ *)
Definition re_print : re := seqs [Bol; kw "print"; ws1; Group 1 any1; Eol].
(* /^(\w+)\s+is\s+DQ(.* )DQ$/ with DQ the double quote *)
Definition re_is_dq : re :=
  seqs [Bol; Group 1 word; ws1; kw "is"; ws1; c_dq; Group 2 any0; c_dq; Eol].
(* /^(\w+)\s+is\s+'(.* )'$/ *)
Definition re_is_sq : re :=
  seqs [Bol; Group 1 word; ws1; kw "is"; ws1; c_sq; Group 2 any0; c_sq; Eol].
(* /^(\w+)\s+is\s+(\d+\.\d+)$/ *)
Definition re_is_decimal : re :=
  seqs [Bol; Group 1 word; ws1; kw "is"; ws1;
        Group 2 (seqs [digits; Chr 46; digits]); Eol].
(* /^(\w+)\s+is\s+(-?\d+)$/ *)
Definition re_is_int : re :=
  seqs [Bol; Group 1 word; ws1; kw "is"; ws1;
        Group 2 (Seq (Opt (Chr 45)) digits); Eol].
(* /^(\w+)\s+is\s+(yes|no)$/ *)
Definition re_is_bool : re :=
  seqs [Bol; Group 1 word; ws1; kw "is"; ws1;
        Group 2 (Alt (kw "yes") (kw "no")); Eol].
(* /^(\w+)\s+is\s+\[(.+)\]$/ *)
Definition re_is_list : re :=
  seqs [Bol; Group 1 word; ws1; kw "is"; ws1; Chr 91; Group 2 any1; Chr 93;
        Eol].
(* /^(\w+)\s+is\s+(.+),\s*can\s+change$/ *)
Definition re_is_mutable : re :=
  seqs [Bol; Group 1 word; ws1; kw "is"; ws1; Group 2 any1; Chr 44; ws0;
        kw "can"; ws1; kw "change"; Eol].
(* /^(\w+)\s+is\s+(.+)$/ *)
Definition re_is : re :=
  seqs [Bol; Group 1 word; ws1; kw "is"; ws1; Group 2 any1; Eol].
(* /^(\w+)\s+becomes\s+(.+)$/ *)
Definition re_becomes : re :=
  seqs [Bol; Group 1 word; ws1; kw "becomes"; ws1; Group 2 any1; Eol].
(* /^return\s+(.+)$/ *)
Definition re_return : re := seqs [Bol; kw "return"; ws1; Group 1 any1; Eol].
(* /^if\s+(.+):\s*$/ *)
Definition re_if : re :=
  seqs [Bol; kw "if"; ws1; Group 1 any1; c_colon; ws0; Eol].
(* /^otherwise\s+if\s+(.+):\s*$/ *)
Definition re_otherwise_if : re :=
  seqs [Bol; kw "otherwise"; ws1; kw "if"; ws1; Group 1 any1; c_colon; ws0;
        Eol].
(* /^for\s+each\s+(\w+)\s+in\s+(\d+)\s+to\s+(\d+)\s*:\s*$/ *)
Definition re_for_range : re :=
  seqs [Bol; kw "for"; ws1; kw "each"; ws1; Group 1 word; ws1; kw "in"; ws1;
        Group 2 digits; ws1; kw "to"; ws1; Group 3 digits; ws0; c_colon; ws0;
        Eol].
(* /^for\s+each\s+(\w+)\s+in\s+(\w+)\s*:\s*$/ *)
Definition re_for_each : re :=
  seqs [Bol; kw "for"; ws1; kw "each"; ws1; Group 1 word; ws1; kw "in"; ws1;
        Group 2 word; ws0; c_colon; ws0; Eol].
(* /^repeat\s+(\d+)\s+times\s*:\s*$/ *)
Definition re_repeat : re :=
  seqs [Bol; kw "repeat"; ws1; Group 1 digits; ws1; kw "times"; ws0; c_colon;
        ws0; Eol].
(* /^while\s+(.+):\s*$/ *)
Definition re_while : re :=
  seqs [Bol; kw "while"; ws1; Group 1 any1; c_colon; ws0; Eol].
(* /^pause\s+(\d+)$/ *)
Definition re_pause : re := seqs [Bol; kw "pause"; ws1; Group 1 digits; Eol].
(* /^write\s+DQ(.+)DQ\s+to\s+DQ(.+)DQ$/ with DQ the double quote *)
Definition re_write : re :=
  seqs [Bol; kw "write"; ws1; c_dq; Group 1 any1; c_dq; ws1; kw "to"; ws1;
        c_dq; Group 2 any1; c_dq; Eol].
(* /^(\w+)\s+is\s+read\s+DQ(.+)DQ$/ with DQ the double quote *)
Definition re_read : re :=
  seqs [Bol; Group 1 word; ws1; kw "is"; ws1; kw "read"; ws1; c_dq;
        Group 2 any1; c_dq; Eol].
(* /^(\w+)\s+is\s+ask\s+DQ(.+)DQ$/ with DQ the double quote *)
Definition re_ask : re :=
  seqs [Bol; Group 1 word; ws1; kw "is"; ws1; kw "ask"; ws1; c_dq;
        Group 2 any1; c_dq; Eol].
(* /^(\w+)\s+is\s+sqrt\s+(.+)$/ *)
Definition re_sqrt : re :=
  seqs [Bol; Group 1 word; ws1; kw "is"; ws1; kw "sqrt"; ws1; Group 2 any1;
        Eol].
(* /^(\w+)\s+is\s+abs\s+(.+)$/ *)
Definition re_abs : re :=
  seqs [Bol; Group 1 word; ws1; kw "is"; ws1; kw "abs"; ws1; Group 2 any1;
        Eol].
(* /^(\w+)\s+is\s+pow\s+(.+)\s+(.+)$/ *)
Definition re_pow : re :=
  seqs [Bol; Group 1 word; ws1; kw "is"; ws1; kw "pow"; ws1; Group 2 any1;
        ws1; Group 3 any1; Eol].
(* /^(\w+)\s+is\s+random\s+(\d+)\s+(\d+)$/ *)
Definition re_random : re :=
  seqs [Bol; Group 1 word; ws1; kw "is"; ws1; kw "random"; ws1;
        Group 2 digits; ws1; Group 3 digits; Eol].
(* /^(\w+)\s+(.+)$/ *)
Definition re_call : re := seqs [Bol; Group 1 word; ws1; Group 2 any1; Eol].
(* /^(\w+)$/ *)
Definition re_bare : re := seqs [Bol; Group 1 word; Eol].

(* /\s+and\s+/g *)
Definition re_and_sep : re := seqs [ws1; kw "and"; ws1].
(* /,\s*/ *)
Definition re_comma : re := Seq (Chr 44) ws0.

(* /\byes\b/g, /\bno\b/g, /\band\b/g, /\bor\b/g, /\bmod\b/g, /\bis\b/g *)
Definition re_word (s : string) : re := seqs [WordB; kw s; WordB].
(* /\bnot\s+/g *)
Definition re_not : re := seqs [WordB; kw "not"; ws1].
(* /\bis\s+not\b/g *)
Definition re_is_not : re := seqs [WordB; kw "is"; ws1; kw "not"; WordB].

(* /\{/g and /\}/g *)
Definition re_open : re := Chr 123.
Definition re_close : re := Chr 125.

(** ** The expression and condition rewriters *)

Definition translateExpr (expr : str) : str :=
  replace_all (re_word "is") (u "==")
    (replace_all (re_word "mod") (u "%")
       (replace_all re_not (u "!")
          (replace_all (re_word "or") (u "||")
             (replace_all (re_word "and") (u "&&")
                (replace_all (re_word "no") (u "false")
                   (replace_all (re_word "yes") (u "true") expr)))))).

Definition translateCond (cond : str) : str :=
  replace_all (re_word "mod") (u "%")
    (replace_all re_not (u "!")
       (replace_all (re_word "or") (u "||")
          (replace_all (re_word "and") (u "&&")
             (replace_all (re_word "is") (u "==")
                (replace_all re_is_not (u "!=") cond))))).

(** ** The block reconciler *)

Local Open Scope Z_scope.

(** The [for] loop of [closeBlocks]: the running depth. *)
Definition brace_delta (l : str) : Z :=
  Z.of_nat (count_matches re_open l) - Z.of_nat (count_matches re_close l).

Fixpoint scan_depth (depth : Z) (out : list str) (lines : list str)
  : Z * list str :=
  match lines with
  | [] => (depth, out)
  | l :: rest => scan_depth (depth + brace_delta l) (out ++ [l]) rest
  end.

Definition closer : str := u "    }".

(** The [while (depth > 0)] loop: it runs [depth] times, which is the fuel
    it is given. *)
Fixpoint close_loop (fuel : nat) (depth : Z) (out : list str) : list str :=
  if depth >? 0 then
    match fuel with
    | O => out
    | S fuel' => close_loop fuel' (depth - 1) (out ++ [closer])
    end
  else out.

Definition closeBlocks (lines : list str) : list str :=
  let '(depth, out) := scan_depth 0 [] lines in
  close_loop (Z.to_nat depth) depth out.

Local Close Scope Z_scope.

(** ** The translation state

    The variables of [translateFlowToCpp] that the loop reads.  [stripped]
    and [indentStack] are assigned and never read, and are left out. *)

Record State : Type := mkState {
  includes : list str;        (* a [Set]: no duplicates, insertion order *)
  declarations : list str;
  bodyLines : list str;
  structs : list str;
  inFunction : bool;
  inStruct : bool;
  currentFunc : option str;
  currentStruct : option str
}.

Definition init_includes : list str :=
  [u "#include <iostream>"; u "#include <string>"; u "#include <vector>";
   u "#include <cmath>"; u "#include <sstream>"; u "#include <algorithm>"].

Definition init_state : State :=
  {| includes := init_includes; declarations := []; bodyLines := [];
     structs := []; inFunction := false; inStruct := false;
     currentFunc := None; currentStruct := None |}.

(** [includes.add(x)] *)
Definition set_add (x : str) (l : list str) : list str :=
  if includes_str l x then l else l ++ [x].

Definition add_include (x : str) (st : State) : State :=
  {| includes := set_add x (includes st); declarations := declarations st;
     bodyLines := bodyLines st; structs := structs st;
     inFunction := inFunction st; inStruct := inStruct st;
     currentFunc := currentFunc st; currentStruct := currentStruct st |}.

Definition push_decl (l : str) (st : State) : State :=
  {| includes := includes st; declarations := declarations st ++ [l];
     bodyLines := bodyLines st; structs := structs st;
     inFunction := inFunction st; inStruct := inStruct st;
     currentFunc := currentFunc st; currentStruct := currentStruct st |}.

Definition push_body (l : str) (st : State) : State :=
  {| includes := includes st; declarations := declarations st;
     bodyLines := bodyLines st ++ [l]; structs := structs st;
     inFunction := inFunction st; inStruct := inStruct st;
     currentFunc := currentFunc st; currentStruct := currentStruct st |}.

Definition push_struct (l : str) (st : State) : State :=
  {| includes := includes st; declarations := declarations st;
     bodyLines := bodyLines st; structs := structs st ++ [l];
     inFunction := inFunction st; inStruct := inStruct st;
     currentFunc := currentFunc st; currentStruct := currentStruct st |}.

Definition set_function (b : bool) (f : option str) (st : State) : State :=
  {| includes := includes st; declarations := declarations st;
     bodyLines := bodyLines st; structs := structs st;
     inFunction := b; inStruct := inStruct st;
     currentFunc := f; currentStruct := currentStruct st |}.

Definition set_inFunction (b : bool) (st : State) : State :=
  set_function b (currentFunc st) st.

Definition set_struct (b : bool) (s : option str) (st : State) : State :=
  {| includes := includes st; declarations := declarations st;
     bodyLines := bodyLines st; structs := structs st;
     inFunction := inFunction st; inStruct := b;
     currentFunc := currentFunc st; currentStruct := s |}.

(** [target.push(l)]: [target] is the array chosen at the top of the loop
    body, [declarations] when [inFunction] held there ([tgt = true]) and
    [bodyLines] otherwise. *)
Definition push_target (tgt : bool) (l : str) (st : State) : State :=
  if tgt then push_decl l st else push_body l st.

Definition pad : str := u "    ".
Definition nl : str := [10].

(** ["}\n"] and ["};\n"] *)
Definition fn_close : str := u "}" ++ nl.
Definition struct_close : str := u "};" ++ nl.

(** The closing of the open function at a line of indentation zero. *)
Definition end_function (st : State) : State :=
  set_function false None (push_decl fn_close st).

(** The closing of the open struct. *)
Definition end_struct (st : State) : State :=
  set_struct false None (push_struct struct_close st).

(** [raw.replace(/\s+and\s+/g, ", ").split(/,\s*/)
       .map(a => `auto ${a.trim()}`).join(", ")] *)
Definition build_args (raw : str) : str :=
  join (u ", ")
    (map (fun a => u "auto " ++ trim a)
       (split_re re_comma (replace_all re_and_sep (u ", ") raw))).

(** [`${typeMap[k] || "auto"}`]: the four own keys of [typeMap]; a key
    found on [Object.prototype] yields that (truthy) member, printed as V8
    prints it; anything else is [undefined] and gives ["auto"]. *)
Definition native_fn (name : str) : str :=
  u "function " ++ name ++ u "() { [native code] }".

Definition typeMap (k : option str) : str :=
  match k with
  | None => u "auto"
  | Some w =>
      if str_eqb w (u "text") then u "std::string"
      else if str_eqb w (u "number") then u "int"
      else if str_eqb w (u "decimal") then u "double"
      else if str_eqb w (u "boolean") then u "bool"
      else if str_eqb w (u "constructor") then native_fn (u "Object")
      else if str_eqb w (u "__proto__") then u "[object Object]"
      else if includes_str
                [u "__defineGetter__"; u "__defineSetter__";
                 u "hasOwnProperty"; u "__lookupGetter__";
                 u "__lookupSetter__"; u "isPrototypeOf";
                 u "propertyIsEnumerable"; u "toString"; u "valueOf";
                 u "toLocaleString"] w
      then native_fn w
      else u "auto"
  end.

(** [list.includes(m[i])] *)
Definition among (l : list string) (v : option str) : bool :=
  match v with
  | Some w => includes_str (map u l) w
  | None => false
  end.

Definition is_str (s : string) (v : option str) : bool :=
  match v with
  | Some w => str_eqb w (u s)
  | None => false
  end.

Definition expr_of (v : option str) : Res str :=
  e <- need v ;; Ok (translateExpr e).

Definition cond_of (v : option str) : Res str :=
  e <- need v ;; Ok (translateCond e).

Definition assign_guard : list string := ["if"; "for"; "while"; "a"]%string.

Definition call_guard : list string :=
  ["is"; "becomes"; "has"; "can"; "as"; "in"; "to"; "if"; "for"; "while";
   "repeat"; "say"; "print"; "write"; "return"; "otherwise"; "skip"; "stop";
   "pause"; "test"; "assert"; "try"; "catch"; "throw"; "log"]%string.

Definition bare_guard : list string :=
  ["skip"; "stop"; "return"; "otherwise"]%string.

(** [m = line.match(r); if (m) { ... continue; }] followed by the rest of
    the loop body. *)
Notation "'on' r 'in' line 'as' m 'do' a 'orelse' b" :=
  (match re_match r line with
   | Some m => a
   | None => b
   end)
  (at level 10, r at level 9, line at level 9, m name,
   a at level 200, b at level 200, only parsing).

(** [m = line.match(r); if (m && g) { ... continue; }] *)
Notation "'on' r 'in' line 'as' m 'provided' g 'do' a 'orelse' b" :=
  (match (match re_match r line with
          | Some m => if g then Some m else None
          | None => None
          end) with
   | Some m => a
   | None => b
   end)
  (at level 10, r at level 9, line at level 9, m name, g at level 200,
   a at level 200, b at level 200, only parsing).

Definition nonempty (s : str) : bool :=
  match s with [] => false | _ :: _ => true end.

(** The rules from the reassignment down to the fallback. *)
Definition other_statement (tgt : bool) (line : str) (st : State)
  : Res State :=
  (* REASSIGNMENT *)
  on re_becomes in line as m do
    (e <- expr_of (grp 2 m) ;;
     Ok (push_target tgt (pad ++ tpl (grp 1 m) ++ u " = " ++ e ++ u ";") st))
  orelse
  (* RETURN *)
  on re_return in line as m do
    (e <- expr_of (grp 1 m) ;;
     Ok (push_target tgt (pad ++ u "return " ++ e ++ u ";") st))
  orelse
  if str_eqb line (u "return")
  then Ok (push_target tgt (pad ++ u "return;") st) else
  (* IF / OTHERWISE *)
  on re_if in line as m do
    (c <- cond_of (grp 1 m) ;;
     Ok (push_target tgt (pad ++ u "if (" ++ c ++ u ") {") st))
  orelse
  on re_otherwise_if in line as m do
    (c <- cond_of (grp 1 m) ;;
     Ok (push_target tgt (pad ++ u "} else if (" ++ c ++ u ") {") st))
  orelse
  if str_eqb line (u "otherwise:")
  then Ok (push_target tgt (pad ++ u "} else {") st) else
  (* FOR EACH / REPEAT / WHILE *)
  on re_for_range in line as m do
    Ok (push_target tgt
          (pad ++ u "for (int " ++ tpl (grp 1 m) ++ u " = "
           ++ tpl (grp 2 m) ++ u "; " ++ tpl (grp 1 m) ++ u " <= "
           ++ tpl (grp 3 m) ++ u "; " ++ tpl (grp 1 m) ++ u "++) {") st)
  orelse
  on re_for_each in line as m do
    Ok (push_target tgt
          (pad ++ u "for (const auto& " ++ tpl (grp 1 m) ++ u " : "
           ++ tpl (grp 2 m) ++ u ") {") st)
  orelse
  on re_repeat in line as m do
    Ok (push_target tgt
          (pad ++ u "for (int _i = 0; _i < " ++ tpl (grp 1 m)
           ++ u "; _i++) {") st)
  orelse
  on re_while in line as m do
    (c <- cond_of (grp 1 m) ;;
     Ok (push_target tgt (pad ++ u "while (" ++ c ++ u ") {") st))
  orelse
  if str_eqb line (u "skip")
  then Ok (push_target tgt (pad ++ u "continue;") st) else
  if str_eqb line (u "stop")
  then Ok (push_target tgt (pad ++ u "break;") st) else
  (* PAUSE *)
  on re_pause in line as m do
    Ok (push_target tgt
          (pad ++ u "std::this_thread::sleep_for(std::chrono::milliseconds("
           ++ tpl (grp 1 m) ++ u "));")
          (add_include (u "#include <chrono>")
             (add_include (u "#include <thread>") st)))
  orelse
  (* FILE I/O *)
  on re_write in line as m do
    Ok (push_target tgt
          (pad ++ u "{ std::ofstream f(" ++ dq ++ tpl (grp 2 m) ++ dq
           ++ u "); f << " ++ dq ++ tpl (grp 1 m) ++ dq ++ u "; }")
          (add_include (u "#include <fstream>") st))
  orelse
  on re_read in line as m do
    Ok (push_target tgt
          (pad ++ u "std::string " ++ tpl (grp 1 m)
           ++ u "; { std::ifstream f(" ++ dq ++ tpl (grp 2 m) ++ dq
           ++ u "); std::ostringstream s; s << f.rdbuf(); "
           ++ tpl (grp 1 m) ++ u " = s.str(); }")
          (add_include (u "#include <fstream>") st))
  orelse
  (* ASK *)
  on re_ask in line as m do
    Ok (push_target tgt
          (pad ++ u "std::string " ++ tpl (grp 1 m) ++ u "; std::cout << "
           ++ dq ++ tpl (grp 2 m) ++ dq ++ u "; std::getline(std::cin, "
           ++ tpl (grp 1 m) ++ u ");") st)
  orelse
  (* MATH BUILTINS *)
  on re_sqrt in line as m do
    (e <- expr_of (grp 2 m) ;;
     Ok (push_target tgt
           (pad ++ u "const auto " ++ tpl (grp 1 m) ++ u " = std::sqrt("
            ++ e ++ u ");") st))
  orelse
  on re_abs in line as m do
    (e <- expr_of (grp 2 m) ;;
     Ok (push_target tgt
           (pad ++ u "const auto " ++ tpl (grp 1 m) ++ u " = std::abs("
            ++ e ++ u ");") st))
  orelse
  on re_pow in line as m do
    (e2 <- expr_of (grp 2 m) ;;
     e3 <- expr_of (grp 3 m) ;;
     Ok (push_target tgt
           (pad ++ u "const auto " ++ tpl (grp 1 m) ++ u " = std::pow("
            ++ e2 ++ u ", " ++ e3 ++ u ");") st))
  orelse
  (* RANDOM *)
  on re_random in line as m do
    Ok (push_target tgt
          (pad ++ u "int " ++ tpl (grp 1 m)
           ++ u "; { std::random_device rd; std::mt19937 gen(rd()); "
           ++ u "std::uniform_int_distribution<> dis(" ++ tpl (grp 2 m)
           ++ u ", " ++ tpl (grp 3 m) ++ u "); " ++ tpl (grp 1 m)
           ++ u " = dis(gen); }")
          (add_include (u "#include <random>") st))
  orelse
  (* FUNCTION CALL *)
  on re_call in line as m provided negb (among call_guard (grp 1 m)) do
    (m2 <- need (grp 2 m) ;;
     let args := replace_all re_and_sep (u ", ") m2 in
     Ok (push_target tgt (pad ++ tpl (grp 1 m) ++ u "(" ++ args ++ u ");") st))
  orelse
  (* BARE FUNCTION CALL *)
  on re_bare in line as m provided negb (among bare_guard (grp 1 m)) do
    Ok (push_target tgt (pad ++ tpl (grp 1 m) ++ u "();") st)
  orelse
  (* CLOSING BRACE: the block of the source under this heading computes
     the indentation of the next line and does nothing with it *)
  (* Anything unrecognized becomes a comment *)
  Ok (push_target tgt (pad ++ u "// [flow] " ++ line) st).

(** The rules of the assignment [name is value]. *)
Definition assignment (tgt : bool) (line : str) (st : State) : Res State :=
  (* ASSIGNMENT *)
  on re_is_dq in line as m do
    Ok (push_target tgt
          (pad ++ u "const std::string " ++ tpl (grp 1 m) ++ u " = " ++ dq
           ++ tpl (grp 2 m) ++ dq ++ u ";") st)
  orelse
  on re_is_sq in line as m do
    Ok (push_target tgt
          (pad ++ u "const std::string " ++ tpl (grp 1 m) ++ u " = " ++ dq
           ++ tpl (grp 2 m) ++ dq ++ u ";") st)
  orelse
  on re_is_decimal in line as m do
    Ok (push_target tgt
          (pad ++ u "const double " ++ tpl (grp 1 m) ++ u " = "
           ++ tpl (grp 2 m) ++ u ";") st)
  orelse
  on re_is_int in line as m do
    Ok (push_target tgt
          (pad ++ u "const int " ++ tpl (grp 1 m) ++ u " = "
           ++ tpl (grp 2 m) ++ u ";") st)
  orelse
  on re_is_bool in line as m do
    Ok (push_target tgt
          (pad ++ u "const bool " ++ tpl (grp 1 m) ++ u " = "
           ++ (if is_str "yes" (grp 2 m) then u "true" else u "false")
           ++ u ";") st)
  orelse
  on re_is_list in line as m do
    Ok (push_target tgt
          (pad ++ u "const auto " ++ tpl (grp 1 m) ++ u " = std::vector<int>{"
           ++ tpl (grp 2 m) ++ u "};") st)
  orelse
  on re_is_mutable in line as m do
    (e <- expr_of (grp 2 m) ;;
     Ok (push_target tgt
           (pad ++ u "auto " ++ tpl (grp 1 m) ++ u " = " ++ e ++ u ";") st))
  orelse
  (* Generic assignment *)
  on re_is in line as m provided negb (among assign_guard (grp 1 m)) do
    (e <- expr_of (grp 2 m) ;;
     Ok (push_target tgt
           (pad ++ u "const auto " ++ tpl (grp 1 m) ++ u " = " ++ e ++ u ";")
           st))
  orelse
  other_statement tgt line st.

(** The rules from the struct method header down: the method header, the
    output statements, then the assignment and what follows it. *)
Definition statement (tgt : bool) (line : str) (st : State) : Res State :=
  (* STRUCT METHOD *)
  on re_method in line as m do
    (m3 <- need (grp 3 m) ;;
     let args := if nonempty (trim m3) then build_args m3 else [] in
     Ok (set_inFunction true
           (push_decl
              (u "void " ++ tpl (grp 1 m) ++ u "_" ++ tpl (grp 2 m) ++ u "("
               ++ tpl (grp 1 m) ++ u "& self"
               ++ (if nonempty args then u ", " ++ args else [])
               ++ u ") {") st)))
  orelse
  (* SAY *)
  on re_say_dq in line as m do
    Ok (push_target tgt
          (pad ++ u "std::cout << " ++ dq ++ tpl (grp 1 m) ++ dq
           ++ u " << std::endl;") st)
  orelse
  on re_say_sq in line as m do
    Ok (push_target tgt
          (pad ++ u "std::cout << " ++ dq ++ tpl (grp 1 m) ++ dq
           ++ u " << std::endl;") st)
  orelse
  on re_say in line as m do
    (e <- expr_of (grp 1 m) ;;
     Ok (push_target tgt (pad ++ u "std::cout << " ++ e ++ u " << std::endl;")
           st))
  orelse
  (* PRINT *)
  on re_print_dq in line as m do
    Ok (push_target tgt
          (pad ++ u "std::cout << " ++ dq ++ tpl (grp 1 m) ++ dq ++ u ";") st)
  orelse
  on re_print in line as m do
    (e <- expr_of (grp 1 m) ;;
     Ok (push_target tgt (pad ++ u "std::cout << " ++ e ++ u ";") st))
  orelse
  assignment tgt line st.

(** [if (inFunction && indent === 0 && line && !line.startsWith("to "))]:
    the open function ends at a line of indentation zero. *)
Definition dedent (indent : nat) (line : str) (st : State) : State :=
  if inFunction st && Nat.eqb indent 0 && nonempty line
     && negb (startsWith (u "to ") line)
  then end_function st else st.

(** [if (!m && indent === 0)], reached inside a struct when the line is not
    a field: the open struct ends. *)
Definition struct_dedent (indent : nat) (st : State) : State :=
  if Nat.eqb indent 0 then end_struct st else st.

(** The body of the [for] loop over the raw lines. *)
Definition translate_line (st : State) (raw : str) : Res State :=
  let indent := (length raw - length (trimStart raw))%nat in
  let line := trim raw in
  if negb (nonempty line) || startsWith (u "//") line
     || startsWith (u "#") line
  then Ok st else
  let tgt := inFunction st in
  (* FUNCTION DEFINITION *)
  on re_to_start in line as m do Ok (set_inFunction false st) orelse
  on re_to in line as m do
    (m2 <- need (grp 2 m) ;;
     let argsRaw := trim m2 in
     let args := if nonempty argsRaw then build_args argsRaw else [] in
     Ok (set_function true (grp 1 m)
           (push_decl
              (u "auto " ++ tpl (grp 1 m) ++ u "(" ++ args ++ u ") {") st)))
  orelse
  (* End of function block (dedent detection) *)
  let st1 := dedent indent line st in
  (* STRUCT *)
  on re_struct in line as m do
    Ok (set_struct true (grp 1 m)
          (push_struct (u "struct " ++ tpl (grp 1 m) ++ u " {") st1))
  orelse
  (* Struct field *)
  if inStruct st1 then
    on re_field in line as m do
      Ok (push_struct
            (pad ++ typeMap (grp 2 m) ++ u " " ++ tpl (grp 1 m) ++ u ";") st1)
    orelse
      (* End struct *)
      statement tgt line (struct_dedent indent st1)
  else statement tgt line st1.

Fixpoint translate_lines (st : State) (rawLines : list str) : Res State :=
  match rawLines with
  | [] => Ok st
  | raw :: rest => st' <- translate_line st raw ;; translate_lines st' rest
  end.

(** The number [PHI], as [`${PHI}`] prints it, and the letter phi. *)
Definition PHI_text : str := u "1.618033988749895".
Definition phi_letter : str := [966].

(** What follows the loop: the pending closings. *)
Definition finish (st : State) : State :=
  let st1 := if inFunction st then push_decl fn_close st else st in
  if inStruct st1 then push_struct struct_close st1 else st1.

(** [parts.push(...items)]: every element of [items] is an argument of
    the call, and the engine raises a [RangeError] for a call with more
    arguments than it takes.  The bound [max_args] is the engine's. *)
Definition push_spread (max_args : nat) (parts items : list str)
  : Res (list str) :=
  if (length items <=? max_args)%nat then Ok (parts ++ items) else Throw.

(** The assembly of the parts, joined by line feeds. *)
Definition assemble (max_args : nat) (st : State) : Res str :=
  let closedBody := closeBlocks (bodyLines st) in
  let closedDecl := closeBlocks (declarations st) in
  let parts :=
    includes st ++ [[]; u "// " ++ phi_letter ++ u " = " ++ PHI_text; []] in
  parts <- (match structs st with
            | [] => Ok parts
            | _ :: _ => push_spread max_args parts (structs st)
            end) ;;
  parts <- (match closedDecl with
            | [] => Ok parts
            | _ :: _ => push_spread max_args parts closedDecl
            end) ;;
  parts <- push_spread max_args (parts ++ [u "int main() {"]) closedBody ;;
  Ok (join nl (parts ++ [u "    return 0;"; u "}"])).

Definition translateFlowToCpp (max_args : nat) (flowCode : str) : Res str :=
  st <- translate_lines init_state (split_lines flowCode) ;;
  assemble max_args (finish st).

(** ** The history ledger *)

Section Ledger.
(** The reading of the clock ([new Date().toISOString()]) and the
    floating-point weight [Math.sin(id * PHI) * 0.5 + 0.5] are kept
    abstract. *)
Variable Timestamp : Type.
Variable Pulse : Type.
Variable phi_pulse_of : N -> Pulse.

Record Idea : Type := mkIdea {
  id : N;
  flow : str;
  cpp : str;
  success : bool;
  output : str;
  timestamp : Timestamp;
  phi_pulse : Pulse
}.

Record Ledger : Type := mkLedger {
  ideaStream : list Idea;
  compilationCount : N
}.

Definition empty_ledger : Ledger :=
  {| ideaStream := []; compilationCount := 0 |}.

(** [ideaStream.shift()] *)
Definition shift (l : list Idea) : list Idea := tl l.

(** [logIdea]: the new ledger and the idea returned ([console.log] left
    out). *)
Definition logIdea (g : Ledger) (now : Timestamp)
  (flow cpp : str) (success : bool) (output : str) : Ledger * Idea :=
  let count := compilationCount g + 1 in
  let idea := {| id := count; flow := flow; cpp := cpp;
                 success := success; output := output; timestamp := now;
                 phi_pulse := phi_pulse_of count |} in
  let pushed := ideaStream g ++ [idea] in
  let stream := if (500 <? length pushed)%nat then shift pushed
                else pushed in
  ({| ideaStream := stream; compilationCount := count |}, idea).

(** The arguments of one call. *)
Record Call : Type := mkCall {
  c_now : Timestamp; c_flow : str; c_cpp : str; c_success : bool;
  c_output : str
}.

Definition log_call (g : Ledger) (c : Call) : Ledger * Idea :=
  logIdea g (c_now c) (c_flow c) (c_cpp c) (c_success c) (c_output c).

(** Any sequence of calls, with the ideas they return. *)
Fixpoint log_calls (g : Ledger) (cs : list Call) : Ledger * list Idea :=
  match cs with
  | [] => (g, [])
  | c :: rest =>
      let '(g1, i) := log_call g c in
      let '(g2, more) := log_calls g1 rest in
      (g2, i :: more)
  end.
End Ledger.

(** ** The compile-and-run harness *)

(** What the external world answers.  A call either returns or raises. *)
Inductive Outcome (E A : Type) : Type :=
| Returned (a : A)
| Raised (e : E).
Arguments Returned {E A} a.
Arguments Raised {E A} e.

(** [try { body } catch (err) { handler }] *)
Definition try_catch {E A : Type} (body : Outcome E A)
  (handler : E -> Outcome E A) : Outcome E A :=
  match body with
  | Returned a => Returned a
  | Raised e => handler e
  end.

Definition and_then {E A B : Type} (x : Outcome E A)
  (f : A -> Outcome E B) : Outcome E B :=
  match x with
  | Returned a => f a
  | Raised e => Raised e
  end.

(** The [stderr] and [stdout] members of an error: absent, a [Buffer]
    (truthy even when empty) or a string (truthy when non-empty). *)
Inductive Field : Type :=
| Absent
| Buffer (bytes : str)
| Text (s : str).

Definition truthy (f : Field) : bool :=
  match f with
  | Absent => false
  | Buffer _ => true
  | Text s => nonempty s
  end.

(** [f.toString()] for a truthy member. *)
Definition field_text (f : Field) : str :=
  match f with
  | Absent => []
  | Buffer b => b
  | Text s => s
  end.

Record Thrown : Type := mkThrown {
  e_stderr : Field;
  e_stdout : Field;
  e_message : str
}.

Record World : Type := mkWorld {
  which_gpp : Outcome Thrown unit;            (* execSync("which g++") *)
  write_source : str -> Outcome Thrown unit;  (* writeFileSync(tmpSrc, .) *)
  run_compiler : str -> Outcome Thrown unit;  (* execSync(`g++ ...`) *)
  run_binary : str -> Outcome Thrown str      (* execSync(tmpBin) *)
}.

Record RunResult : Type := mkResult { r_success : bool; r_output : str }.

Definition unavailable : str := u "[runtime unavailable: g++ not found]".

(** The text the [catch] clause reports. *)
Definition diagnostic (err : Thrown) : str :=
  if truthy (e_stderr err) then field_text (e_stderr err)
  else if truthy (e_stdout err) then field_text (e_stdout err)
  else e_message err.

Definition compileAndRun (w : World) (cppSource : str)
  : Outcome Thrown RunResult :=
  match which_gpp w with
  | Raised _ => Returned {| r_success := false; r_output := unavailable |}
  | Returned _ =>
      try_catch
        (and_then (write_source w cppSource) (fun _ =>
         and_then (run_compiler w cppSource) (fun _ =>
         and_then (run_binary w cppSource) (fun output =>
         Returned {| r_success := true;
                     r_output := if nonempty output then output
                                 else u "(no output)" |}))))
        (fun err =>
           Returned {| r_success := false; r_output := diagnostic err |})
  end.

(** ** The driver and the message handler *)

Definition say_q (s : string) : str := u "say " ++ dq ++ u s ++ dq.

Definition FLOW_IDEAS : list str :=
  [ join nl [u "phi is 1.618033988749895"; say_q "The golden ratio: ";
             u "say phi"];
    join nl [u "to fibonacci n:"; u "    if n <= 1:"; u "        return n";
             u "    return fibonacci n - 1 and n - 2";
             u "result is fibonacci 10"; u "say result"];
    join nl [u "depth is 9"; u "for each level in 1 to 9:";
             pad ++ say_q "Consciousness level: "; u "    say level"];
    join nl [u "voltage is 0.07"; say_q "Membrane potential: ";
             u "say voltage"];
    join nl [u "generations is 100"; u "mutations is 0, can change";
             u "for each g in 1 to 100:";
             u "    mutations becomes mutations + 1";
             say_q "Total mutations: "; u "say mutations"];
    join nl [say_q "From simple rules, complexity emerges";
             say_q "Each cell follows phi";
             say_q "The whole transcends the parts"];
    join nl [say_q "Mandelbrot: z = z^2 + c"; u "iterations is 42";
             u "say iterations"];
    join nl [u "nodes is 1000"; u "edges is 1618";
             say_q "Mycelium network:"; u "say nodes"; u "say edges"];
    join nl [u "frequency is 528"; say_q "Healing frequency: ";
             u "say frequency"];
    join nl [say_q "Le code est poesie"; say_q "La poesie est code";
             say_q "infinity -> flow -> infinity"] ].

Section Server.
Variable Timestamp : Type.
Variable Pulse : Type.
Variable phi_pulse_of : N -> Pulse.
(** The engine's bound on the arguments of a call. *)
Variable max_args : nat.

(** The module-level variables. *)
Record Server : Type := mkServer {
  ledger : Ledger Timestamp Pulse;
  perpetualIndex : nat;
  perpetualTimer : bool
}.

Inductive Kind : Type := Compiled | Perpetual.

Record Envelope : Type := mkEnvelope {
  v_type : Kind;
  v_idea : Idea Timestamp Pulse;
  v_flow : str;
  v_cpp : str;
  v_output : str;
  v_compiled : bool;
  v_cycle : option nat;
  v_timestamp : Timestamp
}.

(** An exception that leaves a handler: from the translator or from the
    harness. *)
Definition lift {A : Type} (x : Res A) : Outcome (option Thrown) A :=
  match x with
  | Ok a => Returned a
  | Throw => Raised None
  end.

Definition lift_run {A : Type} (x : Outcome Thrown A)
  : Outcome (option Thrown) A :=
  match x with
  | Returned a => Returned a
  | Raised e => Raised (Some e)
  end.

(** [ws.on("message", ...)]: [t1] is the clock as [logIdea] reads it,
    [t2] as the envelope does. *)
Definition on_message (w : World) (t1 t2 : Timestamp) (srv : Server)
  (raw : str) : Outcome (option Thrown) (Server * option Envelope) :=
  let flowCode := trim raw in
  if negb (nonempty flowCode) then Returned (srv, None) else
  and_then (lift (translateFlowToCpp max_args flowCode)) (fun cpp =>
  and_then (lift_run (compileAndRun w cpp)) (fun result =>
  let '(g, idea) := logIdea phi_pulse_of (ledger srv) t1 flowCode cpp
                      (r_success result) (r_output result) in
  Returned
    ({| ledger := g; perpetualIndex := perpetualIndex srv;
        perpetualTimer := perpetualTimer srv |},
     Some {| v_type := Compiled; v_idea := idea; v_flow := flowCode;
             v_cpp := cpp; v_output := r_output result;
             v_compiled := r_success result; v_cycle := None;
             v_timestamp := t2 |}))).

(** One firing of the timer of [startPerpetualMotion]. *)
Definition perpetual_tick (w : World) (t1 : Timestamp) (srv : Server)
  : Outcome (option Thrown) (Server * option Envelope) :=
  match nth_error FLOW_IDEAS (perpetualIndex srv mod length FLOW_IDEAS) with
  | None => Raised None
  | Some flowCode =>
      let index := S (perpetualIndex srv) in
      and_then (lift (translateFlowToCpp max_args flowCode)) (fun cpp =>
      and_then (lift_run (compileAndRun w cpp)) (fun result =>
      let '(g, idea) := logIdea phi_pulse_of (ledger srv) t1 flowCode cpp
                          (r_success result) (r_output result) in
      Returned
        ({| ledger := g; perpetualIndex := index;
            perpetualTimer := perpetualTimer srv |},
         Some {| v_type := Perpetual; v_idea := idea; v_flow := flowCode;
                 v_cpp := cpp; v_output := r_output result;
                 v_compiled := r_success result; v_cycle := Some index;
                 v_timestamp := timestamp idea |})))
  end.
End Server.

(** ** Notions used by the statements *)

(** The number of occurrences of a character. *)
Fixpoint count_char (c : char) (s : str) : nat :=
  match s with
  | [] => O
  | x :: t => if x =? c then S (count_char c t) else count_char c t
  end.

(** The net depth of a text: opening minus closing delimiters. *)
Definition depth_of (s : str) : Z :=
  (Z.of_nat (count_char 123%N s) - Z.of_nat (count_char 125%N s))%Z.

Fixpoint total_depth (lines : list str) : Z :=
  match lines with
  | [] => 0%Z
  | l :: rest => (depth_of l + total_depth rest)%Z
  end.

(** What a successful run of the matcher has done: from the position
    [(p, s)] with captures [cs] it has reached [(p', s')] with captures
    [cs']. *)
Inductive Matches : re -> option char -> str -> caps ->
                    option char -> str -> caps -> Prop :=
| M_chr c p t cs : Matches (Chr c) p (c :: t) cs (Some c) t cs
| M_cls (P : char -> bool) x p t cs :
    P x = true -> Matches (Cls P) p (x :: t) cs (Some x) t cs
| M_seq a b p s cs p1 s1 cs1 p2 s2 cs2 :
    Matches a p s cs p1 s1 cs1 -> Matches b p1 s1 cs1 p2 s2 cs2 ->
    Matches (Seq a b) p s cs p2 s2 cs2
| M_alt_l a b p s cs p1 s1 cs1 :
    Matches a p s cs p1 s1 cs1 -> Matches (Alt a b) p s cs p1 s1 cs1
| M_alt_r a b p s cs p1 s1 cs1 :
    Matches b p s cs p1 s1 cs1 -> Matches (Alt a b) p s cs p1 s1 cs1
| M_star_stop a p s cs : Matches (Star a) p s cs p s cs
| M_star_more a p s cs p1 s1 cs1 p2 s2 cs2 :
    Matches a p s cs p1 s1 cs1 -> Matches (Star a) p1 s1 cs1 p2 s2 cs2 ->
    Matches (Star a) p s cs p2 s2 cs2
| M_group i a p s cs p1 s1 cs1 :
    Matches a p s cs p1 s1 cs1 ->
    Matches (Group i a) p s cs p1 s1
      ((i, firstn (length s - length s1) s) :: cs1)
| M_bol s cs : Matches Bol None s cs None s cs
| M_eol p cs : Matches Eol p [] cs p [] cs
| M_wordb p s cs :
    xorb (word_opt p) (word_opt (hd_error s)) = true ->
    Matches WordB p s cs p s cs
| M_eps p s cs : Matches Eps p s cs p s cs.

(** The groups a successful match is sure to have set. *)
Fixpoint defines (r : re) (i : nat) : bool :=
  match r with
  | Group j a => Nat.eqb i j || defines a i
  | Seq a b => defines a i || defines b i
  | Alt a b => defines a i && defines b i
  | _ => false
  end.

(** How the include set may change: it only grows at its end, and it keeps
    holding no duplicate and no block delimiter. *)
Definition include_step (l l' : list str) : Prop :=
  (exists extra, l' = l ++ extra)
  /\ (NoDup l -> NoDup l')
  /\ (Forall (fun x => depth_of x = 0%Z) l ->
      Forall (fun x => depth_of x = 0%Z) l').

(** The comment the fallback emits for a line. *)
Definition comment_line (line : str) : str := pad ++ u "// [flow] " ++ line.

(** Lines the loop skips: blank lines and comments. *)
Definition skipped (line : str) : bool :=
  negb (nonempty line) || startsWith (u "//") line || startsWith (u "#") line.

(** The matchers of the dispatch loop: those that fire on a match, those
    that fire on a match whose first group is outside a guard list, and the
    lines compared as a whole. *)
Definition plain_rules : list re :=
  [re_to_start; re_to; re_struct; re_method; re_say_dq; re_say_sq; re_say;
   re_print_dq; re_print; re_is_dq; re_is_sq; re_is_decimal; re_is_int;
   re_is_bool; re_is_list; re_is_mutable; re_becomes; re_return; re_if;
   re_otherwise_if; re_for_range; re_for_each; re_repeat; re_while; re_pause;
   re_write; re_read; re_ask; re_sqrt; re_abs; re_pow; re_random].

Definition guarded_rules : list (re * list string) :=
  [(re_is, assign_guard); (re_call, call_guard); (re_bare, bare_guard)].

Definition whole_line_rules : list string :=
  ["return"; "otherwise:"; "skip"; "stop"]%string.

Definition fires (line : str) (r : re) (guard : list string) : bool :=
  match re_match r line with
  | Some m => negb (among guard (grp 1 m))
  | None => false
  end.

(** A line matched by no rule; the field rule is tried inside a struct
    only. *)
Definition unrecognized (in_struct : bool) (line : str) : bool :=
  forallb (fun r => negb (fires line r [])) plain_rules
  && forallb (fun rg => negb (fires line (fst rg) (snd rg))) guarded_rules
  && negb (includes_str (map u whole_line_rules) line)
  && negb (in_struct && fires line re_field []).

(** What a line of a given indentation closes before its own rule runs. *)
Definition closings (indent : nat) (line : str) (st : State) : State :=
  let st1 := dedent indent line st in
  if inStruct st1 then struct_dedent indent st1 else st1.

(** The last 500 elements of a list. *)
Definition last500 {A : Type} (l : list A) : list A :=
  skipn (length l - 500) l.

(** The result record of a failed run. *)
Definition failure (text : str) : RunResult :=
  {| r_success := false; r_output := text |}.

(** The character before the position reached after reading [w] from a
    position whose previous character is [p]. *)
Definition last_opt (p : option char) (w : str) : option char :=
  fold_left (fun _ c => Some c) w p.

(** An identifier: a non-empty run of word characters. *)
Definition identifier (x : str) : Prop :=
  x <> [] /\ forallb is_word x = true.

(** A text a line can hold: no line terminator. *)
Definition one_line (a : str) : Prop := forallb is_dot a = true.

Definition all_digits (d : str) : Prop :=
  d <> [] /\ forallb is_digit d = true.

(** A raw line made of an indentation [ws], a text [line] and trailing
    white space [trail] [emits] a text when the loop body appends it, after
    the four blanks of the source, to the list chosen at its top, having
    closed what a line of that indentation closes. *)
Definition emits (st : State) (ws line trail : str) (text : str) : Prop :=
  translate_line st (ws ++ line ++ trail)
  = Ok (push_target (inFunction st) (pad ++ text)
          (closings (length ws) line st)).

(** The shape shared by the assignment rules: [^(\w+)\s+is\s+] and then a
    tail. *)
Definition is_then (tail : re) : re :=
  Seq Bol (Seq (Group 1 word) (Seq ws1 (Seq (kw "is") (Seq ws1 tail)))).

(** The continuation of [match_here]. *)
Definition k_found : cont found :=
  fun p' s' cs' => Some {| f_caps := cs'; f_prev := p'; f_rest := s' |}.

(** Three readings of an expression: whether it may match without reading a
    character, whether a match must end at the end of the text, and a
    property of the last character any of its matches reads. *)
Fixpoint may_skip (r : re) : bool :=
  match r with
  | Chr _ | Cls _ => false
  | Seq a b => may_skip a && may_skip b
  | Alt a b => may_skip a || may_skip b
  | Group _ a => may_skip a
  | Star _ | Bol | Eol | WordB | Eps => true
  end.

Fixpoint anchored_end (r : re) : bool :=
  match r with
  | Eol => true
  | Seq _ b => anchored_end b
  | Alt a b => anchored_end a && anchored_end b
  | Group _ a => anchored_end a
  | _ => false
  end.

Fixpoint last_in (Q : char -> Prop) (r : re) : Prop :=
  match r with
  | Chr c => Q c
  | Cls P => forall c, P c = true -> Q c
  | Seq a b => last_in Q b /\ (may_skip b = false \/ last_in Q a)
  | Alt a b => last_in Q a /\ last_in Q b
  | Star a => last_in Q a
  | Group _ a => last_in Q a
  | Bol | Eol | WordB | Eps => True
  end.

(** A text that is empty or begins outside a class. *)
Definition headed (P : char -> bool) (s : str) : Prop :=
  match s with [] => True | x :: _ => P x = false end.

(** The tails of the assignment rules, after [^(\w+)\s+is\s+]. *)
Definition tail_quoted (q : char) : re :=
  seqs [Chr q; Group 2 any0; Chr q; Eol].
Definition tail_decimal : re :=
  seqs [Group 2 (seqs [digits; Chr 46; digits]); Eol].
Definition tail_int : re := seqs [Group 2 (Seq (Opt (Chr 45)) digits); Eol].
Definition tail_bool : re := seqs [Group 2 (Alt (kw "yes") (kw "no")); Eol].
Definition tail_list : re := seqs [Chr 91; Group 2 any1; Chr 93; Eol].
Definition tail_mutable : re :=
  seqs [Group 2 any1; Chr 44; ws0; kw "can"; ws1; kw "change"; Eol].

(** What a rule that matched to the end of the line reports. *)
Definition matched (cs : caps) (last : char) : option found :=
  Some {| f_caps := cs; f_prev := Some last; f_rest := [] |}.

(** The lists that the assembly spreads into a call have at most
    [max_args] elements each. *)
Definition fits (max_args : nat) (st : State) : bool :=
  (length (structs st) <=? max_args)%nat
  && (length (closeBlocks (declarations st)) <=? max_args)%nat
  && (length (closeBlocks (bodyLines st)) <=? max_args)%nat.

(** What the assembly returns when none of its calls raises. *)
Definition assembled (st : State) : str :=
  join nl
    (includes st
     ++ [[]; u "// " ++ phi_letter ++ u " = " ++ PHI_text; []]
     ++ structs st
     ++ closeBlocks (declarations st)
     ++ [u "int main() {"]
     ++ closeBlocks (bodyLines st)
     ++ [u "    return 0;"; u "}"]).

(** ** The HTTP routes *)

(** [l.slice(-n)]: the last [n] elements, all of them when there are
    fewer. *)
Definition slice_last {A : Type} (n : nat) (l : list A) : list A :=
  skipn (length l - n) l.

Section Http.
Variable Timestamp : Type.
Variable Pulse : Type.
(** The reading [parseFloat(((Date.now() - startTime) / 1000).toFixed(1))]
    is kept abstract. *)
Variable Uptime : Type.

(** What a response carries.  The text that [JSON.stringify] and the
    template of the [/compile] page make of these values is not modelled: a
    body holds the values that go into it. *)
Inductive Body : Type :=
| Page (text : str)
| HealthBody (uptime_seconds : Uptime) (compilations : N)
    (ideas_in_stream : nat) (perpetual_cycle : nat)
| IdeasBody (ideas : list (Idea Timestamp Pulse)) (total : nat)
| CompileBody (compilations : N) (perpetual_cycle : nat).

Record Response : Type := mkResponse {
  h_status : nat;
  h_content_type : str;
  h_body : Body
}.

(** The request listener of [createServer]; [index_html] is what
    [readFile] of [index.html] answers. *)
Definition handle_request (index_html : Outcome Thrown str)
  (uptime : Uptime) (srv : Server Timestamp Pulse) (method url : str)
  : Response :=
  if str_eqb method (u "GET") && str_eqb url (u "/") then
    match index_html with
    | Returned html =>
        {| h_status := 200; h_content_type := u "text/html; charset=utf-8";
           h_body := Page html |}
    | Raised _ =>
        {| h_status := 500; h_content_type := u "text/plain";
           h_body := Page (u "Failed to load index.html") |}
    end
  else if str_eqb method (u "GET") && str_eqb url (u "/health") then
    {| h_status := 200; h_content_type := u "application/json";
       h_body := HealthBody uptime (compilationCount (ledger srv))
                   (length (ideaStream (ledger srv))) (perpetualIndex srv) |}
  else if str_eqb method (u "GET") && str_eqb url (u "/ideas") then
    {| h_status := 200; h_content_type := u "application/json";
       h_body := IdeasBody (slice_last 50 (ideaStream (ledger srv)))
                   (length (ideaStream (ledger srv))) |}
  else if str_eqb method (u "GET") && str_eqb url (u "/compile") then
    {| h_status := 200; h_content_type := u "text/html";
       h_body := CompileBody (compilationCount (ledger srv))
                   (perpetualIndex srv) |}
  else
    {| h_status := 404; h_content_type := u "text/plain";
       h_body := Page (u "Not Found") |}.
End Http.

(** ** Runs of the handlers *)

Section Events.
Variable Timestamp : Type.
Variable Pulse : Type.
Variable phi_pulse_of : N -> Pulse.
Variable max_args : nat.

(** One run of a handler that may compile: a message that arrives, or a
    firing of the timer, with what the world answers during it. *)
Inductive Event : Type :=
| Message (w : World) (t1 t2 : Timestamp) (raw : str)
| Tick (w : World) (t1 : Timestamp).

Definition handle (srv : Server Timestamp Pulse) (e : Event)
  : Outcome (option Thrown)
      (Server Timestamp Pulse * option (Envelope Timestamp Pulse)) :=
  match e with
  | Message w t1 t2 raw => on_message phi_pulse_of max_args w t1 t2 srv raw
  | Tick w t1 => perpetual_tick phi_pulse_of max_args w t1 srv
  end.

(** The handlers run one after the other; the envelopes broadcast are
    collected in order. *)
Fixpoint run_events (srv : Server Timestamp Pulse) (es : list Event)
  : Outcome (option Thrown)
      (Server Timestamp Pulse * list (Envelope Timestamp Pulse)) :=
  match es with
  | [] => Returned (srv, [])
  | e :: rest =>
      and_then (handle srv e) (fun r =>
      and_then (run_events (fst r) rest) (fun r' =>
      Returned (fst r',
                match snd r with
                | Some v => v :: snd r'
                | None => snd r'
                end)))
  end.

Definition is_tick (e : Event) : bool :=
  match e with Tick _ _ => true | Message _ _ _ _ => false end.

(** The events that compile something: every firing of the timer, and the
    messages that are not blank. *)
Definition compiles (e : Event) : bool :=
  match e with
  | Tick _ _ => true
  | Message _ _ _ raw => nonempty (trim raw)
  end.

Definition count_events (f : Event -> bool) (es : list Event) : nat :=
  length (filter f es).

(** The text an event hands to the translator, if it compiles. *)
Definition text_of (srv : Server Timestamp Pulse) (e : Event) : option str :=
  match e with
  | Message _ _ _ raw =>
      if nonempty (trim raw) then Some (trim raw) else None
  | Tick _ _ =>
      nth_error FLOW_IDEAS (perpetualIndex srv mod length FLOW_IDEAS)
  end.

(** The events whose text the translator returns for: a message by its
    own text; a firing of the timer translates one of the fixed examples. *)
Definition translates (e : Event) : bool :=
  match e with
  | Message _ _ _ raw =>
      match translateFlowToCpp max_args (trim raw) with
      | Ok _ => true
      | Throw => false
      end
  | Tick _ _ => true
  end.
End Events.

(** ** More notions used by the statements *)

(** The letters the keywords of the two rewriters begin with: [a], [i],
    [m], [n], [o], [y]. *)
Definition keyword_initial (c : char) : bool :=
  (c =? 97) || (c =? 105) || (c =? 109) || (c =? 110) || (c =? 111)
  || (c =? 121).

Definition free_of_keywords (s : str) : bool :=
  forallb (fun c => negb (keyword_initial c)) s.

(** A text without a line feed. *)
Definition no_line_feed (l : str) : bool :=
  forallb (fun c => negb (c =? 10)) l.

(** The indentation of a raw line, as the loop computes it. *)
Definition indent_of (raw : str) : nat := length raw - length (trimStart raw).

(** The ten include directives the source names. *)
Definition known_includes : list str :=
  init_includes
  ++ [u "#include <thread>"; u "#include <chrono>"; u "#include <fstream>";
      u "#include <random>"].

(** The include set holds only directives the source names, and the two of
    [pause] come together. *)
Definition includes_ok (l : list str) : Prop :=
  Forall (fun x => In x known_includes) l
  /\ (In (u "#include <thread>") l <-> In (u "#include <chrono>") l).

(** A text that begins with a given word followed by white space. *)
Definition led_by (K s : str) : Prop :=
  exists c t, s = K ++ c :: t /\ is_space c = true.

(** The shape shared by the rules that begin with a keyword: the keyword,
    white space, and then a tail. *)
Definition kw_then (K : str) (tail : re) : re :=
  Seq Bol (Seq (Lit K) (Seq ws1 tail)).

(** The shape shared by the rules that begin with a name and a keyword:
    [is_then] is the case of the keyword [is]. *)
Definition word_then (K : str) (tail : re) : re :=
  Seq Bol (Seq (Group 1 word) (Seq ws1 (Seq (Lit K) (Seq ws1 tail)))).

(** The tails of the output rules, of the rules that take the rest of the
    line, and of the block headers that take a condition. *)
Definition tail_text (q : char) : re :=
  seqs [Chr q; Group 1 any0; Chr q; Eol].
Definition tail_rest (i : nat) : re := seqs [Group i any1; Eol].
Definition tail_cond : re := seqs [Group 1 any1; c_colon; ws0; Eol].

(** A raw line, made of an indentation [ws] and a text [line], [writes] a
    text when the loop body appends it, after the four blanks of the
    source, to the list chosen at its top, having closed what a line of
    that indentation closes. *)
Definition writes (st : State) (ws line text : str) : Prop :=
  translate_line st (ws ++ line)
  = Ok (push_target (inFunction st) (pad ++ text)
          (closings (length ws) line st)).

(** The groups an expression may set. *)
Fixpoint mentions (r : re) (i : nat) : bool :=
  match r with
  | Group j a => Nat.eqb i j || mentions a i
  | Seq a b | Alt a b => mentions a i || mentions b i
  | Star a => mentions a i
  | _ => false
  end.

(** The tail of the function header, after [^to\s+]. *)
Definition tail_header : re :=
  seqs [Group 1 word; ws0; Group 2 any0; c_colon; ws0; Eol].

(** * Properties *)

(** ** The matcher *)

Section Soundness.
Variable A : Type.

Lemma exec_sound : forall (r : re) p s cs (k : cont A) res,
  exec r p s cs k = Some res ->
  exists p' s' cs', Matches r p s cs p' s' cs' /\ k p' s' cs' = Some res.
Proof.
  induction r as [c|P|a IHa b IHb|a IHa b IHb|a IHa|i a IHa| | | |];
    intros p s cs k res H; cbn [exec] in H.
  - destruct s as [|x t]; [discriminate|].
    destruct (x =? c) eqn:E; [|discriminate].
    apply N.eqb_eq in E; subst x.
    do 3 eexists; split; [constructor|exact H].
  - destruct s as [|x t]; [discriminate|].
    destruct (P x) eqn:E; [|discriminate].
    do 3 eexists; split; [constructor; exact E|exact H].
  - apply IHa in H. destruct H as (p1 & s1 & cs1 & Ha & H).
    apply IHb in H. destruct H as (p2 & s2 & cs2 & Hb & H).
    do 3 eexists; split; [econstructor; eassumption|exact H].
  - destruct (exec a p s cs k) eqn:E.
    + injection H as <-. apply IHa in E.
      destruct E as (p1 & s1 & cs1 & Ha & E).
      do 3 eexists; split; [apply M_alt_l; eassumption|exact E].
    + apply IHb in H. destruct H as (p1 & s1 & cs1 & Hb & H).
      do 3 eexists; split; [apply M_alt_r; eassumption|exact H].
  - remember (length s) as n eqn:Hn. clear Hn.
    revert p s cs H.
    induction n as [|n IHn]; intros p s cs H.
    + do 3 eexists; split; [apply M_star_stop|exact H].
    + match type of H with
      | match ?e with _ => _ end = _ => destruct e eqn:E
      end.
      * injection H as <-. apply IHa in E.
        destruct E as (p1 & s1 & cs1 & Ha & E).
        destruct (length s1 <? length s)%nat; [|discriminate].
        apply IHn in E. destruct E as (p2 & s2 & cs2 & Hs & E).
        do 3 eexists; split; [eapply M_star_more; eassumption|exact E].
      * do 3 eexists; split; [apply M_star_stop|exact H].
  - apply IHa in H. destruct H as (p1 & s1 & cs1 & Ha & H).
    do 3 eexists; split; [apply M_group; eassumption|exact H].
  - destruct p; [discriminate|].
    do 3 eexists; split; [constructor|exact H].
  - destruct s; [|discriminate].
    do 3 eexists; split; [constructor|exact H].
  - destruct (xorb (word_opt p) (word_opt (hd_error s))) eqn:E;
      [|discriminate].
    do 3 eexists; split; [constructor; exact E|exact H].
  - do 3 eexists; split; [constructor|exact H].
Qed.
End Soundness.

Lemma match_here_sound r p s f :
  match_here r p s = Some f ->
  Matches r p s [] (f_prev f) (f_rest f) (f_caps f).
Proof.
  unfold match_here. intro H. apply exec_sound in H.
  destruct H as (p' & s' & cs' & HM & H). injection H as <-. exact HM.
Qed.

Lemma last_opt_app p a b : last_opt p (a ++ b) = last_opt (last_opt p a) b.
Proof. unfold last_opt. apply fold_left_app. Qed.

(** A match reads a prefix of the input, and ends after its last
    character. *)
Lemma Matches_reads r p s cs p' s' cs' :
  Matches r p s cs p' s' cs' -> exists w, s = w ++ s' /\ p' = last_opt p w.
Proof.
  induction 1 as [ | | ? ? ? ? ? ? ? ? ? ? ? _ IH1 _ IH2 | | | |
                   ? ? ? ? ? ? ? ? ? ? _ IH1 _ IH2 | | | | | ];
    try (now exists []); try (now eexists [_]); try assumption.
  - destruct IH1 as (w1 & -> & ->). destruct IH2 as (w2 & -> & ->).
    exists (w1 ++ w2). split; [apply app_assoc|]. symmetry.
    apply last_opt_app.
  - destruct IH1 as (w1 & -> & ->). destruct IH2 as (w2 & -> & ->).
    exists (w1 ++ w2). split; [apply app_assoc|]. symmetry.
    apply last_opt_app.
Qed.

(** Groups once set stay set, and the groups of [defines] are set. *)
Lemma Matches_keeps r p s cs p' s' cs' :
  Matches r p s cs p' s' cs' ->
  forall i, grp i cs <> None -> grp i cs' <> None.
Proof.
  induction 1; intros j Hj; auto.
  cbn [grp]. destruct (Nat.eqb j i); [discriminate|auto].
Qed.

Lemma Matches_defines r p s cs p' s' cs' :
  Matches r p s cs p' s' cs' ->
  forall i, defines r i = true -> grp i cs' <> None.
Proof.
  induction 1; intros j Hj; cbn [defines] in Hj; try discriminate.
  - apply orb_true_iff in Hj. destruct Hj as [Hj|Hj].
    + eapply Matches_keeps; eauto.
    + auto.
  - apply andb_true_iff in Hj. destruct Hj; auto.
  - apply andb_true_iff in Hj. destruct Hj; auto.
  - cbn [grp]. destruct (Nat.eqb j i) eqn:E; [discriminate|].
    simpl in Hj. auto.
Qed.

Lemma search_sound r : forall s pre m,
  search r (last_opt None pre) s = Some m ->
  exists pre' s0 p' s',
    pre ++ s = pre' ++ s0
    /\ Matches r (last_opt None pre') s0 [] p' s' m.
Proof.
  induction s as [|c t IH]; intros pre m H; cbn [search] in H.
  - destruct (match_here r (last_opt None pre) []) as [f|] eqn:E;
      [|discriminate].
    injection H as <-. apply match_here_sound in E. eauto 6.
  - destruct (match_here r (last_opt None pre) (c :: t)) as [f|] eqn:E.
    + injection H as <-. apply match_here_sound in E. eauto 6.
    + specialize (IH (pre ++ [c]) m).
      rewrite last_opt_app in IH. cbn [last_opt fold_left] in IH.
      destruct (IH H) as (pre' & s0 & p' & s' & Hs & HM).
      rewrite <- app_assoc in Hs. eauto 6.
Qed.

Lemma re_match_sound r s m :
  re_match r s = Some m ->
  exists pre s0 p' s',
    s = pre ++ s0 /\ Matches r (last_opt None pre) s0 [] p' s' m.
Proof. intro H. apply (@search_sound r s [] m H). Qed.

Lemma re_match_defines r s m i :
  re_match r s = Some m -> defines r i = true ->
  exists v, grp i m = Some v.
Proof.
  intros H Hd. apply re_match_sound in H.
  destruct H as (pre & s0 & p' & s' & _ & HM).
  pose proof (Matches_defines HM i Hd) as Hn.
  destruct (grp i m) as [v|]; [eauto|congruence].
Qed.

(** ** Counting delimiters *)

Lemma count_char_app c a b :
  count_char c (a ++ b) = (count_char c a + count_char c b)%nat.
Proof.
  induction a as [|x a IH]; simpl; [reflexivity|].
  destruct (x =? c); simpl; now rewrite IH.
Qed.

Lemma count_go_chr c : forall s fuel p,
  (length s < fuel)%nat -> count_go fuel (Chr c) p s = count_char c s.
Proof.
  induction s as [|x t IH]; intros fuel p Hf.
  - destruct fuel; [simpl in Hf; lia | reflexivity].
  - destruct fuel as [|fuel]; [simpl in Hf; lia|].
    simpl in Hf. cbn [count_go match_here exec count_char].
    destruct (x =? c).
    + cbn [f_rest f_prev].
      assert (Hlt : (length t <? length (x :: t))%nat = true)
        by (apply Nat.ltb_lt; simpl; lia).
      rewrite Hlt. f_equal. apply IH. lia.
    + apply IH. lia.
Qed.

Lemma count_matches_chr c s : count_matches (Chr c) s = count_char c s.
Proof. unfold count_matches. apply count_go_chr. lia. Qed.

Local Open Scope Z_scope.

Lemma brace_delta_depth l : brace_delta l = depth_of l.
Proof.
  unfold brace_delta, depth_of, re_open, re_close.
  now rewrite !count_matches_chr.
Qed.

Lemma depth_of_app a b : depth_of (a ++ b) = depth_of a + depth_of b.
Proof. unfold depth_of. rewrite !count_char_app. lia. Qed.

Lemma total_depth_app a b :
  total_depth (a ++ b) = total_depth a + total_depth b.
Proof. induction a as [|x a IH]; simpl; lia. Qed.

Lemma total_depth_repeat_closer n :
  total_depth (repeat closer n) = - Z.of_nat n.
Proof.
  induction n as [|n IH]; [reflexivity|].
  cbn [repeat total_depth]. rewrite IH.
  change (depth_of closer) with (-1). lia.
Qed.

Lemma depth_of_join_nl parts : depth_of (join nl parts) = total_depth parts.
Proof.
  induction parts as [|x rest IH]; [reflexivity|].
  destruct rest as [|y rest].
  - simpl. lia.
  - change (join nl (x :: y :: rest)) with (x ++ nl ++ join nl (y :: rest)).
    rewrite !depth_of_app, IH. cbn [total_depth].
    change (depth_of nl) with 0. lia.
Qed.

(** ** The reconciler *)

Lemma scan_depth_spec : forall lines depth out,
  scan_depth depth out lines = (depth + total_depth lines, out ++ lines).
Proof.
  induction lines as [|l rest IH]; intros depth out; cbn [scan_depth].
  - cbn [total_depth]. now rewrite Z.add_0_r, app_nil_r.
  - rewrite IH, brace_delta_depth. cbn [total_depth].
    rewrite <- app_assoc. f_equal. lia.
Qed.

Lemma close_loop_spec : forall fuel depth out,
  fuel = Z.to_nat depth ->
  close_loop fuel depth out = out ++ repeat closer (Z.to_nat (Z.max 0 depth)).
Proof.
  induction fuel as [|fuel IH]; intros depth out Hf.
  - assert (depth <= 0) by lia.
    unfold close_loop. destruct (depth >? 0) eqn:E; [lia|].
    replace (Z.to_nat (Z.max 0 depth)) with O by lia.
    now rewrite app_nil_r.
  - cbn [close_loop]. destruct (depth >? 0) eqn:E; [|lia].
    rewrite IH by lia.
    replace (Z.to_nat (Z.max 0 depth))
      with (S (Z.to_nat (Z.max 0 (depth - 1)))) by lia.
    cbn [repeat]. now rewrite <- app_assoc.
Qed.

Lemma closeBlocks_spec lines :
  closeBlocks lines
  = lines ++ repeat closer (Z.to_nat (Z.max 0 (total_depth lines))).
Proof.
  unfold closeBlocks. rewrite scan_depth_spec. cbn [app].
  rewrite Z.add_0_l. now apply close_loop_spec.
Qed.

Lemma total_depth_closeBlocks lines :
  total_depth (closeBlocks lines) = Z.min 0 (total_depth lines).
Proof.
  rewrite closeBlocks_spec, total_depth_app, total_depth_repeat_closer. lia.
Qed.

(** C10: [closeBlocks] returns its input followed by [max(0, d)] closing
    lines, where [d] is the sum over the lines of the count of opening minus
    the count of closing delimiters; when [d] is negative nothing is
    appended and the net depth of the result is still negative. *)
Theorem closeBlocks_append_only : forall lines : list str,
  closeBlocks lines
  = lines ++ repeat (u "    }") (Z.to_nat (Z.max 0 (total_depth lines)))
  /\ (total_depth lines < 0 ->
      closeBlocks lines = lines /\ total_depth (closeBlocks lines) < 0).
Proof.
  intro lines. split; [apply closeBlocks_spec|].
  intro Hneg. split.
  - rewrite closeBlocks_spec.
    replace (Z.to_nat (Z.max 0 (total_depth lines))) with O by lia.
    apply app_nil_r.
  - rewrite total_depth_closeBlocks. lia.
Qed.

Lemma closeBlocks_append_only_witness :
  closeBlocks [u "    }"] = [u "    }"]
  /\ total_depth (closeBlocks [u "    }"]) < 0.
Proof.
  apply (proj2 (closeBlocks_append_only [u "    }"])). reflexivity.
Defined.

Local Close Scope Z_scope.

(** ** The dispatch loop never raises *)

Ltac have_group :=
  match goal with
  | H : re_match ?r _ = Some ?m |- context [need (grp ?i ?m)] =>
      let v := fresh "v" in
      let Hv := fresh "Hv" in
      destruct (@re_match_defines r _ m i H eq_refl) as [v Hv];
      rewrite Hv; cbn [need bind]
  end.

Ltac cascade :=
  repeat first
    [ progress unfold expr_of, cond_of
    | have_group
    | match goal with
      | |- exists _, Ok _ = Ok _ => eexists; reflexivity
      | |- exists _, match re_match ?r ?l with _ => _ end = _ =>
          destruct (re_match r l) eqn:?
      | |- exists _, match (match re_match ?r ?l with _ => _ end)
                     with _ => _ end = _ =>
          destruct (re_match r l) eqn:?
      | |- exists _, match (if ?g then _ else _) with _ => _ end = _ =>
          destruct g eqn:?
      | |- exists _, (if ?g then _ else _) = _ => destruct g eqn:?
      end ].

Lemma statement_total tgt line st :
  exists st', statement tgt line st = Ok st'.
Proof. unfold statement, assignment, other_statement. cascade. Qed.

Lemma translate_line_total st raw :
  exists st', translate_line st raw = Ok st'.
Proof.
  unfold translate_line. cbv zeta.
  destruct (_ || _ || _); [eexists; reflexivity|].
  cascade; apply statement_total.
Qed.

Lemma translate_lines_total : forall rawLines st,
  exists st', translate_lines st rawLines = Ok st'.
Proof.
  induction rawLines as [|raw rest IH]; intro st; cbn [translate_lines].
  - eexists; reflexivity.
  - destruct (translate_line_total st raw) as [st1 ->]. cbn [bind]. apply IH.
Qed.

(** The assembly raises exactly when a list it spreads is too long. *)
Lemma assemble_fits max_args st :
  assemble max_args st
  = if fits max_args st then Ok (assembled st) else Throw.
Proof.
  unfold assemble, fits, assembled, push_spread. cbv zeta.
  generalize (closeBlocks (bodyLines st)) as body.
  generalize (closeBlocks (declarations st)) as decl.
  generalize (structs st) as strs. intros strs decl body.
  assert (Hnil : forall n, (@length str [] <=? n)%nat = true)
    by reflexivity.
  destruct strs as [|s0 ss]; destruct decl as [|d0 ds];
    rewrite ?Hnil; cbn [andb bind];
    repeat match goal with
           | |- context [(?a <=? ?b)%nat] =>
               destruct (a <=? b)%nat; cbn [andb bind]
           end;
    try reflexivity;
    repeat (rewrite <- ?app_assoc; cbn [app]); reflexivity.
Qed.

(** The loop never raises; the translator raises only where the assembly
    does. *)
Lemma translateFlowToCpp_loop max_args flowCode :
  exists st, translate_lines init_state (split_lines flowCode) = Ok st
             /\ translateFlowToCpp max_args flowCode
                = assemble max_args (finish st).
Proof.
  unfold translateFlowToCpp.
  destruct (translate_lines_total (split_lines flowCode) init_state)
    as [st ->].
  exists st. split; reflexivity.
Qed.

Lemma translateFlowToCpp_Ok max_args flowCode out :
  translateFlowToCpp max_args flowCode = Ok out ->
  exists st, translate_lines init_state (split_lines flowCode) = Ok st
             /\ fits max_args (finish st) = true
             /\ out = assembled (finish st).
Proof.
  intro H.
  destruct (translateFlowToCpp_loop max_args flowCode) as (st & Hst & E).
  rewrite E, assemble_fits in H. exists st.
  destruct (fits max_args (finish st)); [|discriminate].
  injection H as <-. auto.
Qed.

(** ** The include set *)

Lemma str_eqb_eq : forall a b, str_eqb a b = true <-> a = b.
Proof.
  induction a as [|x a IH]; destruct b as [|y b]; cbn [str_eqb];
    try (split; [discriminate|discriminate]); [tauto|].
  rewrite andb_true_iff, N.eqb_eq, IH. split.
  - intros [-> ->]. reflexivity.
  - intro H. injection H as -> ->. tauto.
Qed.

Lemma includes_str_In l w : includes_str l w = true <-> In w l.
Proof.
  unfold includes_str. rewrite existsb_exists. split.
  - intros (x & Hx & E). apply str_eqb_eq in E. now subst.
  - intro H. exists w. split; [exact H|]. now apply str_eqb_eq.
Qed.

Lemma set_add_grows x l : exists extra, set_add x l = l ++ extra.
Proof.
  unfold set_add. destruct (includes_str l x).
  - exists []. now rewrite app_nil_r.
  - now exists [x].
Qed.

Lemma set_add_NoDup x l : NoDup l -> NoDup (set_add x l).
Proof.
  intro H. unfold set_add. destruct (includes_str l x) eqn:E; [exact H|].
  apply NoDup_app; [exact H|repeat constructor; intros []|].
  intros y Hy [<-|[]].
  apply includes_str_In in Hy. congruence.
Qed.

Lemma set_add_Forall (P : str -> Prop) x l :
  P x -> Forall P l -> Forall P (set_add x l).
Proof.
  intros Hx Hl. unfold set_add. destruct (includes_str l x); [exact Hl|].
  apply Forall_app. split; [exact Hl|]. now constructor.
Qed.

Lemma includes_push_target tgt l st :
  includes (push_target tgt l st) = includes st.
Proof. now destruct tgt. Qed.

(** What one line may do to the include set. *)
Lemma statement_includes tgt line st st' :
  statement tgt line st = Ok st' ->
  includes st' = includes st
  \/ includes st'
     = set_add (u "#include <chrono>")
         (set_add (u "#include <thread>") (includes st))
  \/ includes st' = set_add (u "#include <fstream>") (includes st)
  \/ includes st' = set_add (u "#include <random>") (includes st).
Proof.
  unfold statement, assignment, other_statement.
  repeat first
    [ progress unfold expr_of, cond_of
    | match goal with
      | |- Throw = Ok _ -> _ => discriminate
      | |- Ok _ = Ok _ -> _ =>
          let H := fresh in
          intro H; injection H as <-;
          rewrite ?includes_push_target; cbn; tauto
      | |- match re_match ?r ?l with _ => _ end = _ -> _ =>
          destruct (re_match r l)
      | |- match (match re_match ?r ?l with _ => _ end)
             with _ => _ end = _ -> _ =>
          destruct (re_match r l)
      | |- match (if ?g then _ else _) with _ => _ end = _ -> _ =>
          destruct g
      | |- (if ?g then _ else _) = _ -> _ => destruct g
      | |- bind _ _ = _ -> _ =>
          match goal with
          | |- context [need ?v] => destruct v; cbn [need bind]
          end
      end ].
Qed.

Lemma includes_dedent indent line st :
  includes (dedent indent line st) = includes st.
Proof. unfold dedent. now destruct (_ && _ && _ && _). Qed.

Lemma includes_struct_dedent indent st :
  includes (struct_dedent indent st) = includes st.
Proof. unfold struct_dedent. now destruct (Nat.eqb indent 0). Qed.

Lemma translate_line_includes st raw st' :
  translate_line st raw = Ok st' ->
  includes st' = includes st
  \/ includes st'
     = set_add (u "#include <chrono>")
         (set_add (u "#include <thread>") (includes st))
  \/ includes st' = set_add (u "#include <fstream>") (includes st)
  \/ includes st' = set_add (u "#include <random>") (includes st).
Proof.
  unfold translate_line. cbv zeta.
  destruct (_ || _ || _); [intro H; injection H as <-; tauto|].
  destruct (re_match re_to_start _); [intro H; injection H as <-; tauto|].
  destruct (re_match re_to _).
  { destruct (grp 2 c); cbn [need bind]; [|discriminate].
    intro H; injection H as <-; tauto. }
  destruct (re_match re_struct _).
  { intro H; injection H as <-. cbn [includes set_struct push_struct].
    rewrite includes_dedent. tauto. }
  destruct (inStruct _).
  - destruct (re_match re_field _).
    { intro H; injection H as <-. cbn [includes push_struct].
      rewrite includes_dedent. tauto. }
    intro H. apply statement_includes in H.
    now rewrite includes_struct_dedent, includes_dedent in H.
  - intro H. apply statement_includes in H.
    now rewrite includes_dedent in H.
Qed.


Lemma include_step_refl l : include_step l l.
Proof.
  repeat split; auto. exists []. now rewrite app_nil_r.
Qed.

Lemma include_step_trans a b c :
  include_step a b -> include_step b c -> include_step a c.
Proof.
  intros ([e1 ->] & N1 & F1) ([e2 ->] & N2 & F2). repeat split; auto.
  exists (e1 ++ e2). now rewrite app_assoc.
Qed.

Lemma include_step_add x l :
  depth_of x = 0%Z -> include_step l (set_add x l).
Proof.
  intro Hx. repeat split.
  - apply set_add_grows.
  - apply set_add_NoDup.
  - now apply set_add_Forall.
Qed.

Lemma translate_line_include_step st raw st' :
  translate_line st raw = Ok st' -> include_step (includes st) (includes st').
Proof.
  intro H. apply translate_line_includes in H.
  destruct H as [-> | [-> | [-> | ->]]].
  - apply include_step_refl.
  - eapply include_step_trans; apply include_step_add; reflexivity.
  - apply include_step_add; reflexivity.
  - apply include_step_add; reflexivity.
Qed.

Lemma translate_lines_include_step : forall rawLines st st',
  translate_lines st rawLines = Ok st' ->
  include_step (includes st) (includes st').
Proof.
  induction rawLines as [|raw rest IH]; intros st st' H;
    cbn [translate_lines] in H.
  - injection H as <-. apply include_step_refl.
  - destruct (translate_line st raw) as [st1|] eqn:E; [|discriminate].
    cbn [bind] in H. eapply include_step_trans.
    + eapply translate_line_include_step; eassumption.
    + eapply IH; eassumption.
Qed.

Lemma includes_finish st : includes (finish st) = includes st.
Proof.
  unfold finish. destruct (inFunction st); destruct (inStruct _); reflexivity.
Qed.

Lemma includes_of_translation flowCode st :
  translate_lines init_state (split_lines flowCode) = Ok st ->
  NoDup (includes (finish st))
  /\ (exists extra, includes (finish st) = init_includes ++ extra)
  /\ total_depth (includes (finish st)) = 0%Z.
Proof.
  intro H. apply translate_lines_include_step in H.
  destruct H as (Hg & Hn & Hf). rewrite includes_finish.
  split; [|split].
  - apply Hn. cbn [includes init_state].
    unfold init_includes.
    repeat (constructor;
            [cbn [In]; intros H;
             repeat (destruct H as [H|H]; [discriminate H|]); exact H|]).
    constructor.
  - exact Hg.
  - assert (F : Forall (fun x => depth_of x = 0%Z) (includes st)).
    { apply Hf. cbn [includes init_state]. unfold init_includes.
      repeat constructor. }
    clear -F. induction F as [|x l Hx _ IH]; [reflexivity|].
    cbn [total_depth]. rewrite Hx, IH. reflexivity.
Qed.

(** ** The assembly *)

Lemma fits_le n m st :
  (n <= m)%nat -> fits n st = true -> fits m st = true.
Proof.
  unfold fits. rewrite !andb_true_iff, !Nat.leb_le. lia.
Qed.

Lemma translateFlowToCpp_of_state max_args flowCode st :
  translate_lines init_state (split_lines flowCode) = Ok st ->
  fits max_args (finish st) = true ->
  translateFlowToCpp max_args flowCode = Ok (assembled (finish st)).
Proof.
  intros Hst Hf. unfold translateFlowToCpp. rewrite Hst. cbn [bind].
  rewrite assemble_fits, Hf. reflexivity.
Qed.

(** The first of the driver's examples, translated. *)
Example golden_ratio_program : forall max_args : nat,
  (3 <= max_args)%nat ->
  translateFlowToCpp max_args (nth 0 FLOW_IDEAS [])
  = Ok (join nl
          (init_includes
           ++ [[]; u "// " ++ [966%N] ++ u " = 1.618033988749895"; [];
               u "int main() {";
               u "    const double phi = 1.618033988749895;";
               u "    std::cout << " ++ dq ++ u "The golden ratio: " ++ dq
               ++ u " << std::endl;";
               u "    std::cout << phi << std::endl;";
               u "    return 0;";
               u "}"])).
Proof.
  intros max_args H.
  destruct (translate_lines init_state (split_lines (nth 0 FLOW_IDEAS [])))
    as [st|] eqn:Hst; [|vm_compute in Hst; discriminate].
  rewrite (translateFlowToCpp_of_state max_args _ Hst).
  - vm_compute in Hst. injection Hst as <-. vm_compute. reflexivity.
  - apply fits_le with (n := 3%nat); [exact H|].
    vm_compute in Hst. injection Hst as <-. vm_compute. reflexivity.
Qed.

(** C8 on the second of the driver's examples: the binding
    [result is fibonacci 10], a statement at indentation zero that follows
    the body of [fibonacci], is written among the function declarations,
    after the line that closes [fibonacci] and before the delimiter that
    [closeBlocks] appends for the [if] left open; it stands before
    [int main() {], which wraps the [say] line only. *)
Theorem top_level_binding_precedes_main : forall max_args : nat,
  (7 <= max_args)%nat ->
  translateFlowToCpp max_args
    (join nl [u "to fibonacci n:";
              u "    if n <= 1:";
              u "        return n";
              u "    return fibonacci n - 1 and n - 2";
              u "result is fibonacci 10";
              u "say result"])
  = Ok (join nl
          (init_includes
           ++ [[]; u "// " ++ [966%N] ++ u " = 1.618033988749895"; [];
               u "auto fibonacci(auto n) {";
               u "    if (n <= 1) {";
               u "    return n;";
               u "    return fibonacci n - 1 && n - 2;";
               u "}" ++ nl;
               u "    const auto result = fibonacci 10;";
               u "    }";
               u "int main() {";
               u "    std::cout << result << std::endl;";
               u "    return 0;";
               u "}"]))
  /\ nth_error FLOW_IDEAS 1
     = Some (join nl [u "to fibonacci n:";
                      u "    if n <= 1:";
                      u "        return n";
                      u "    return fibonacci n - 1 and n - 2";
                      u "result is fibonacci 10";
                      u "say result"]).
Proof.
  intros max_args H. split; [|reflexivity].
  set (flowCode := join nl _).
  destruct (translate_lines init_state (split_lines flowCode))
    as [st|] eqn:Hst; [|vm_compute in Hst; discriminate].
  rewrite (translateFlowToCpp_of_state max_args _ Hst).
  - vm_compute in Hst. injection Hst as <-. vm_compute. reflexivity.
  - apply fits_le with (n := 7%nat); [exact H|].
    vm_compute in Hst. injection Hst as <-. vm_compute. reflexivity.
Qed.

Lemma top_level_binding_precedes_main_witness :
  (7 <= 1000)%nat
  /\ exists out : str,
       translateFlowToCpp 1000 (nth 1 FLOW_IDEAS []) = Ok out
       /\ count_matches
            (Lit (u "    const auto result = fibonacci 10;" ++ nl
                  ++ u "    }" ++ nl ++ u "int main() {")) out = 1%nat.
Proof.
  split; [lia|].
  eexists. split.
  - exact (proj1 (top_level_binding_precedes_main (max_args := 1000)
                    ltac:(lia))).
  - vm_compute. reflexivity.
Defined.

(** ** Block-delimiter balance *)

Lemma depth_of_assembled st :
  total_depth (includes st) = 0%Z ->
  depth_of (assembled st)
  = (total_depth (structs st)
     + Z.min 0 (total_depth (declarations st))
     + Z.min 0 (total_depth (bodyLines st)))%Z.
Proof.
  intro Hi. unfold assembled.
  rewrite depth_of_join_nl, !total_depth_app, !total_depth_closeBlocks, Hi.
  change (total_depth [[]; u "// " ++ phi_letter ++ u " = " ++ PHI_text; []])
    with 0%Z.
  change (total_depth [u "int main() {"]) with 1%Z.
  change (total_depth [u "    return 0;"; u "}"]) with (-1)%Z.
  lia.
Qed.

(** C1, as the code has it by design: when the translator returns and the
    struct lines it wrote are balanced, the net depth of the output is what
    [closeBlocks] leaves of the declarations and of the body, which for
    each of the two lists is its net depth when that is negative and zero
    otherwise. *)
Theorem output_depth :
  forall (max_args : nat) (flowCode : str) (st : State) (out : str),
    translate_lines init_state (split_lines flowCode) = Ok st ->
    translateFlowToCpp max_args flowCode = Ok out ->
    total_depth (structs (finish st)) = 0%Z ->
    (Z.of_nat (count_char 123%N out) - Z.of_nat (count_char 125%N out)
     = Z.min 0 (total_depth (declarations (finish st)))
       + Z.min 0 (total_depth (bodyLines (finish st))))%Z.
Proof.
  intros max_args flowCode st out Hst Hout Hs.
  destruct (translateFlowToCpp_Ok _ _ Hout) as (st' & Hst' & _ & ->).
  rewrite Hst in Hst'. injection Hst' as <-.
  destruct (includes_of_translation flowCode Hst) as (_ & _ & Hz).
  change (depth_of (assembled (finish st))
          = (Z.min 0 (total_depth (declarations (finish st)))
             + Z.min 0 (total_depth (bodyLines (finish st))))%Z).
  rewrite (depth_of_assembled _ Hz), Hs. lia.
Qed.

(** A struct with one field, a function that opens a block and a body that
    closes one more than it opens. *)
Lemma output_depth_witness :
  exists (st : State) (out : str),
    let flowCode :=
      join nl [u "a Point has:"; u "    x as number";
               u "to grow n:"; u "    if n > 1:"; u "        return n";
               u "to start:"; u "    say " ++ dq ++ u "}" ++ dq] in
    translate_lines init_state (split_lines flowCode) = Ok st
    /\ translateFlowToCpp 1000 flowCode = Ok out
    /\ total_depth (structs (finish st)) = 0%Z
    /\ total_depth (declarations (finish st)) = 2%Z
    /\ total_depth (bodyLines (finish st)) = (-1)%Z
    /\ (Z.of_nat (count_char 123%N out) - Z.of_nat (count_char 125%N out)
        = Z.min 0 2 + Z.min 0 (-1))%Z.
Proof.
  cbv zeta. set (flowCode := join nl _).
  assert (exists st, translate_lines init_state (split_lines flowCode)
                     = Ok st) as [st Hst]
    by (eexists; vm_compute; reflexivity).
  assert (exists out, translateFlowToCpp 1000 flowCode = Ok out)
    as [out Hout] by (eexists; vm_compute; reflexivity).
  assert (Hs : total_depth (structs (finish st)) = 0%Z).
  { pose proof Hst as E. vm_compute in E. injection E as <-. reflexivity. }
  assert (Hd : total_depth (declarations (finish st)) = 2%Z).
  { pose proof Hst as E. vm_compute in E. injection E as <-. reflexivity. }
  assert (Hb : total_depth (bodyLines (finish st)) = (-1)%Z).
  { pose proof Hst as E. vm_compute in E. injection E as <-. reflexivity. }
  exists st, out. repeat (split; [assumption|]).
  rewrite <- Hd at 1. rewrite <- Hb at 1.
  exact (@output_depth 1000 flowCode st out Hst Hout Hs).
Defined.

(** C1 fails as stated: a closing delimiter inside a string literal of a
    [say] line makes the body close more than it opens, and nothing is
    appended for that. *)
Lemma output_unbalanced :
  exists out : str,
    translateFlowToCpp 1000 (u "say " ++ dq ++ u "}" ++ dq) = Ok out
    /\ count_char 123%N out = 1%nat /\ count_char 125%N out = 2%nat.
Proof. eexists. split; [vm_compute; reflexivity|]. split; reflexivity. Qed.

(** ** Unrecognized lines *)

Lemma among_nil v : among [] v = false.
Proof. now destruct v. Qed.

Ltac split_andb :=
  repeat match goal with
         | H : _ && _ = true |- _ =>
             apply andb_true_iff in H; destruct H
         end.

Ltac no_rule :=
  repeat match goal with
    | |- match re_match ?r ?l with _ => _ end = _ =>
        let E := fresh "E" in
        destruct (re_match r l) eqn:E;
        [ exfalso;
          match goal with
          | H : negb (fires l r []) = true |- _ =>
              unfold fires in H; rewrite E, among_nil in H; discriminate H
          end
        | ]
    | |- match (match re_match ?r ?l with _ => _ end) with _ => _ end = _ =>
        let E := fresh "E" in
        match goal with
        | H : negb (fires l r ?g) = true |- _ =>
            unfold fires in H;
            destruct (re_match r l) eqn:E;
            [ rewrite negb_involutive in H; rewrite H; cbn [negb] | ]
        end
    | |- (if str_eqb ?l ?w then _ else _) = _ =>
        let E := fresh "E" in
        destruct (str_eqb l w) eqn:E;
        [ exfalso;
          match goal with
          | H : negb (includes_str _ l) = true |- _ =>
              cbn [includes_str map existsb whole_line_rules] in H;
              rewrite E in H; rewrite ?orb_true_r in H; discriminate H
          end
        | ]
    end.

Lemma statement_fallback tgt line st in_struct :
  unrecognized in_struct line = true ->
  statement tgt line st = Ok (push_target tgt (comment_line line) st).
Proof.
  unfold unrecognized. intro H.
  cbn [forallb plain_rules guarded_rules fst snd] in H.
  split_andb. unfold statement, assignment, other_statement. no_rule.
  all: reflexivity.
Qed.

Lemma translate_line_fallback st raw :
  let indent := (length raw - length (trimStart raw))%nat in
  let line := trim raw in
  skipped line = false ->
  unrecognized (inStruct (dedent indent line st)) line = true ->
  translate_line st raw
  = Ok (push_target (inFunction st) (comment_line line)
          (closings indent line st)).
Proof.
  intros indent line Hs Hu. unfold translate_line. cbv zeta.
  fold indent line. unfold skipped in Hs. rewrite Hs.
  pose proof Hu as H. unfold unrecognized in H.
  cbn [forallb plain_rules guarded_rules fst snd] in H.
  apply andb_true_iff in H. destruct H as [H Hf].
  apply andb_true_iff in H. destruct H as [H _].
  apply andb_true_iff in H. destruct H as [H _].
  split_andb. no_rule. unfold closings. cbv zeta.
  destruct (inStruct (dedent indent line st)) eqn:Ei.
  - cbn [andb] in Hf. no_rule.
    now apply statement_fallback with (in_struct := true).
  - now apply statement_fallback with (in_struct := false).
Qed.

Lemma split_lines_acc_app : forall w acc rest,
  no_line_feed w = true ->
  split_lines_acc acc (w ++ rest) = split_lines_acc (rev w ++ acc) rest.
Proof.
  induction w as [|c w IH]; intros acc rest H; [reflexivity|].
  cbn [no_line_feed forallb] in H. apply andb_true_iff in H.
  destruct H as [Hc Hw]. apply negb_true_iff in Hc.
  cbn [app split_lines_acc]. rewrite Hc, IH by exact Hw.
  cbn [rev]. now rewrite <- app_assoc.
Qed.

(** Splitting at the line feeds undoes joining with them. *)
Lemma split_lines_join : forall ls : list str,
  forallb no_line_feed ls = true -> ls <> [] ->
  split_lines (join nl ls) = ls.
Proof.
  unfold split_lines.
  induction ls as [|l rest IH]; intros H Hn; [congruence|].
  cbn [forallb] in H. apply andb_true_iff in H. destruct H as [Hl Hr].
  destruct rest as [|l' rest'].
  - cbn [join]. rewrite <- (app_nil_r l) at 1.
    rewrite split_lines_acc_app by exact Hl.
    cbn [split_lines_acc]. now rewrite app_nil_r, rev_involutive.
  - change (join nl (l :: l' :: rest'))
      with (l ++ nl ++ join nl (l' :: rest')).
    rewrite split_lines_acc_app by exact Hl.
    cbn [nl app split_lines_acc]. change (10 =? 10) with true. cbv iota.
    rewrite app_nil_r, rev_involutive. f_equal.
    apply IH; [exact Hr|discriminate].
Qed.

(** A run of unrecognized lines outside functions and structs adds one
    comment line each to the body. *)
Lemma fallback_run : forall (n : nat) (st : State),
  inFunction st = false -> inStruct st = false ->
  exists st', translate_lines st (repeat (u "?") n) = Ok st'
              /\ inFunction st' = false /\ inStruct st' = false
              /\ length (bodyLines st') = (length (bodyLines st) + n)%nat.
Proof.
  induction n as [|n IH]; intros st Hf Hs; cbn [repeat translate_lines].
  - exists st. rewrite Nat.add_0_r. auto.
  - assert (Hd : dedent 0 (u "?") st = st)
      by (unfold dedent; rewrite Hf; reflexivity).
    assert (E : translate_line st (u "?")
                = Ok (push_body (comment_line (u "?")) st)).
    { rewrite (translate_line_fallback st (u "?")).
      - change (length (u "?") - length (trimStart (u "?")))%nat with 0%nat.
        change (trim (u "?")) with (u "?").
        unfold closings. cbv zeta. rewrite Hd, Hs, Hf. reflexivity.
      - reflexivity.
      - change (length (u "?") - length (trimStart (u "?")))%nat with 0%nat.
        change (trim (u "?")) with (u "?"). rewrite Hd, Hs.
        vm_compute. reflexivity. }
    rewrite E. cbn [bind].
    destruct (IH (push_body (comment_line (u "?")) st) Hf Hs)
      as (st' & -> & Hf' & Hs' & Hl).
    exists st'. repeat (split; [assumption || reflexivity|]).
    rewrite Hl. destruct st. cbn [push_body bodyLines].
    rewrite length_app. cbn [length]. lia.
Qed.

(** C2, what holds and where it fails: a non-blank, non-comment line that
    no rule matches adds the comment line made of its trimmed text to the
    list chosen at the top of the loop body.  But the line [{] is such a
    line, and [closeBlocks] counts the delimiter inside its comment and
    appends a closing line that no line of the input asked for, so the
    comment is not inert; and a text of more unrecognized lines than the
    engine takes arguments in a call makes the translator raise. *)
Theorem fallback_comment_is_counted : forall max_args : nat,
  (2 <= max_args)%nat ->
  (forall (st : State) (raw : str),
      skipped (trim raw) = false ->
      unrecognized
        (inStruct (dedent (length raw - length (trimStart raw)) (trim raw)
                     st)) (trim raw) = true ->
      translate_line st raw
      = Ok (push_target (inFunction st) (u "    // [flow] " ++ trim raw)
              (closings (length raw - length (trimStart raw)) (trim raw)
                 st)))
  /\ unrecognized false (u "{") = true
  /\ translateFlowToCpp max_args (u "{")
     = Ok (join nl
             (init_includes
              ++ [[]; u "// " ++ [966%N] ++ u " = 1.618033988749895"; [];
                  u "int main() {";
                  u "    // [flow] {";
                  u "    }";
                  u "    return 0;";
                  u "}"]))
  /\ unrecognized false (u "?") = true
  /\ translateFlowToCpp max_args (join nl (repeat (u "?") (S max_args)))
     = Throw.
Proof.
  intros max_args H.
  split; [intros st raw Hs Hu; apply (translate_line_fallback st raw Hs Hu)|].
  split; [vm_compute; reflexivity|]. split; [|split].
  - destruct (translate_lines init_state (split_lines (u "{")))
      as [st|] eqn:Hst; [|vm_compute in Hst; discriminate].
    rewrite (translateFlowToCpp_of_state max_args _ Hst).
    + vm_compute in Hst. injection Hst as <-. vm_compute. reflexivity.
    + apply fits_le with (n := 2%nat); [exact H|].
      vm_compute in Hst. injection Hst as <-. vm_compute. reflexivity.
  - vm_compute. reflexivity.
  - unfold translateFlowToCpp. rewrite split_lines_join.
    + destruct (@fallback_run (S max_args) init_state eq_refl eq_refl)
        as (st & -> & Hf & Hs & Hl).
      cbn [bind]. unfold finish. rewrite Hf. cbv zeta. rewrite Hs.
      rewrite assemble_fits.
      assert (E : fits max_args st = false); [|now rewrite E].
      unfold fits. rewrite closeBlocks_spec with (lines := bodyLines st).
      rewrite length_app, Hl. cbn [init_state bodyLines length].
      apply andb_false_iff. right. apply Nat.leb_gt. lia.
    + apply forallb_forall. intros x Hx. apply repeat_spec in Hx. now subst.
    + discriminate.
Qed.

Lemma fallback_comment_is_counted_witness :
  (2 <= 1000)%nat
  /\ translateFlowToCpp 1000 (join nl (repeat (u "?") 1001)) = Throw.
Proof.
  split; [lia|].
  exact (proj2 (proj2 (proj2 (proj2
           (fallback_comment_is_counted (max_args := 1000) ltac:(lia)))))).
Defined.

(** ** The history ledger *)

Lemma last500_short {A : Type} (l : list A) :
  (length l <= 500)%nat -> last500 l = l.
Proof.
  intro H. unfold last500.
  replace (length l - 500)%nat with O by lia. reflexivity.
Qed.

Lemma last500_length {A : Type} (l : list A) :
  (length (last500 l) <= 500)%nat.
Proof. unfold last500. rewrite length_skipn. lia. Qed.

Lemma last500_app {A : Type} (a b : list A) :
  last500 (last500 a ++ b) = last500 (a ++ b).
Proof.
  destruct (Nat.le_gt_cases (length a) 500) as [H|H].
  - now rewrite (last500_short a H).
  - unfold last500 at 2. set (k := (length a - 500)%nat).
    assert (Hk : (k <= length a)%nat) by lia.
    assert (E : skipn k a ++ b = skipn k (a ++ b)).
    { rewrite skipn_app. replace (k - length a)%nat with O by lia.
      reflexivity. }
    rewrite E. unfold last500. rewrite skipn_skipn. f_equal.
    rewrite length_skipn, !length_app. subst k. lia.
Qed.

Section LedgerFacts.
Variable Timestamp : Type.
Variable Pulse : Type.
Variable phi_pulse_of : N -> Pulse.

Lemma log_call_stream (g : Ledger Timestamp Pulse) c :
  (length (ideaStream g) <= 500)%nat ->
  ideaStream (fst (log_call phi_pulse_of g c))
  = last500 (ideaStream g ++ [snd (log_call phi_pulse_of g c)]).
Proof.
  intro H. unfold log_call, logIdea. cbn [fst snd ideaStream].
  match goal with
  | |- (if (500 <? length ?l)%nat then _ else _) = _ =>
      destruct (500 <? length l)%nat eqn:E
  end.
  - apply Nat.ltb_lt in E. rewrite length_app in E. cbn [length] in E.
    assert (Hl : length (ideaStream g) = 500%nat) by lia.
    unfold last500. rewrite length_app. cbn [length]. rewrite Hl.
    reflexivity.
  - apply Nat.ltb_ge in E. now rewrite last500_short.
Qed.

Lemma log_calls_stream : forall calls (g : Ledger Timestamp Pulse),
  (length (ideaStream g) <= 500)%nat ->
  ideaStream (fst (log_calls phi_pulse_of g calls))
  = last500 (ideaStream g ++ snd (log_calls phi_pulse_of g calls)).
Proof.
  induction calls as [|c rest IH]; intros g H; cbn [log_calls].
  - cbn [fst snd]. rewrite app_nil_r. now rewrite last500_short.
  - pose proof (log_call_stream g c H) as Hc.
    destruct (log_call phi_pulse_of g c) as [g1 i] eqn:E1. cbn [fst snd] in Hc.
    assert (H1 : (length (ideaStream g1) <= 500)%nat)
      by (rewrite Hc; apply last500_length).
    pose proof (IH g1 H1) as Hr.
    destruct (log_calls phi_pulse_of g1 rest) as [g2 more] eqn:E2.
    cbn [fst snd] in *. rewrite Hr, Hc, last500_app, <- app_assoc.
    reflexivity.
Qed.

(** C6: after any sequence of calls the ledger holds at most 500 entries;
    a call on a ledger of 500 entries removes the oldest one and keeps the
    others, in order, before the new one; and the ledger always holds,
    unchanged and in order, the last 500 of the ideas the calls
    returned. *)
Theorem ledger_is_bounded_fifo :
  (forall calls : list (Call Timestamp),
      (length (ideaStream
                 (fst (log_calls phi_pulse_of (empty_ledger _ _) calls)))
       <= 500)%nat)
  /\ (forall (g : Ledger Timestamp Pulse) (c : Call Timestamp),
        length (ideaStream g) = 500%nat ->
        ideaStream (fst (log_call phi_pulse_of g c))
        = tl (ideaStream g) ++ [snd (log_call phi_pulse_of g c)])
  /\ (forall calls : list (Call Timestamp),
        ideaStream (fst (log_calls phi_pulse_of (empty_ledger _ _) calls))
        = last500 (snd (log_calls phi_pulse_of (empty_ledger _ _) calls))).
Proof.
  split; [|split].
  - intro calls. rewrite log_calls_stream by (cbn; lia).
    apply last500_length.
  - intros g c H. rewrite log_call_stream by lia.
    unfold last500. rewrite length_app. cbn [length]. rewrite H.
    replace (500 + 1 - 500)%nat with 1%nat by lia.
    destruct (ideaStream g) as [|x l]; [discriminate H|reflexivity].
  - intro calls. now rewrite log_calls_stream by (cbn; lia).
Qed.
End LedgerFacts.

Lemma ledger_is_bounded_fifo_witness :
  let calls := repeat (mkCall tt (u "say 1") [] true []) 500 in
  let g := fst (log_calls (fun _ => tt) (empty_ledger unit unit) calls) in
  let c := mkCall tt (u "say 2") [] false [] in
  length (ideaStream g) = 500%nat
  /\ ideaStream (fst (log_call (fun _ => tt) g c))
     = tl (ideaStream g) ++ [snd (log_call (fun _ => tt) g c)].
Proof.
  intros calls g c.
  assert (H : length (ideaStream g) = 500%nat) by (vm_compute; reflexivity).
  split; [exact H|].
  apply (proj1 (proj2 (@ledger_is_bounded_fifo unit unit (fun _ => tt))) g c H).
Defined.

(** ** The compile-and-run harness *)

(** C9, what holds and where it fails: [compileAndRun] always returns a
    record and never raises; when the toolchain is not found the record is
    a failure that says so; when writing the source, compiling or running
    raises, the record is a failure that carries [stderr] when that is a
    [Buffer] or a non-empty string, else [stdout] when that is a [Buffer]
    or a non-empty string, else the message of the error.  An empty
    [Buffer] counts as present: when the compiler fails with an empty
    [stderr], as it does with its [2>&1], the record carries the empty
    text, whatever diagnostics [stdout] holds. *)
Theorem compileAndRun_prefers_stderr : forall (w : World) (cppSource : str),
  exists r : RunResult,
    compileAndRun w cppSource = Returned r
    /\ (forall e, which_gpp w = Raised e ->
        r = {| r_success := false;
               r_output := u "[runtime unavailable: g++ not found]" |})
    /\ (forall x err,
          which_gpp w = Returned x ->
          write_source w cppSource = Raised err
          \/ (write_source w cppSource = Returned tt
              /\ run_compiler w cppSource = Raised err)
          \/ (write_source w cppSource = Returned tt
              /\ run_compiler w cppSource = Returned tt
              /\ run_binary w cppSource = Raised err) ->
          r = {| r_success := false;
                 r_output :=
                   match e_stderr err with
                   | Buffer b => b
                   | Text (c :: s) => c :: s
                   | Text [] | Absent =>
                       match e_stdout err with
                       | Buffer b => b
                       | Text (c :: s) => c :: s
                       | Text [] | Absent => e_message err
                       end
                   end |})
    /\ (forall x err diagnostics,
          which_gpp w = Returned x ->
          write_source w cppSource = Returned tt ->
          run_compiler w cppSource = Raised err ->
          e_stderr err = Buffer [] ->
          e_stdout err = Buffer diagnostics ->
          r = {| r_success := false; r_output := [] |}).
Proof.
  intros w src.
  assert (Hd : forall err,
             diagnostic err
             = match e_stderr err with
               | Buffer b => b
               | Text (c :: s) => c :: s
               | Text [] | Absent =>
                   match e_stdout err with
                   | Buffer b => b
                   | Text (c :: s) => c :: s
                   | Text [] | Absent => e_message err
                   end
               end).
  { intros [[|b|[|c s]] [|b'|[|c' s']] msg]; reflexivity. }
  unfold compileAndRun.
  destruct (which_gpp w) as [x|e].
  - destruct (write_source w src) as [[]|e1] eqn:E1; cbn [and_then try_catch].
    + destruct (run_compiler w src) as [[]|e2] eqn:E2;
        cbn [and_then try_catch].
      * destruct (run_binary w src) as [out|e3] eqn:E3;
          cbn [and_then try_catch].
        -- eexists. split; [reflexivity|]. split; [discriminate|]. split.
           ++ intros y err _ [H|[[_ H]|(_ & _ & H)]]; discriminate H.
           ++ intros y err d _ _ H. discriminate H.
        -- eexists. split; [reflexivity|]. split; [discriminate|]. split.
           ++ intros y err _ [H|[[_ H]|(_ & _ & H)]]; try discriminate H.
              injection H as <-. now rewrite Hd.
           ++ intros y err d _ _ H. discriminate H.
      * eexists. split; [reflexivity|]. split; [discriminate|]. split.
        -- intros y err _ [H|[[_ H]|(_ & H & _)]]; try discriminate H.
           injection H as <-. now rewrite Hd.
        -- intros y err d _ _ H He Ho. injection H as <-.
           now rewrite Hd, He.
    + eexists. split; [reflexivity|]. split; [discriminate|]. split.
      * intros y err _ [H|[[H _]|(H & _)]]; try discriminate H.
        injection H as <-. now rewrite Hd.
      * intros y err d _ H. discriminate H.
  - eexists. split; [reflexivity|]. split; [|split].
    + reflexivity.
    + intros y err H. discriminate H.
    + intros y err d H. discriminate H.
Qed.

(** A source that does not compile: the compiler's report is in [stdout]
    and is not what the record carries. *)
Lemma compileAndRun_prefers_stderr_witness :
  let err := {| e_stderr := Buffer [];
                e_stdout := Buffer (u "error: expected primary-expression");
                e_message := u "Command failed" |} in
  let w := {| which_gpp := Returned tt;
              write_source := fun _ => Returned tt;
              run_compiler := fun _ => Raised err;
              run_binary := fun _ => Returned [] |} in
  compileAndRun w (u "int main( {")
  = Returned {| r_success := false; r_output := [] |}.
Proof.
  intros err w.
  destruct (compileAndRun_prefers_stderr w (u "int main( {"))
    as (r & Hr & _ & _ & Hf).
  rewrite Hr. f_equal.
  apply (Hf tt err (u "error: expected primary-expression"));
    reflexivity.
Defined.

Lemma compileAndRun_returns (w : World) (cppSource : str) :
  exists r, compileAndRun w cppSource = Returned r.
Proof.
  unfold compileAndRun. destruct (which_gpp w); [|eauto].
  destruct (write_source w cppSource); cbn [and_then try_catch]; [|eauto].
  destruct (run_compiler w cppSource); cbn [and_then try_catch]; [|eauto].
  destruct (run_binary w cppSource); cbn [and_then try_catch]; eauto.
Qed.

(** ** The two rewriters *)

(** C5 at the failing input: [translateCond] leaves the words [yes] and
    [no] as they are, where [translateExpr] turns them into [true] and
    [false]; on [is not] the two differ as described. *)
Theorem translateCond_keeps_yes_and_no :
  translateCond (u "ready is yes") = u "ready == yes"
  /\ translateExpr (u "ready is yes") = u "ready == true"
  /\ translateCond (u "x is no") = u "x == no"
  /\ translateExpr (u "x is no") = u "x == false"
  /\ translateCond (u "x is not y") = u "x != y"
  /\ translateExpr (u "x is not y") = u "x == !y"
  /\ translate_line init_state (u "while ready is yes:")
     = Ok (push_body (u "    while (ready == yes) {") init_state).
Proof. repeat split; vm_compute; reflexivity. Qed.

(** ** Running the matcher on a text with unknown parts *)

Section Steps.
Variable A : Type.
Implicit Type k : cont A.

Lemma exec_seq a b p s cs k :
  exec (Seq a b) p s cs k
  = exec a p s cs (fun p' s' cs' => exec b p' s' cs' k).
Proof. reflexivity. Qed.

Lemma exec_group i a p s cs k :
  exec (Group i a) p s cs k
  = exec a p s cs
      (fun p' s' cs' => k p' s' ((i, firstn (length s - length s') s) :: cs')).
Proof. reflexivity. Qed.

Lemma exec_bol s cs k : exec Bol None s cs k = k None s cs.
Proof. reflexivity. Qed.

Lemma exec_eol p cs k : exec Eol p [] cs k = k p [] cs.
Proof. reflexivity. Qed.

Lemma exec_eol_more p x t cs k : exec Eol p (x :: t) cs k = None.
Proof. reflexivity. Qed.

Lemma exec_chr_eq c p t cs k :
  exec (Chr c) p (c :: t) cs k = k (Some c) t cs.
Proof. cbn [exec]. now rewrite N.eqb_refl. Qed.

Lemma exec_chr_neq c x p t cs k :
  x <> c -> exec (Chr c) p (x :: t) cs k = None.
Proof. intro H. cbn [exec]. apply N.eqb_neq in H. now rewrite H. Qed.

Lemma exec_cls_in (P : char -> bool) x p t cs k :
  P x = true -> exec (Cls P) p (x :: t) cs k = k (Some x) t cs.
Proof. intro H. cbn [exec]. now rewrite H. Qed.

Lemma exec_cls_out (P : char -> bool) x p t cs k :
  P x = false -> exec (Cls P) p (x :: t) cs k = None.
Proof. intro H. cbn [exec]. now rewrite H. Qed.

(** The loop of a starred class, one character at a time. *)
Lemma exec_star_cls (P : char -> bool) p s cs k :
  exec (Star (Cls P)) p s cs k
  = match s with
    | x :: t =>
        if P x
        then match exec (Star (Cls P)) (Some x) t cs k with
             | Some res => Some res
             | None => k p s cs
             end
        else k p s cs
    | [] => k p s cs
    end.
Proof.
  destruct s as [|x t]; [reflexivity|].
  cbn [exec length]. destruct (P x); [|reflexivity].
  assert (E : (length t <? S (length t))%nat = true)
    by (apply Nat.ltb_lt; lia).
  rewrite E. reflexivity.
Qed.

(** A starred class before a continuation that refuses the characters of
    the class: the whole run is taken. *)
Lemma exec_star_cls_cut (P : char -> bool) k :
  (forall p x t cs, P x = true -> k p (x :: t) cs = None) ->
  forall w p rest cs,
    forallb P w = true ->
    match rest with [] => True | x :: _ => P x = false end ->
    exec (Star (Cls P)) p (w ++ rest) cs k = k (last_opt p w) rest cs.
Proof.
  intros Hk. induction w as [|x w IH]; intros p rest cs Hw Hr.
  - cbn [app last_opt fold_left]. rewrite exec_star_cls.
    destruct rest as [|y t]; [reflexivity|]. now rewrite Hr.
  - cbn [forallb] in Hw. apply andb_true_iff in Hw. destruct Hw as [Hx Hw].
    cbn [app]. rewrite exec_star_cls, Hx, IH by assumption.
    change (last_opt p (x :: w)) with (last_opt (Some x) w).
    destruct (k (last_opt (Some x) w) rest cs); [reflexivity|].
    now apply Hk.
Qed.

(** A starred class before a continuation that succeeds after the run has
    given back a final part [t]: the longest such match wins. *)
Lemma exec_star_cls_until (P : char -> bool) k t res :
  forall w p cs,
    forallb P w = true ->
    exec (Star (Cls P)) (last_opt p w) t cs k = Some res ->
    exec (Star (Cls P)) p (w ++ t) cs k = Some res.
Proof.
  induction w as [|x w IH]; intros p cs Hw H; [exact H|].
  cbn [forallb] in Hw. apply andb_true_iff in Hw. destruct Hw as [Hx Hw].
  cbn [app]. rewrite exec_star_cls, Hx.
  change (last_opt p (x :: w)) with (last_opt (Some x) w) in H.
  now rewrite (IH (Some x) cs Hw H).
Qed.

Lemma exec_plus_cls (P : char -> bool) p x t cs k :
  P x = true ->
  exec (Plus (Cls P)) p (x :: t) cs k = exec (Star (Cls P)) (Some x) t cs k.
Proof. intro H. unfold Plus. rewrite exec_seq. now rewrite exec_cls_in. Qed.

Lemma exec_plus_cls_cut (P : char -> bool) k :
  (forall p x t cs, P x = true -> k p (x :: t) cs = None) ->
  forall w p rest cs,
    w <> [] -> forallb P w = true ->
    match rest with [] => True | x :: _ => P x = false end ->
    exec (Plus (Cls P)) p (w ++ rest) cs k = k (last_opt p w) rest cs.
Proof.
  intros Hk w p rest cs Hn Hw Hr. destruct w as [|x w]; [congruence|].
  cbn [forallb] in Hw. apply andb_true_iff in Hw. destruct Hw as [Hx Hw].
  cbn [app]. rewrite exec_plus_cls by assumption.
  now rewrite exec_star_cls_cut.
Qed.
End Steps.

(** ** Characters *)

Ltac char_facts :=
  unfold is_word, is_space, is_digit, is_dot, is_line_term in *;
  repeat match goal with
         | H : _ = false |- _ => apply not_true_iff_false in H
         | |- _ = false => apply not_true_iff_false
         end;
  repeat match goal with
         | H : context [_ = true] |- _ =>
             progress rewrite ?negb_true_iff, ?orb_true_iff, ?andb_true_iff,
               ?N.leb_le, ?N.eqb_eq in H
         | H : context [_ = false] |- _ =>
             progress rewrite <- ?not_true_iff_false in H
         end;
  rewrite <- ?not_true_iff_false;
  rewrite ?negb_true_iff, <- ?not_true_iff_false, ?orb_true_iff,
    ?andb_true_iff, ?N.leb_le, ?N.eqb_eq;
  lia.

Lemma word_not_space c : is_word c = true -> is_space c = false.
Proof. intro H. char_facts. Qed.

Lemma digit_is_word c : is_digit c = true -> is_word c = true.
Proof. intro H. char_facts. Qed.

Lemma space_not_word c : is_space c = true -> is_word c = false.
Proof. intro H. char_facts. Qed.

Lemma digit_is_dot c : is_digit c = true -> is_dot c = true.
Proof. intro H. char_facts. Qed.

(** ** Anchored expressions and the assignment prefix *)

Lemma search_after_start r : forall s c, search (Seq Bol r) (Some c) s = None.
Proof.
  induction s as [|x t IH]; intro c; cbn [search]; unfold match_here;
    cbn [exec]; [reflexivity|apply IH].
Qed.

Lemma re_match_anchored r s :
  re_match (Seq Bol r) s
  = match match_here (Seq Bol r) None s with
    | Some f => Some (f_caps f)
    | None => None
    end.
Proof.
  unfold re_match. destruct s as [|x t]; cbn [search];
    destruct (match_here (Seq Bol r) None _); try reflexivity.
  apply search_after_start.
Qed.

Lemma firstn_consumed (w rest : str) :
  firstn (length (w ++ rest) - length rest) (w ++ rest) = w.
Proof.
  rewrite length_app. replace (length w + length rest - length rest)%nat
    with (length w + 0)%nat by lia.
  rewrite firstn_app_2. cbn [firstn]. apply app_nil_r.
Qed.

Section Prefix.
Variable A : Type.
Implicit Type k : cont A.

(** After [x is ], an assignment rule goes on with its tail at the
    right-hand side. *)
Lemma exec_is_then tail x rhs k :
  identifier x -> headed is_space rhs ->
  exec (is_then tail) None (x ++ u " is " ++ rhs) [] k
  = exec tail (Some 32) rhs [(1%nat, x)] k.
Proof.
  intros [Hn Hw] Hr. unfold is_then.
  rewrite exec_seq, exec_bol, exec_seq, exec_group. unfold word.
  rewrite exec_plus_cls_cut; try assumption.
  - rewrite firstn_consumed.
    change (u " is " ++ rhs) with (32 :: 105 :: 115 :: 32 :: rhs).
    rewrite exec_seq. unfold ws1 at 1.
    rewrite exec_plus_cls by reflexivity. rewrite exec_star_cls.
    change (is_space 105) with false. cbv iota.
    rewrite exec_seq. unfold kw.
    change (Lit (u "is")) with (Seq (Chr 105) (Chr 115)).
    rewrite exec_seq, !exec_chr_eq, exec_seq. unfold ws1.
    rewrite exec_plus_cls by reflexivity. rewrite exec_star_cls.
    destruct rhs as [|h t]; [reflexivity|].
    cbn [headed] in Hr. now rewrite Hr.
  - intros p c t cs Hc. rewrite exec_seq. unfold ws1, Plus.
    rewrite exec_seq. apply exec_cls_out. now apply word_not_space.
  - reflexivity.
Qed.
End Prefix.

Lemma re_match_is_then tail x rhs :
  identifier x -> headed is_space rhs ->
  re_match (is_then tail) (x ++ u " is " ++ rhs)
  = match exec tail (Some 32) rhs [(1%nat, x)] k_found with
    | Some f => Some (f_caps f)
    | None => None
    end.
Proof.
  intros Hx Hr. unfold is_then at 1. rewrite re_match_anchored.
  fold (is_then tail). unfold match_here. fold k_found.
  now rewrite exec_is_then.
Qed.

(** ** The last character of a match *)

Lemma Matches_anchored r p s cs p' s' cs' :
  Matches r p s cs p' s' cs' -> anchored_end r = true -> s' = [].
Proof.
  induction 1; cbn [anchored_end]; intro Ha; try discriminate; auto.
  - apply andb_true_iff in Ha. tauto.
  - apply andb_true_iff in Ha. tauto.
Qed.

Lemma Matches_last (Q : char -> Prop) r p s cs p' s' cs' :
  Matches r p s cs p' s' cs' -> last_in Q r ->
  (p' = p /\ may_skip r = true) \/ (exists c, p' = Some c /\ Q c).
Proof.
  induction 1 as [ | | a b p s cs p1 s1 cs1 p2 s2 cs2 _ IH1 _ IH2 | | |
                   | a p s cs p1 s1 cs1 p2 s2 cs2 _ IH1 _ IH2 | | | | | ];
    cbn [last_in may_skip]; intro HQ; eauto.
  - destruct HQ as [Hb Ha]. destruct (IH2 Hb) as [[-> Sb]|R]; [|now right].
    destruct Ha as [Ha|Ha]; [congruence|].
    destruct (IH1 Ha) as [[-> Sa]|R]; [|now right].
    left. now rewrite Sa, Sb.
  - destruct HQ as [Ha _]. destruct (IHMatches Ha) as [[-> S]|R];
      [|now right].
    left. now rewrite S.
  - destruct HQ as [_ Hb]. destruct (IHMatches Hb) as [[-> S]|R];
      [|now right].
    left. rewrite S. now rewrite orb_true_r.
  - destruct (IH2 HQ) as [[-> _]|R]; [|now right].
    destruct (IH1 HQ) as [[-> _]|R]; [|now right].
    now left.
Qed.

(** The last character of a line that an expression anchored at the end
    matches. *)
Lemma re_match_last_char (Q : char -> Prop) r line m :
  re_match r line = Some m ->
  anchored_end r = true -> may_skip r = false -> last_in Q r ->
  exists e, last_opt None line = Some e /\ Q e.
Proof.
  intros H Ha Hs HQ. apply re_match_sound in H.
  destruct H as (pre & s0 & p' & s' & -> & HM).
  pose proof (Matches_anchored HM Ha) as ->.
  destruct (Matches_reads HM) as (w & -> & Hp).
  rewrite app_nil_r, last_opt_app, <- Hp.
  destruct (Matches_last Q HM HQ) as [[_ S]|R]; [congruence|exact R].
Qed.

(** ** Rules that cannot take an assignment line *)

Ltac last_in_tac :=
  repeat match goal with
         | |- _ /\ _ => split
         | |- True => exact I
         | |- false = false \/ _ => left; reflexivity
         | |- true = false \/ _ => right
         | |- forall _, _ => intro
         end.

(** The headers end with a colon, white space apart. *)
Lemma header_last_char r line m :
  In r [re_to_start; re_to; re_struct; re_method; re_if; re_otherwise_if;
        re_for_range; re_for_each; re_repeat; re_while] ->
  re_match r line = Some m ->
  exists e, last_opt None line = Some e /\ (e = 58 \/ is_space e = true).
Proof.
  intros Hr H.
  apply (re_match_last_char (fun e => e = 58 \/ is_space e = true) _ _ H);
    cbn [In] in Hr;
    repeat (destruct Hr as [<-|Hr]; [reflexivity|]); try contradiction.
  cbn [In] in Hr.
  repeat (destruct Hr as [<-|Hr];
          [cbv -[is_space is_word is_digit is_dot]; last_in_tac; auto|]).
  contradiction.
Qed.

(** The literal assignment rules end with a quote, a digit, the last letter
    of [yes] or [no], or a closing bracket. *)
Lemma literal_last_char r line m :
  In r [re_is_dq; re_is_sq; re_is_decimal; re_is_int; re_is_bool;
        re_is_list] ->
  re_match r line = Some m ->
  exists e, last_opt None line = Some e
            /\ (e = 34 \/ e = 39 \/ is_digit e = true \/ e = 115 \/ e = 111
                \/ e = 93).
Proof.
  intros Hr H.
  apply (re_match_last_char
           (fun e => e = 34 \/ e = 39 \/ is_digit e = true \/ e = 115
                     \/ e = 111 \/ e = 93) _ _ H);
    cbn [In] in Hr;
    repeat (destruct Hr as [<-|Hr]; [reflexivity|]); try contradiction.
  cbn [In] in Hr.
  repeat (destruct Hr as [<-|Hr];
          [cbv -[is_space is_word is_digit is_dot]; last_in_tac; tauto|]).
  contradiction.
Qed.

Lemma Matches_Lit : forall K p s cs p' s' cs',
  Matches (Lit K) p s cs p' s' cs' -> s = K ++ s'.
Proof.
  induction K as [|c K IH]; intros p s cs p' s' cs' H.
  - inversion H. reflexivity.
  - destruct K as [|d K].
    + inversion H. reflexivity.
    + change (Lit (c :: d :: K)) with (Seq (Chr c) (Lit (d :: K))) in H.
      inversion H as [ | | ? ? ? ? ? ? ? ? ? ? ? H1 H2 | | | | | | | | | ].
      subst. inversion H1. subst. apply IH in H2. now subst.
Qed.

(** A rule that begins with a keyword and white space takes only lines
    that begin so. *)
Lemma keyword_first K r line m :
  re_match (Seq Bol (Seq (Lit K) (Seq ws1 r))) line = Some m ->
  exists c t, line = K ++ c :: t /\ is_space c = true.
Proof.
  rewrite re_match_anchored.
  destruct (match_here _ None line) as [f|] eqn:E; [|discriminate].
  intros _. apply match_here_sound in E.
  inversion E as [ | | ? ? ? ? ? ? ? ? ? ? ? H1 H2 | | | | | | | | | ]. subst.
  inversion H1. subst.
  inversion H2 as [ | | ? ? ? ? ? ? ? ? ? ? ? H3 H4 | | | | | | | | | ]. subst.
  apply Matches_Lit in H3. subst.
  inversion H4 as [ | | ? ? ? ? ? ? ? ? ? ? ? H5 H6 | | | | | | | | | ]. subst.
  unfold ws1, Plus in H5.
  inversion H5 as [ | | ? ? ? ? ? ? ? ? ? ? ? H7 H8 | | | | | | | | | ]. subst.
  inversion H7. subst. eauto.
Qed.

(** Two texts cut at their first character outside a class agree on what
    lies before the cut. *)
Lemma split_unique (P : char -> bool) : forall a b c d r1 r2,
  forallb P a = true -> forallb P b = true -> P c = false -> P d = false ->
  a ++ c :: r1 = b ++ d :: r2 -> a = b.
Proof.
  induction a as [|x a IH]; intros [|y b] c d r1 r2 Ha Hb Hc Hd E;
    cbn [app forallb] in *.
  - reflexivity.
  - injection E as -> _. apply andb_true_iff in Hb. destruct Hb. congruence.
  - injection E as -> _. apply andb_true_iff in Ha. destruct Ha. congruence.
  - injection E as -> E. apply andb_true_iff in Ha, Hb.
    destruct Ha as [_ Ha]. destruct Hb as [_ Hb].
    f_equal. exact (IH b c d r1 r2 Ha Hb Hc Hd E).
Qed.

Section AssignmentLine.
Variables (x rhs : str).
Hypothesis Hx : identifier x.

Local Abbreviation line := (x ++ u " is " ++ rhs).

Lemma keyword_rule_fails K r :
  forallb is_word K = true -> x <> K ->
  re_match (Seq Bol (Seq (Lit K) (Seq ws1 r))) line = None.
Proof.
  intros HK Hne.
  destruct (re_match _ line) as [m|] eqn:E; [|reflexivity].
  apply keyword_first in E. destruct E as (c & t & E & Hc).
  destruct Hx as [_ Hw].
  change (u " is " ++ rhs) with (32 :: 105 :: 115 :: 32 :: rhs) in E.
  apply split_unique with (P := is_word) in E;
    [congruence|assumption|assumption|reflexivity|].
  now apply space_not_word.
Qed.

Lemma field_rule_fails : re_match re_field line = None.
Proof.
  unfold re_field. cbn [seqs]. rewrite re_match_anchored. unfold match_here.
  rewrite exec_seq, exec_bol, exec_seq, exec_group. unfold word.
  destruct Hx as [Hn Hw].
  rewrite exec_plus_cls_cut; try assumption.
  - change (u " is " ++ rhs) with (32 :: 105 :: 115 :: 32 :: rhs).
    rewrite exec_seq. unfold ws1 at 1.
    rewrite exec_plus_cls by reflexivity. rewrite exec_star_cls.
    change (is_space 105) with false. cbv iota.
    rewrite exec_seq. unfold kw.
    change (Lit (u "as")) with (Seq (Chr 97) (Chr 115)).
    rewrite exec_seq, exec_chr_neq by discriminate. reflexivity.
  - intros p c t cs Hc. rewrite exec_seq. unfold ws1, Plus.
    rewrite exec_seq. apply exec_cls_out. now apply word_not_space.
  - reflexivity.
Qed.
End AssignmentLine.

(** ** An assignment line reaches the assignment rules *)

Lemma trimStart_headed s : headed is_space s -> trimStart s = s.
Proof. destruct s as [|c t]; [reflexivity|]. cbn. now intros ->. Qed.

Lemma trimEnd_last pre e :
  is_space e = false -> trimEnd (pre ++ [e]) = pre ++ [e].
Proof.
  intro H. unfold trimEnd. rewrite rev_app_distr. cbn [rev app].
  rewrite trimStart_headed by exact H.
  change (e :: rev pre) with ([e] ++ rev pre).
  now rewrite rev_app_distr, rev_involutive.
Qed.

Lemma last_opt_last p pre e : last_opt p (pre ++ [e]) = Some e.
Proof. now rewrite last_opt_app. Qed.

Lemma trimStart_spaces : forall ws s,
  forallb is_space ws = true -> trimStart (ws ++ s) = trimStart s.
Proof.
  induction ws as [|c ws IH]; intros s H; [reflexivity|].
  cbn [forallb] in H. apply andb_true_iff in H. destruct H as [Hc Hw].
  cbn [app trimStart]. rewrite Hc. now apply IH.
Qed.

Lemma trimEnd_spaces : forall trail s,
  forallb is_space trail = true -> trimEnd (s ++ trail) = trimEnd s.
Proof.
  intros trail s H. unfold trimEnd. rewrite rev_app_distr.
  rewrite trimStart_spaces; [reflexivity|].
  apply forallb_forall. intros c Hc. apply in_rev in Hc.
  revert c Hc. now apply forallb_forall.
Qed.

Section AssignmentReached.
Variables (ws trail x body : str) (e : char).
Hypothesis Hws : forallb is_space ws = true.
Hypothesis Htrail : forallb is_space trail = true.
Hypothesis Hx : identifier x.
Hypothesis Hsay : x <> u "say".
Hypothesis Hprint : x <> u "print".
Hypothesis Hhead : headed is_space (body ++ [e]).
Hypothesis He : is_space e = false.
Hypothesis Hcolon : e <> 58.

Local Abbreviation line := (x ++ u " is " ++ body ++ [e]).

Lemma line_last : last_opt None line = Some e.
Proof.
  now rewrite !app_assoc, last_opt_last.
Qed.

Lemma line_trimmed : trim line = line /\ trimStart line = line.
Proof.
  assert (Hs : trimStart line = line).
  { apply trimStart_headed. destruct Hx as [Hn Hw].
    destruct x as [|c t]; [congruence|]. cbn [forallb] in Hw.
    apply andb_true_iff in Hw. cbn. now apply word_not_space. }
  split; [|exact Hs]. unfold trim. rewrite Hs.
  rewrite !app_assoc. now apply trimEnd_last.
Qed.

Lemma line_not_skipped : skipped line = false.
Proof.
  unfold skipped. destruct Hx as [Hn Hw].
  destruct x as [|c t]; [congruence|]. cbn [forallb] in Hw.
  apply andb_true_iff in Hw. destruct Hw as [Hc _].
  cbn [app nonempty negb orb startsWith u].
  change (N_of_ascii "/") with 47. change (N_of_ascii "#") with 35.
  assert (E1 : (47 =? c) = false) by char_facts.
  assert (E2 : (35 =? c) = false) by char_facts.
  now rewrite E1, E2.
Qed.

Lemma header_rule_fails r :
  In r [re_to_start; re_to; re_struct; re_method; re_if; re_otherwise_if;
        re_for_range; re_for_each; re_repeat; re_while] ->
  re_match r line = None.
Proof.
  intro Hr. destruct (re_match r line) as [m|] eqn:E; [|reflexivity].
  destruct (header_last_char _ Hr E) as (c & Hc & HQ).
  rewrite line_last in Hc. injection Hc as <-.
  destruct HQ; congruence.
Qed.

Lemma output_rule_fails r :
  In r [re_say_dq; re_say_sq; re_say; re_print_dq; re_print] ->
  re_match r line = None.
Proof.
  intro Hr. cbn [In] in Hr.
  repeat (destruct Hr as [<-|Hr];
          [apply keyword_rule_fails; [exact Hx|reflexivity|assumption]|]).
  contradiction.
Qed.

(** The indentation and the trimmed text of the raw line made of the
    white space [ws], the line and the white space [trail]. *)
Lemma line_framed :
  trim (ws ++ line ++ trail) = line
  /\ (length (ws ++ line ++ trail)
      - length (trimStart (ws ++ line ++ trail)))%nat = length ws.
Proof.
  destruct line_trimmed as [Ht Hs].
  assert (E : trimStart (ws ++ line ++ trail) = line ++ trail).
  { rewrite trimStart_spaces by exact Hws.
    apply trimStart_headed. destruct Hx as [Hn Hw].
    destruct x as [|c t]; [congruence|]. cbn [forallb] in Hw.
    apply andb_true_iff in Hw. cbn. now apply word_not_space. }
  split.
  - unfold trim. rewrite E, trimEnd_spaces by exact Htrail.
    unfold trim in Ht. now rewrite Hs in Ht.
  - rewrite E, !length_app. lia.
Qed.

Lemma assignment_reached st :
  translate_line st (ws ++ line ++ trail)
  = assignment (inFunction st) line (closings (length ws) line st).
Proof.
  unfold translate_line. cbv zeta.
  destruct line_framed as [Ht Hi]. rewrite Ht, Hi.
  pose proof line_not_skipped as Hk. unfold skipped in Hk. rewrite Hk.
  rewrite !header_rule_fails by (cbn [In]; tauto).
  rewrite (field_rule_fails (body ++ [e]) Hx).
  assert (E : forall st', statement (inFunction st) line st'
                          = assignment (inFunction st) line st').
  { intro st'. unfold statement.
    rewrite !header_rule_fails by (cbn [In]; tauto).
    now rewrite !output_rule_fails by (cbn [In]; tauto). }
  unfold closings. cbv zeta.
  destruct (inStruct (dedent (length ws) line st)); apply E.
Qed.
End AssignmentReached.

(** ** The tails of the assignment rules *)

Lemma firstn_whole (s : str) : firstn (length s - length (@nil char)) s = s.
Proof. cbn [length]. rewrite Nat.sub_0_r. apply firstn_all. Qed.

Lemma tail_head_mismatch A c r p h t cs (k : cont A) :
  h <> c -> exec (Seq (Chr c) r) p (h :: t) cs k = None.
Proof. intro H. rewrite exec_seq. now apply exec_chr_neq. Qed.

Lemma tail_quoted_matches q a p cs :
  is_dot q = true -> one_line a ->
  exec (tail_quoted q) p (q :: a ++ [q]) cs k_found
  = matched ((2%nat, a) :: cs) q.
Proof.
  intros Hq Ha. unfold tail_quoted. cbn [seqs].
  rewrite exec_seq, exec_chr_eq, exec_seq, exec_group. unfold any0.
  apply exec_star_cls_until; [exact Ha|].
  rewrite exec_star_cls, Hq, exec_star_cls, exec_seq.
  cbn [exec]. rewrite N.eqb_refl.
  now rewrite firstn_consumed.
Qed.

Lemma tail_list_matches c p cs :
  c <> [] -> one_line c ->
  exec tail_list p (91 :: c ++ [93]) cs k_found
  = matched ((2%nat, c) :: cs) 93.
Proof.
  intros Hn Hc. destruct c as [|h c]; [congruence|].
  unfold one_line in Hc. cbn [forallb] in Hc.
  apply andb_true_iff in Hc. destruct Hc as [Hh Hc].
  unfold tail_list. cbn [seqs].
  rewrite exec_seq, exec_chr_eq, exec_seq, exec_group. unfold any1.
  cbn [app]. rewrite exec_plus_cls by exact Hh.
  apply exec_star_cls_until; [exact Hc|].
  rewrite exec_star_cls. change (is_dot 93) with true. cbv iota.
  rewrite exec_star_cls, exec_seq. cbn [exec].
  change (h :: c ++ [93]) with ((h :: c) ++ [93]).
  now rewrite firstn_consumed.
Qed.

Lemma digits_then A (k : cont A) d rest p cs :
  all_digits d -> headed is_digit rest ->
  (forall p x t cs, is_digit x = true -> k p (x :: t) cs = None) ->
  exec digits p (d ++ rest) cs k = k (last_opt p d) rest cs.
Proof.
  intros [Hn Hd] Hr Hk. unfold digits.
  apply exec_plus_cls_cut; assumption.
Qed.

Lemma digits_to_end A (k : cont A) d p cs :
  all_digits d ->
  (forall p x t cs, is_digit x = true -> k p (x :: t) cs = None) ->
  exec digits p d cs k = k (last_opt p d) [] cs.
Proof.
  intros Hd Hk. rewrite <- (app_nil_r d) at 1.
  apply digits_then; [exact Hd|exact I|exact Hk].
Qed.

Lemma last_opt_digits p d :
  all_digits d -> exists c, last_opt p d = Some c.
Proof.
  intros [Hn _]. destruct (exists_last Hn) as (d' & c & ->).
  exists c. apply last_opt_last.
Qed.

Lemma tail_decimal_matches d1 d2 p cs :
  all_digits d1 -> all_digits d2 ->
  exists c, exec tail_decimal p (d1 ++ 46 :: d2) cs k_found
            = matched ((2%nat, d1 ++ 46 :: d2) :: cs) c.
Proof.
  intros H1 H2. destruct (last_opt_digits (Some 46) H2) as [c Hc].
  exists c. unfold tail_decimal. cbn [seqs].
  rewrite exec_seq, exec_group, exec_seq.
  rewrite digits_then; [|exact H1|reflexivity|].
  - rewrite exec_seq, exec_chr_eq.
    rewrite digits_to_end; [|exact H2|reflexivity].
    rewrite exec_eol, firstn_whole. unfold k_found, matched.
    do 2 f_equal. exact Hc.
  - intros q y t cs' Hy. rewrite exec_seq. apply exec_chr_neq.
    intros ->. discriminate Hy.
Qed.

Lemma exec_alt A a b p s cs (k : cont A) :
  exec (Alt a b) p s cs k
  = match exec a p s cs k with
    | Some res => Some res
    | None => exec b p s cs k
    end.
Proof. reflexivity. Qed.

Lemma exec_eps A p s cs (k : cont A) : exec Eps p s cs k = k p s cs.
Proof. reflexivity. Qed.

Lemma tail_int_matches d p cs :
  all_digits d ->
  exists c, exec tail_int p d cs k_found = matched ((2%nat, d) :: cs) c.
Proof.
  intro Hd. destruct (last_opt_digits p Hd) as [c Hc]. exists c.
  unfold tail_int. cbn [seqs]. rewrite exec_seq, exec_group, exec_seq.
  unfold Opt. rewrite exec_alt.
  destruct Hd as [Hn Hd]. destruct d as [|h d]; [congruence|].
  pose proof Hd as Hh. cbn [forallb] in Hh. apply andb_true_iff in Hh.
  destruct Hh as [Hh _].
  rewrite exec_chr_neq by (intros ->; discriminate Hh).
  rewrite exec_eps, digits_to_end; [|split; assumption|reflexivity].
  rewrite exec_eol, firstn_whole. unfold k_found, matched.
  do 2 f_equal. exact Hc.
Qed.

Lemma tail_int_matches_signed d p cs :
  all_digits d ->
  exists c, exec tail_int p (45 :: d) cs k_found
            = matched ((2%nat, 45 :: d) :: cs) c.
Proof.
  intro Hd. destruct (last_opt_digits (Some 45) Hd) as [c Hc]. exists c.
  unfold tail_int. cbn [seqs]. rewrite exec_seq, exec_group, exec_seq.
  unfold Opt. rewrite exec_alt, exec_chr_eq.
  rewrite digits_to_end; [|exact Hd|reflexivity].
  rewrite exec_eol, firstn_whole. unfold k_found, matched.
  do 2 f_equal. exact Hc.
Qed.

Lemma tail_decimal_refuses_int d p cs :
  all_digits d ->
  exec tail_decimal p d cs k_found = None
  /\ exec tail_decimal p (45 :: d) cs k_found = None.
Proof.
  intro Hd. unfold tail_decimal. cbn [seqs]. split.
  - rewrite exec_seq, exec_group, exec_seq.
    rewrite digits_to_end; [reflexivity|exact Hd|].
    intros q y t cs' Hy. rewrite exec_seq. apply exec_chr_neq.
    intros ->. discriminate Hy.
  - rewrite exec_seq, exec_group, exec_seq. unfold digits, Plus.
    rewrite exec_seq. now apply exec_cls_out.
Qed.

(** The two words [yes] and [no]. *)
Lemma tails_on_yes p cs :
  exec (tail_quoted 34) p (u "yes") cs k_found = None
  /\ exec (tail_quoted 39) p (u "yes") cs k_found = None
  /\ exec tail_decimal p (u "yes") cs k_found = None
  /\ exec tail_int p (u "yes") cs k_found = None
  /\ exec tail_bool p (u "yes") cs k_found
     = matched ((2%nat, u "yes") :: cs) 115.
Proof. repeat split; vm_compute; reflexivity. Qed.

Lemma tails_on_no p cs :
  exec (tail_quoted 34) p (u "no") cs k_found = None
  /\ exec (tail_quoted 39) p (u "no") cs k_found = None
  /\ exec tail_decimal p (u "no") cs k_found = None
  /\ exec tail_int p (u "no") cs k_found = None
  /\ exec tail_bool p (u "no") cs k_found
     = matched ((2%nat, u "no") :: cs) 111.
Proof. repeat split; vm_compute; reflexivity. Qed.

(** A bracketed list is none of the scalar literals. *)
Lemma tails_on_list c p cs :
  exec (tail_quoted 34) p (91 :: c ++ [93]) cs k_found = None
  /\ exec (tail_quoted 39) p (91 :: c ++ [93]) cs k_found = None
  /\ exec tail_decimal p (91 :: c ++ [93]) cs k_found = None
  /\ exec tail_int p (91 :: c ++ [93]) cs k_found = None
  /\ exec tail_bool p (91 :: c ++ [93]) cs k_found = None.
Proof. repeat split; vm_compute; reflexivity. Qed.

(** The mutable form: the right-hand side is what precedes the last
    [, can change]. *)
Lemma tail_mutable_matches r p cs :
  r <> [] -> one_line r ->
  exec tail_mutable p (r ++ u ", can change") cs k_found
  = matched ((2%nat, r) :: cs) 101.
Proof.
  intros Hn Hr. destruct r as [|h r]; [congruence|].
  unfold one_line in Hr. cbn [forallb] in Hr.
  apply andb_true_iff in Hr. destruct Hr as [Hh Hr].
  unfold tail_mutable. cbn [seqs].
  rewrite exec_seq, exec_group. unfold any1.
  cbn [app]. rewrite exec_plus_cls by exact Hh.
  apply exec_star_cls_until; [exact Hr|].
  change (h :: r ++ u ", can change") with ((h :: r) ++ u ", can change").
  set (whole := (h :: r) ++ u ", can change").
  assert (Hcap : firstn (length whole - length (u ", can change")) whole
                 = h :: r) by apply firstn_consumed.
  revert Hcap. generalize whole. generalize (last_opt (Some h) r).
  intros q w Hcap. vm_compute. vm_compute in Hcap. rewrite Hcap.
  reflexivity.
Qed.

(** ** The assignment rules on the literal shapes *)

Ltac by_tails :=
  unfold assignment;
  change re_is_dq with (is_then (tail_quoted 34));
  change re_is_sq with (is_then (tail_quoted 39));
  change re_is_decimal with (is_then tail_decimal);
  change re_is_int with (is_then tail_int);
  change re_is_bool with (is_then tail_bool);
  change re_is_list with (is_then tail_list);
  change re_is_mutable with (is_then tail_mutable).

Section Shapes.
Variables (tgt : bool) (st : State) (x : str).
Hypothesis Hx : identifier x.

Lemma assign_double_quoted a :
  one_line a ->
  assignment tgt (x ++ u " is " ++ dq ++ a ++ dq) st
  = Ok (push_target tgt
          (pad ++ u "const std::string " ++ x ++ u " = " ++ dq ++ a ++ dq
           ++ u ";") st).
Proof.
  intro Ha. by_tails.
  change (dq ++ a ++ dq) with (34 :: a ++ [34]).
  rewrite re_match_is_then by (try exact Hx; reflexivity).
  rewrite tail_quoted_matches by (try exact Ha; reflexivity).
  reflexivity.
Qed.

Lemma assign_single_quoted a :
  one_line a ->
  assignment tgt (x ++ u " is " ++ sq ++ a ++ sq) st
  = Ok (push_target tgt
          (pad ++ u "const std::string " ++ x ++ u " = " ++ dq ++ a ++ dq
           ++ u ";") st).
Proof.
  intro Ha. by_tails.
  change (sq ++ a ++ sq) with (39 :: a ++ [39]).
  rewrite !re_match_is_then by (try exact Hx; reflexivity).
  unfold tail_quoted at 1. cbn [seqs].
  rewrite tail_head_mismatch by discriminate.
  rewrite tail_quoted_matches by (try exact Ha; reflexivity).
  reflexivity.
Qed.

Lemma digits_head d t :
  all_digits d ->
  exists h d', d ++ t = h :: d' /\ is_digit h = true.
Proof.
  intros [Hn Hd]. destruct d as [|h d]; [congruence|].
  cbn [forallb] in Hd. apply andb_true_iff in Hd. destruct Hd as [Hh _].
  exists h, (d ++ t). now split.
Qed.

Lemma assign_decimal d1 d2 :
  all_digits d1 -> all_digits d2 ->
  assignment tgt (x ++ u " is " ++ d1 ++ u "." ++ d2) st
  = Ok (push_target tgt
          (pad ++ u "const double " ++ x ++ u " = " ++ d1 ++ u "." ++ d2
           ++ u ";") st).
Proof.
  intros H1 H2. by_tails.
  change (u "." ++ d2) with (46 :: d2).
  destruct (digits_head (46 :: d2) H1) as (h & d' & E & Hh).
  assert (Hhead : headed is_space (d1 ++ 46 :: d2)).
  { rewrite E. cbn. apply word_not_space. now apply digit_is_word. }
  rewrite !re_match_is_then by assumption.
  unfold tail_quoted. cbn [seqs]. rewrite E.
  rewrite !tail_head_mismatch by (intros ->; discriminate Hh).
  rewrite <- E.
  destruct (tail_decimal_matches (Some 32) [(1%nat, x)] H1 H2) as [c ->].
  cbn [matched f_caps grp tpl Nat.eqb]. rewrite <- (app_assoc d1).
  reflexivity.
Qed.

Lemma assign_int d :
  all_digits d ->
  assignment tgt (x ++ u " is " ++ d) st
  = Ok (push_target tgt
          (pad ++ u "const int " ++ x ++ u " = " ++ d ++ u ";") st).
Proof.
  intros Hd. by_tails.
  destruct (digits_head [] Hd) as (h & d' & E & Hh).
  rewrite app_nil_r in E.
  assert (Hhead : headed is_space d).
  { rewrite E. cbn. apply word_not_space. now apply digit_is_word. }
  rewrite !re_match_is_then by assumption.
  unfold tail_quoted. cbn [seqs]. rewrite E.
  rewrite !tail_head_mismatch by (intros ->; discriminate Hh).
  rewrite <- E.
  rewrite (proj1 (tail_decimal_refuses_int (Some 32) [(1%nat, x)] Hd)).
  destruct (tail_int_matches (Some 32) [(1%nat, x)] Hd) as [c ->].
  reflexivity.
Qed.

Lemma assign_negative_int d :
  all_digits d ->
  assignment tgt (x ++ u " is -" ++ d) st
  = Ok (push_target tgt
          (pad ++ u "const int " ++ x ++ u " = -" ++ d ++ u ";") st).
Proof.
  intros Hd. by_tails.
  change (u " is -" ++ d) with (u " is " ++ 45 :: d).
  rewrite !re_match_is_then by (try exact Hx; reflexivity).
  unfold tail_quoted. cbn [seqs].
  rewrite !tail_head_mismatch by discriminate.
  rewrite (proj2 (tail_decimal_refuses_int (Some 32) [(1%nat, x)] Hd)).
  destruct (tail_int_matches_signed (Some 32) [(1%nat, x)] Hd) as [c ->].
  reflexivity.
Qed.

Lemma assign_yes :
  assignment tgt (x ++ u " is yes") st
  = Ok (push_target tgt (pad ++ u "const bool " ++ x ++ u " = true;") st).
Proof.
  by_tails. change (u " is yes") with (u " is " ++ u "yes").
  rewrite !re_match_is_then by (try exact Hx; reflexivity).
  destruct (tails_on_yes (Some 32) [(1%nat, x)])
    as (-> & -> & -> & -> & ->).
  reflexivity.
Qed.

Lemma assign_no :
  assignment tgt (x ++ u " is no") st
  = Ok (push_target tgt (pad ++ u "const bool " ++ x ++ u " = false;") st).
Proof.
  by_tails. change (u " is no") with (u " is " ++ u "no").
  rewrite !re_match_is_then by (try exact Hx; reflexivity).
  destruct (tails_on_no (Some 32) [(1%nat, x)])
    as (-> & -> & -> & -> & ->).
  reflexivity.
Qed.

Lemma assign_list c :
  c <> [] -> one_line c ->
  assignment tgt (x ++ u " is [" ++ c ++ u "]") st
  = Ok (push_target tgt
          (pad ++ u "const auto " ++ x ++ u " = std::vector<int>{" ++ c
           ++ u "};") st).
Proof.
  intros Hn Hc. by_tails.
  change (u " is [" ++ c ++ u "]") with (u " is " ++ 91 :: c ++ [93]).
  rewrite !re_match_is_then by (try exact Hx; reflexivity).
  destruct (tails_on_list c (Some 32) [(1%nat, x)])
    as (-> & -> & -> & -> & ->).
  rewrite tail_list_matches by assumption.
  reflexivity.
Qed.
End Shapes.

Lemma assign_mutable tgt st x r :
  identifier x -> r <> [] -> one_line r -> headed is_space r ->
  assignment tgt (x ++ u " is " ++ r ++ u ", can change") st
  = Ok (push_target tgt
          (pad ++ u "auto " ++ x ++ u " = " ++ translateExpr r ++ u ";") st).
Proof.
  intros Hx Hn Hr Hh. unfold assignment.
  set (line := x ++ u " is " ++ r ++ u ", can change").
  assert (Hlast : last_opt None line = Some 101).
  { unfold line.
    change (u ", can change") with (u ", can chang" ++ [101]).
    now rewrite !app_assoc, last_opt_last. }
  assert (Hlit : forall re,
             In re [re_is_dq; re_is_sq; re_is_decimal; re_is_int; re_is_bool;
                    re_is_list] -> re_match re line = None).
  { intros re Hre. destruct (re_match re line) as [m|] eqn:E; [|reflexivity].
    destruct (literal_last_char _ Hre E) as (e & He & HQ).
    rewrite Hlast in He. injection He as <-.
    destruct HQ as [H|[H|[H|[H|[H|H]]]]]; discriminate H. }
  rewrite !Hlit by (cbn [In]; tauto).
  change re_is_mutable with (is_then tail_mutable). unfold line.
  assert (Hh' : headed is_space (r ++ u ", can change"))
    by (destruct r; [congruence|exact Hh]).
  rewrite re_match_is_then by assumption.
  rewrite tail_mutable_matches by assumption.
  reflexivity.
Qed.

(** ** From the line to what it emits *)

Lemma reached st ws trail x body e line :
  forallb is_space ws = true -> forallb is_space trail = true ->
  identifier x -> x <> u "say" -> x <> u "print" ->
  headed is_space (body ++ [e]) -> is_space e = false -> e <> 58 ->
  line = x ++ u " is " ++ body ++ [e] ->
  translate_line st (ws ++ line ++ trail)
  = assignment (inFunction st) line (closings (length ws) line st).
Proof.
  intros Hws Htr Hx Hs Hp Hh He Hc ->. now apply assignment_reached.
Qed.

Lemma digits_last d :
  all_digits d ->
  exists d' e, d = d' ++ [e] /\ is_digit e = true
               /\ headed is_space (d' ++ [e]).
Proof.
  intros [Hn Hd]. destruct (exists_last Hn) as (d' & e & ->).
  exists d', e. split; [reflexivity|].
  pose proof Hd as Hd'. rewrite forallb_app in Hd'.
  apply andb_true_iff in Hd'. destruct Hd' as [_ He]. cbn in He.
  rewrite andb_true_r in He. split; [exact He|].
  destruct (d' ++ [e]) as [|h t] eqn:E; [exact I|].
  cbn [forallb] in Hd. apply andb_true_iff in Hd. destruct Hd as [Hh _].
  cbn. apply word_not_space. now apply digit_is_word.
Qed.

Lemma digit_not_space e : is_digit e = true -> is_space e = false.
Proof. intro H. char_facts. Qed.

Lemma digit_not_colon e : is_digit e = true -> e <> 58.
Proof. intro H. char_facts. Qed.

(** C3, as the code has it: on a raw line of any indentation [ws] and
    with any trailing white space [trail], for every identifier [x] other
    than the output keywords [say] and [print], the texts [x is "a"] and
    [x is 'a'] emit a constant [std::string] binding, [x is 3.5] a constant
    [double] binding, [x is 3] and [x is -3] a constant [int] binding,
    [x is yes] and [x is no] the constant [bool] bindings [true] and
    [false], [x is [1,2,3]] a constant [std::vector<int>] binding, and a
    right-hand side followed by [, can change] an [auto] binding of the
    rewritten right-hand side. *)
Theorem literal_bindings : forall (st : State) (ws trail x : str),
  forallb is_space ws = true -> forallb is_space trail = true ->
  identifier x -> x <> u "say" -> x <> u "print" ->
  (forall a, one_line a ->
     emits st ws (x ++ u " is " ++ dq ++ a ++ dq) trail
       (u "const std::string " ++ x ++ u " = " ++ dq ++ a ++ dq ++ u ";"))
  /\ (forall a, one_line a ->
        emits st ws (x ++ u " is " ++ sq ++ a ++ sq) trail
          (u "const std::string " ++ x ++ u " = " ++ dq ++ a ++ dq ++ u ";"))
  /\ (forall d1 d2, all_digits d1 -> all_digits d2 ->
        emits st ws (x ++ u " is " ++ d1 ++ u "." ++ d2) trail
          (u "const double " ++ x ++ u " = " ++ d1 ++ u "." ++ d2 ++ u ";"))
  /\ (forall d, all_digits d ->
        emits st ws (x ++ u " is " ++ d) trail
          (u "const int " ++ x ++ u " = " ++ d ++ u ";")
        /\ emits st ws (x ++ u " is -" ++ d) trail
             (u "const int " ++ x ++ u " = -" ++ d ++ u ";"))
  /\ emits st ws (x ++ u " is yes") trail
       (u "const bool " ++ x ++ u " = true;")
  /\ emits st ws (x ++ u " is no") trail
       (u "const bool " ++ x ++ u " = false;")
  /\ (forall c, c <> [] -> one_line c ->
        emits st ws (x ++ u " is [" ++ c ++ u "]") trail
          (u "const auto " ++ x ++ u " = std::vector<int>{" ++ c ++ u "};"))
  /\ (forall r, r <> [] -> one_line r -> headed is_space r ->
        emits st ws (x ++ u " is " ++ r ++ u ", can change") trail
          (u "auto " ++ x ++ u " = " ++ translateExpr r ++ u ";")).
Proof.
  intros st ws trail x Hws Htr Hx Hsay Hprint. unfold emits.
  repeat match goal with |- _ /\ _ => split end.
  - intros a Ha.
    rewrite (@reached st ws trail x (34 :: a) 34 _ Hws Htr Hx Hsay Hprint)
      by (try discriminate; reflexivity).
    now apply assign_double_quoted.
  - intros a Ha.
    rewrite (@reached st ws trail x (39 :: a) 39 _ Hws Htr Hx Hsay Hprint)
      by (try discriminate; reflexivity).
    now apply assign_single_quoted.
  - intros d1 d2 H1 H2.
    destruct (digits_last H2) as (d2' & e & E & He & _).
    destruct (digits_head (46 :: d2) H1) as (h & t & Eh & Hh).
    rewrite (@reached st ws trail x (d1 ++ 46 :: d2') e _ Hws Htr Hx Hsay
               Hprint).
    + now apply assign_decimal.
    + change ((d1 ++ 46 :: d2') ++ [e]) with ((d1 ++ 46 :: d2') ++ [e]).
      rewrite <- app_assoc. cbn [app]. rewrite <- E, Eh. cbn.
      apply word_not_space. now apply digit_is_word.
    + now apply digit_not_space.
    + now apply digit_not_colon.
    + rewrite E. rewrite <- (app_assoc d1). reflexivity.
  - intros d Hd. destruct (digits_last Hd) as (d' & e & E & He & Hh). split.
    + rewrite (@reached st ws trail x (d') e _ Hws Htr Hx Hsay Hprint);
        [now apply assign_int|exact Hh|now apply digit_not_space
        |now apply digit_not_colon|now rewrite E].
    + rewrite (@reached st ws trail x (45 :: d') e _ Hws Htr Hx Hsay Hprint);
        [now apply assign_negative_int|reflexivity|now apply digit_not_space
        |now apply digit_not_colon|now rewrite E].
  - rewrite (@reached st ws trail x (u "ye") 115 _ Hws Htr Hx Hsay Hprint)
      by (try discriminate; reflexivity).
    now apply assign_yes.
  - rewrite (@reached st ws trail x (u "n") 111 _ Hws Htr Hx Hsay Hprint)
      by (try discriminate; reflexivity).
    now apply assign_no.
  - intros c Hn Hc.
    rewrite (@reached st ws trail x (91 :: c) 93 _ Hws Htr Hx Hsay Hprint)
      by (try discriminate; reflexivity).
    now apply assign_list.
  - intros r Hn Hr Hh.
    rewrite (@reached st ws trail x (r ++ u ", can chang") 101 _ Hws Htr Hx
               Hsay Hprint).
    + now apply assign_mutable.
    + destruct r; [congruence|exact Hh].
    + reflexivity.
    + discriminate.
    + now rewrite <- app_assoc.
Qed.

(** Bindings in the body of a function, indented by four blanks, with a
    carriage return or a blank at the end of the line. *)
Lemma literal_bindings_witness :
  let st := set_function true (Some (u "f"))
              (push_decl (u "auto f() {") init_state) in
  emits st (u "    ") (u "n is 3") [13] (u "const int n = 3;")
  /\ emits st (u "    ") (u "n is 1.5") [] (u "const double n = 1.5;")
  /\ emits st (u "    ") (u "n is yes") (u " ") (u "const bool n = true;")
  /\ emits st (u "    ") (u "n is 3, can change") [] (u "auto n = 3;")
  /\ translate_line st (u "    n is 3" ++ [13])
     = Ok (push_decl (u "    const int n = 3;") st).
Proof.
  intro st.
  assert (Hx : identifier (u "n")) by (split; [discriminate|reflexivity]).
  assert (Hs : u "n" <> u "say") by discriminate.
  assert (Hp : u "n" <> u "print") by discriminate.
  assert (D : forall c, is_digit c = true -> all_digits [c]).
  { intros c Hc. split; [discriminate|]. cbn. now rewrite Hc. }
  assert (L : forall trail, forallb is_space trail = true ->
              (forall d, all_digits d ->
                 emits st (u "    ") (u "n" ++ u " is " ++ d) trail
                   (u "const int " ++ u "n" ++ u " = " ++ d ++ u ";")
                 /\ emits st (u "    ") (u "n" ++ u " is -" ++ d) trail
                      (u "const int " ++ u "n" ++ u " = -" ++ d ++ u ";"))
              /\ (forall d1 d2, all_digits d1 -> all_digits d2 ->
                    emits st (u "    ") (u "n" ++ u " is " ++ d1 ++ u "."
                                        ++ d2) trail
                      (u "const double " ++ u "n" ++ u " = " ++ d1 ++ u "."
                       ++ d2 ++ u ";"))
              /\ emits st (u "    ") (u "n" ++ u " is yes") trail
                   (u "const bool " ++ u "n" ++ u " = true;")
              /\ (forall r, r <> [] -> one_line r -> headed is_space r ->
                    emits st (u "    ")
                      (u "n" ++ u " is " ++ r ++ u ", can change") trail
                      (u "auto " ++ u "n" ++ u " = " ++ translateExpr r
                       ++ u ";"))).
  { intros trail Ht.
    destruct (@literal_bindings st (u "    ") trail (u "n") eq_refl Ht Hx
                Hs Hp)
      as (_ & _ & Hdec & Hint & Hyes & _ & _ & Hmut).
    auto. }
  destruct (L [13] eq_refl) as (Hint & _).
  destruct (L [] eq_refl) as (_ & Hdec & _ & Hmut).
  destruct (L (u " ") eq_refl) as (_ & _ & Hyes & _).
  split; [|split; [|split; [|split]]].
  - exact (proj1 (Hint (u "3") (D 51 eq_refl))).
  - exact (Hdec (u "1") (u "5") (D 49 eq_refl) (D 53 eq_refl)).
  - exact Hyes.
  - apply (Hmut (u "3")); [discriminate|reflexivity|reflexivity].
  - exact (proj1 (Hint (u "3") (D 51 eq_refl))).
Defined.

(** C3 fails as stated: [say] is an identifier for the assignment rules, but
    the output rules come first, so [say is 3] is an output statement. *)
Lemma say_is_not_bound :
  identifier (u "say")
  /\ translate_line init_state (u "say is 3")
     = Ok (push_body (u "    std::cout << == 3 << std::endl;") init_state)
  /\ ~ emits init_state [] (u "say is 3") [] (u "const int say = 3;").
Proof.
  split; [split; [discriminate|reflexivity]|].
  assert (E : translate_line init_state (u "say is 3")
              = Ok (push_body (u "    std::cout << == 3 << std::endl;")
                      init_state)) by (vm_compute; reflexivity).
  split; [exact E|].
  unfold emits. cbn [app]. rewrite app_nil_r, E. vm_compute.
  intro H. discriminate H.
Qed.

(** ** The guard of the function-call rule *)

Lemma Matches_star_cls (P : char -> bool) p s cs p' s' cs' :
  Matches (Star (Cls P)) p s cs p' s' cs' ->
  exists w, forallb P w = true /\ s = w ++ s' /\ cs' = cs.
Proof.
  intro H. remember (Star (Cls P)) as r eqn:Er.
  induction H as [ | | | | | | a p s cs p1 s1 cs1 p2 s2 cs2 H1 _ H2 IH2
                   | | | | | ]; try discriminate Er.
  - now exists [].
  - injection Er as ->. inversion H1. subst.
    destruct (IH2 eq_refl) as (w & Hw & -> & ->).
    exists (x :: w). cbn [forallb app].
    split; [|split; reflexivity]. now apply andb_true_iff.
Qed.

Lemma Matches_plus_cls (P : char -> bool) p s cs p' s' cs' :
  Matches (Plus (Cls P)) p s cs p' s' cs' ->
  exists w, w <> [] /\ forallb P w = true /\ s = w ++ s' /\ cs' = cs.
Proof.
  unfold Plus. intro H.
  inversion H as [ | | ? ? ? ? ? ? ? ? ? ? ? H1 H2 | | | | | | | | | ]. subst.
  inversion H1. subst.
  apply Matches_star_cls in H2. destruct H2 as (w & Hw & -> & ->).
  exists (x :: w). cbn [forallb app].
  split; [discriminate|]. split; [|split; reflexivity].
  now apply andb_true_iff.
Qed.

(** The first group of the function-call rule is the first word of the
    line. *)
Lemma call_first_word line m :
  re_match re_call line = Some m ->
  exists w c t,
    line = w ++ c :: t /\ forallb is_word w = true /\ is_space c = true
    /\ grp 1 m = Some w.
Proof.
  unfold re_call. cbn [seqs]. rewrite re_match_anchored.
  destruct (match_here _ None line) as [f|] eqn:E; [|discriminate].
  intro H. injection H as <-. apply match_here_sound in E.
  inversion E as [ | | ? ? ? ? ? ? ? ? ? ? ? H1 H2 | | | | | | | | | ]. subst.
  inversion H1. subst.
  inversion H2 as [ | | ? ? ? ? ? ? ? ? ? ? ? H3 H4 | | | | | | | | | ]. subst.
  inversion H3 as [ | | | | | | | ? ? ? ? ? ? ? ? H5 | | | | ]. subst.
  apply Matches_plus_cls in H5. destruct H5 as (w & _ & Hw & -> & ->).
  rewrite firstn_consumed in H4.
  inversion H4 as [ | | ? ? ? ? ? ? ? ? ? ? ? H6 H7 | | | | | | | | | ]. subst.
  apply Matches_plus_cls in H6. destruct H6 as (sp & Hn & Hsp & -> & ->).
  destruct sp as [|c sp]; [congruence|].
  cbn [forallb] in Hsp. apply andb_true_iff in Hsp. destruct Hsp as [Hc _].
  inversion H7 as [ | | ? ? ? ? ? ? ? ? ? ? ? H8 H9 | | | | | | | | | ]. subst.
  inversion H8 as [ | | | | | | | ? ? ? ? ? ? ? ? H10 | | | | ]. subst.
  apply Matches_plus_cls in H10. destruct H10 as (v & _ & _ & _ & ->).
  inversion H9. subst.
  exists w, c, (sp ++ s1). repeat split; try assumption.
Qed.

(** C4, where it holds and where it fails: a line whose first word is one
    of the 25 words of the guard list is never taken by the function-call
    rule; the keyword [a] of the struct and method headers is not in that
    list, so a line that begins with it and is no header is taken. *)
Theorem call_guard_misses_article :
  (forall (w rest : str) (c : char),
      In w (map u call_guard) -> is_space c = true ->
      fires (w ++ c :: rest) re_call call_guard = false)
  /\ among call_guard (Some (u "a")) = false
  /\ among assign_guard (Some (u "a")) = true
  /\ fires (u "a Person has") re_call call_guard = true
  /\ translate_line init_state (u "a Person has")
     = Ok (push_body (u "    a(Person has);") init_state).
Proof.
  split; [|repeat split; vm_compute; reflexivity].
  intros w rest c Hw Hc. unfold fires.
  destruct (re_match re_call (w ++ c :: rest)) as [m|] eqn:E; [|reflexivity].
  destruct (call_first_word _ E) as (w' & c' & t & El & Hw' & Hc' & ->).
  assert (Hword : forallb is_word w = true).
  { cbn [map call_guard In] in Hw.
    repeat (destruct Hw as [<-|Hw]; [reflexivity|]). contradiction. }
  apply split_unique with (P := is_word) in El;
    [|assumption|assumption|now apply space_not_word
     |now apply space_not_word].
  subst w'. unfold among.
  apply includes_str_In in Hw. now rewrite Hw.
Qed.

Lemma call_guard_misses_article_witness :
  fires (u "print total") re_call call_guard = false.
Proof.
  apply (proj1 call_guard_misses_article (u "print") (u "total") 32).
  - cbn [map call_guard In]. do 12 right. left. reflexivity.
  - reflexivity.
Defined.

(** * Further properties *)

(** ** The reconciler, again *)

(** X1: reconciling twice is reconciling once, and the result never has
    open blocks left. *)
Theorem closeBlocks_idempotent : forall lines : list str,
  closeBlocks (closeBlocks lines) = closeBlocks lines
  /\ (total_depth (closeBlocks lines) <= 0)%Z
  /\ length (closeBlocks lines)
     = (length lines + Z.to_nat (total_depth lines))%nat.
Proof.
  intro lines. split; [|split].
  - rewrite (closeBlocks_spec (closeBlocks lines)).
    rewrite total_depth_closeBlocks.
    replace (Z.to_nat (Z.max 0 (Z.min 0 (total_depth lines)))) with O by lia.
    apply app_nil_r.
  - rewrite total_depth_closeBlocks. lia.
  - rewrite closeBlocks_spec, length_app, repeat_length. f_equal. lia.
Qed.

(** ** The ledger, again *)

Section LedgerIds.
Variable Timestamp : Type.
Variable Pulse : Type.
Variable phi_pulse_of : N -> Pulse.

Lemma log_calls_ids : forall calls (g : Ledger Timestamp Pulse),
  compilationCount (fst (log_calls phi_pulse_of g calls))
  = compilationCount g + N.of_nat (length calls)
  /\ map (@id _ _) (snd (log_calls phi_pulse_of g calls))
     = map (fun k => compilationCount g + N.of_nat k)
         (seq 1 (length calls))
  /\ map (fun i => (flow i, cpp i, success i, output i, timestamp i))
       (snd (log_calls phi_pulse_of g calls))
     = map (fun c => (c_flow c, c_cpp c, c_success c, c_output c, c_now c))
         calls.
Proof.
  induction calls as [|c rest IH]; intro g; cbn [log_calls].
  - cbn. rewrite N.add_0_r. auto.
  - destruct (log_call phi_pulse_of g c) as [g1 i] eqn:E1.
    specialize (IH g1).
    destruct (log_calls phi_pulse_of g1 rest) as [g2 more] eqn:E2.
    cbn [fst snd] in *. destruct IH as (Hc & Hi & Hf).
    unfold log_call, logIdea in E1. injection E1 as <- <-.
    cbn [compilationCount] in *. cbn [length map id].
    split; [lia|]. split.
    + cbn [seq map]. f_equal.
      rewrite Hi, <- (seq_shift (length rest) 1), map_map.
      apply map_ext. intro k. lia.
    + cbn [flow cpp success output timestamp]. now rewrite Hf.
Qed.

(** X2: the counter counts every call, also those whose idea has left the
    ledger: after [n] calls from the start it is [n], the ideas returned
    carry the identifiers 1 to [n] in order and the arguments of their
    calls, and the ledger holds [min n 500] of them. *)
Theorem ideas_are_numbered : forall calls : list (Call Timestamp),
  let g := fst (log_calls phi_pulse_of (empty_ledger _ _) calls) in
  let ideas := snd (log_calls phi_pulse_of (empty_ledger _ _) calls) in
  compilationCount g = N.of_nat (length calls)
  /\ map (@id _ _) ideas = map N.of_nat (seq 1 (length calls))
  /\ map (fun i => (flow i, cpp i, success i, output i, timestamp i)) ideas
     = map (fun c => (c_flow c, c_cpp c, c_success c, c_output c, c_now c))
         calls
  /\ length (ideaStream g) = Nat.min (length calls) 500.
Proof.
  intros calls g ideas.
  destruct (log_calls_ids calls (empty_ledger _ _)) as (Hc & Hi & Hf).
  fold g ideas in Hc, Hi, Hf. cbn [compilationCount empty_ledger] in Hc, Hi.
  split; [exact Hc|]. split; [exact Hi|]. split; [exact Hf|].
  unfold g. rewrite log_calls_stream by (cbn; lia).
  cbn [ideaStream empty_ledger app]. fold ideas.
  assert (Hl : length ideas = length calls).
  { apply (f_equal (@length _)) in Hf. now rewrite !length_map in Hf. }
  unfold last500. rewrite length_skipn. lia.
Qed.
End LedgerIds.

(** ** What the HTTP routes show of the ledger *)

Lemma slice_last_last500 {A : Type} (n : nat) (l : list A) :
  (n <= 500)%nat -> slice_last n (last500 l) = slice_last n l.
Proof.
  intro Hn. unfold slice_last, last500.
  rewrite skipn_skipn, length_skipn. f_equal. lia.
Qed.

Section HttpFacts.
Variable Timestamp : Type.
Variable Pulse : Type.
Variable Uptime : Type.
Variable phi_pulse_of : N -> Pulse.

(** X3: after any sequence of [logIdea] calls, [GET /ideas] answers 200
    with the last 50 ideas the calls returned (all of them when there are
    fewer), oldest first, and a total that is the number of calls capped at
    500; [GET /health] reports the number of calls uncapped. *)
Theorem routes_show_the_ledger :
  forall (calls : list (Call Timestamp)) (index_html : Outcome Thrown str)
         (uptime : Uptime) (cycle : nat) (timer : bool),
    let g := fst (log_calls phi_pulse_of (empty_ledger _ _) calls) in
    let ideas := snd (log_calls phi_pulse_of (empty_ledger _ _) calls) in
    let srv := {| ledger := g; perpetualIndex := cycle;
                  perpetualTimer := timer |} in
    handle_request index_html uptime srv (u "GET") (u "/ideas")
    = {| h_status := 200; h_content_type := u "application/json";
         h_body := IdeasBody Uptime (slice_last 50 ideas)
                     (Nat.min (length calls) 500) |}
    /\ length (slice_last 50 ideas) = Nat.min (length calls) 50
    /\ handle_request index_html uptime srv (u "GET") (u "/health")
       = {| h_status := 200; h_content_type := u "application/json";
            h_body := HealthBody _ _ uptime (N.of_nat (length calls))
                        (Nat.min (length calls) 500) cycle |}.
Proof.
  intros calls index_html uptime cycle timer g ideas srv.
  destruct (log_calls_ids phi_pulse_of calls (empty_ledger _ _))
    as (Hc & _ & Hf).
  fold g ideas in Hc, Hf. cbn [compilationCount empty_ledger] in Hc.
  assert (Hl : length ideas = length calls).
  { apply (f_equal (@length _)) in Hf. now rewrite !length_map in Hf. }
  assert (Hs : ideaStream g = last500 ideas).
  { unfold g. rewrite log_calls_stream by (cbn; lia). reflexivity. }
  assert (Hn : length (ideaStream g) = Nat.min (length calls) 500).
  { rewrite Hs. unfold last500. rewrite length_skipn. lia. }
  subst srv. split; [|split].
  - unfold handle_request.
    change (str_eqb (u "GET") (u "GET")) with true.
    change (str_eqb (u "/ideas") (u "/")) with false.
    change (str_eqb (u "/ideas") (u "/health")) with false.
    change (str_eqb (u "/ideas") (u "/ideas")) with true.
    cbn [andb ledger]. rewrite Hn, Hs, slice_last_last500 by lia.
    reflexivity.
  - unfold slice_last. rewrite length_skipn. lia.
  - unfold handle_request.
    change (str_eqb (u "GET") (u "GET")) with true.
    change (str_eqb (u "/health") (u "/")) with false.
    change (str_eqb (u "/health") (u "/health")) with true.
    cbn [andb ledger perpetualIndex]. now rewrite Hn, Hc.
Qed.
End HttpFacts.

(** ** The harness, again *)

(** X4: a run is reported as a success exactly when the toolchain was found
    and writing, compiling and running all returned; its payload is then the
    output of the program, or [(no output)] when that is empty, and so never
    the empty text. *)
Theorem success_means_all_steps_returned :
  forall (w : World) (cppSource : str) (r : RunResult),
    compileAndRun w cppSource = Returned r ->
    (r_success r = true <->
     exists x out,
       which_gpp w = Returned x
       /\ write_source w cppSource = Returned tt
       /\ run_compiler w cppSource = Returned tt
       /\ run_binary w cppSource = Returned out)
    /\ (r_success r = true ->
        r_output r <> []
        /\ forall out, run_binary w cppSource = Returned out ->
                       r_output r = if nonempty out then out
                                    else u "(no output)").
Proof.
  intros w src r. unfold compileAndRun.
  destruct (which_gpp w) as [x|e].
  - destruct (write_source w src) as [[]|e1]; cbn [and_then try_catch].
    + destruct (run_compiler w src) as [[]|e2]; cbn [and_then try_catch].
      * destruct (run_binary w src) as [out|e3]; cbn [and_then try_catch];
          intro H; injection H as <-; cbn [r_success r_output].
        -- split.
           ++ split; [intros _; eauto 6|reflexivity].
           ++ intros _. split.
              ** destruct out; cbn; discriminate.
              ** intros out' E. injection E as <-. reflexivity.
        -- split; [|discriminate]. split; [discriminate|].
           intros (y & out & _ & _ & _ & E). discriminate E.
      * intro H; injection H as <-; cbn [r_success r_output].
        split; [|discriminate]. split; [discriminate|].
        intros (y & out & _ & _ & E & _). discriminate E.
    + intro H; injection H as <-; cbn [r_success r_output].
      split; [|discriminate]. split; [discriminate|].
      intros (y & out & _ & E & _). discriminate E.
  - intro H; injection H as <-; cbn [r_success r_output].
    split; [|discriminate]. split; [discriminate|].
    intros (y & out & E & _). discriminate E.
Qed.

Lemma success_means_all_steps_returned_witness :
  let w := {| which_gpp := Returned tt;
              write_source := fun _ => Returned tt;
              run_compiler := fun _ => Returned tt;
              run_binary := fun _ => Returned [] |} in
  compileAndRun w (u "int main() {}")
  = Returned {| r_success := true; r_output := u "(no output)" |}
  /\ u "(no output)" <> [].
Proof.
  intro w. split; [reflexivity|].
  pose proof (@success_means_all_steps_returned w (u "int main() {}")
                {| r_success := true; r_output := u "(no output)" |}
                eq_refl) as [_ H].
  exact (proj1 (H eq_refl)).
Defined.

(** ** Runs of the handlers *)

(** With room for seven arguments the engine takes every list of the ten
    examples. *)
Lemma ideas_translate max_args flowCode :
  (7 <= max_args)%nat -> In flowCode FLOW_IDEAS ->
  exists out, translateFlowToCpp max_args flowCode = Ok out.
Proof.
  intros H Hin.
  destruct (translate_lines_total (split_lines flowCode) init_state)
    as [st Hst].
  exists (assembled (finish st)).
  apply translateFlowToCpp_of_state; [exact Hst|].
  apply fits_le with (n := 7%nat); [exact H|].
  unfold FLOW_IDEAS in Hin. cbn [In] in Hin.
  repeat (destruct Hin as [<-|Hin];
          [vm_compute in Hst; injection Hst as <-; vm_compute; reflexivity|]).
  destruct Hin.
Qed.

Section EventFacts.
Variable Timestamp : Type.
Variable Pulse : Type.
Variable phi_pulse_of : N -> Pulse.
Variable max_args : nat.

Local Abbreviation Srv := (Server Timestamp Pulse).
Local Abbreviation Env := (Envelope Timestamp Pulse).

(** What one handler does, whatever the world answers: it raises when the
    translator does, and gets through the run and the logging otherwise. *)
Lemma handle_step (srv : Srv) (e : Event Timestamp) :
  match text_of srv e with
  | Some flowCode =>
      compiles e = true
      /\ match translateFlowToCpp max_args flowCode with
         | Throw => handle phi_pulse_of max_args srv e = Raised None
         | Ok out =>
             exists (srv' : Srv) (v : Env) (r : RunResult) (t1 : Timestamp),
               handle phi_pulse_of max_args srv e = Returned (srv', Some v)
               /\ v_flow v = flowCode /\ v_cpp v = out
               /\ r_output r = v_output v /\ r_success r = v_compiled v
               /\ (ledger srv', v_idea v)
                  = logIdea phi_pulse_of (ledger srv) t1 (v_flow v) (v_cpp v)
                      (v_compiled v) (v_output v)
               /\ perpetualTimer srv' = perpetualTimer srv
               /\ (if is_tick e
                   then v_type v = Perpetual
                        /\ perpetualIndex srv' = S (perpetualIndex srv)
                        /\ v_cycle v = Some (S (perpetualIndex srv))
                        /\ nth_error FLOW_IDEAS (perpetualIndex srv mod 10)
                           = Some (v_flow v)
                   else v_type v = Compiled
                        /\ perpetualIndex srv' = perpetualIndex srv
                        /\ v_cycle v = None)
         end
  | None =>
      compiles e = false
      /\ handle phi_pulse_of max_args srv e = Returned (srv, None)
  end.
Proof.
  destruct e as [w t1 t2 raw|w t1]; cbn [text_of compiles handle is_tick].
  - unfold on_message. cbv zeta.
    destruct (nonempty (trim raw)); [|split; reflexivity]. cbn [negb].
    split; [reflexivity|].
    destruct (translateFlowToCpp max_args (trim raw)) as [out|];
      cbn [lift and_then]; [|reflexivity].
    destruct (compileAndRun_returns w out) as [r ->].
    cbn [lift_run and_then].
    destruct (logIdea _ _ _ _ _ _ _) as [g idea] eqn:E.
    do 2 eexists. exists r, t1. split; [reflexivity|].
    cbn [v_flow v_cpp v_output v_compiled v_idea ledger perpetualTimer
         perpetualIndex v_type v_cycle].
    rewrite E. auto 10.
  - unfold perpetual_tick.
    assert (Hlt : (perpetualIndex srv mod 10 < length FLOW_IDEAS)%nat).
    { change (length FLOW_IDEAS) with 10%nat.
      apply Nat.mod_upper_bound. discriminate. }
    change (length FLOW_IDEAS) with 10%nat in *.
    destruct (nth_error FLOW_IDEAS (perpetualIndex srv mod 10))
      as [flowCode|] eqn:Ef.
    2:{ apply nth_error_None in Ef.
        change (length FLOW_IDEAS) with 10%nat in Ef. lia. }
    split; [reflexivity|].
    destruct (translateFlowToCpp max_args flowCode) as [out|];
      cbn [lift and_then]; [|reflexivity].
    destruct (compileAndRun_returns w out) as [r ->].
    cbn [lift_run and_then].
    destruct (logIdea _ _ _ _ _ _ _) as [g idea] eqn:E.
    do 2 eexists. exists r, t1. split; [reflexivity|].
    cbn [v_flow v_cpp v_output v_compiled v_idea ledger perpetualTimer
         perpetualIndex v_type v_cycle].
    rewrite E. auto 10.
Qed.

(** A handler whose text the translator returns for. *)
Lemma handle_translated (srv : Srv) (e : Event Timestamp) :
  (7 <= max_args)%nat -> translates max_args e = true ->
  if compiles e then
    exists (srv' : Srv) (v : Env) (t1 : Timestamp),
      handle phi_pulse_of max_args srv e = Returned (srv', Some v)
      /\ (ledger srv', v_idea v)
         = logIdea phi_pulse_of (ledger srv) t1 (v_flow v) (v_cpp v)
             (v_compiled v) (v_output v)
      /\ perpetualTimer srv' = perpetualTimer srv
      /\ (if is_tick e
          then v_type v = Perpetual
               /\ perpetualIndex srv' = S (perpetualIndex srv)
               /\ v_cycle v = Some (S (perpetualIndex srv))
               /\ nth_error FLOW_IDEAS (perpetualIndex srv mod 10)
                  = Some (v_flow v)
          else v_type v = Compiled
               /\ perpetualIndex srv' = perpetualIndex srv
               /\ v_cycle v = None)
  else handle phi_pulse_of max_args srv e = Returned (srv, None).
Proof.
  intros Hm Ht. pose proof (handle_step srv e) as Hs.
  destruct (text_of srv e) as [flowCode|] eqn:Et.
  - destruct Hs as [-> Hs].
    assert (Hok : exists out, translateFlowToCpp max_args flowCode = Ok out).
    { destruct e as [w t1 t2 raw|w t1]; cbn [text_of translates] in Et, Ht.
      - destruct (nonempty (trim raw)); [|discriminate].
        injection Et as <-.
        destruct (translateFlowToCpp max_args (trim raw)); [eauto|].
        discriminate.
      - apply nth_error_In in Et. now apply ideas_translate. }
    destruct Hok as [out Hok]. rewrite Hok in Hs.
    destruct Hs as (s1 & v & r & t1 & E & _ & _ & _ & _ & Hl & Hp & Hk).
    exists s1, v, t1. auto.
  - destruct Hs as [-> Hs]. exact Hs.
Qed.

Lemma logIdea_facts (g g' : Ledger Timestamp Pulse) t1 f c s o
  (i : Idea Timestamp Pulse) :
  (g', i) = logIdea phi_pulse_of g t1 f c s o ->
  compilationCount g' = compilationCount g + 1
  /\ id i = compilationCount g + 1
  /\ flow i = f /\ cpp i = c /\ success i = s /\ output i = o
  /\ ((length (ideaStream g) <= 500)%nat ->
      ideaStream g' = last500 (ideaStream g ++ [i])).
Proof.
  intro H.
  pose proof (@log_call_stream _ _ phi_pulse_of g
                {| c_now := t1; c_flow := f; c_cpp := c; c_success := s;
                   c_output := o |}) as Hs.
  unfold log_call in Hs. cbn [c_now c_flow c_cpp c_success c_output] in Hs.
  rewrite <- H in Hs. cbn [fst snd] in Hs.
  unfold logIdea in H. injection H as -> ->.
  cbn [compilationCount id flow cpp success output]. auto 10.
Qed.

(** X5: a handler raises only where the translator does.  As long as the
    translator returns for the text of every message (the engine takes the
    lists of the ten examples once it takes seven arguments), whatever
    messages arrive and whenever the timer fires, and whatever the
    toolchain answers, every handler gets through the translation, the run
    and the logging; exactly the events that compile (every firing, every
    message that is not blank) hand one envelope each to [broadcast]; the
    counter advances by their number and the cycle index by the number of
    firings; and the ledger holds the last 500 of its former entries
    followed by the ideas of the envelopes, in order.  A message for whose
    text the translator raises makes its handler raise, which nothing
    catches.  The sending itself is not modelled. *)
Theorem handlers_raise_only_in_translation :
  forall (es : list (Event Timestamp)) (srv : Srv),
  (length (ideaStream (ledger srv)) <= 500)%nat ->
  (7 <= max_args)%nat ->
  (forallb (translates max_args) es = true ->
   exists (srv' : Srv) (vs : list Env),
     run_events phi_pulse_of max_args srv es = Returned (srv', vs)
     /\ length vs = count_events (@compiles _) es
     /\ compilationCount (ledger srv')
        = compilationCount (ledger srv) + N.of_nat (length vs)
     /\ perpetualIndex srv'
        = (perpetualIndex srv + count_events (@is_tick _) es)%nat
     /\ perpetualTimer srv' = perpetualTimer srv
     /\ ideaStream (ledger srv')
        = last500 (ideaStream (ledger srv) ++ map (@v_idea _ _) vs))
  /\ (forall (w : World) (t1 t2 : Timestamp) (raw : str)
             (rest : list (Event Timestamp)),
        nonempty (trim raw) = true ->
        translateFlowToCpp max_args (trim raw) = Throw ->
        run_events phi_pulse_of max_args srv (Message w t1 t2 raw :: rest)
        = Raised None).
Proof.
  intros es srv Hb Hm. split.
  - unfold count_events. revert srv Hb.
    induction es as [|e rest IH]; intros srv Hb Ht; cbn [run_events].
    + exists srv, []. cbn [length filter map].
      rewrite app_nil_r, N.add_0_r.
      rewrite Nat.add_0_r, (last500_short _ Hb). auto 10.
    + cbn [forallb] in Ht. apply andb_true_iff in Ht.
      destruct Ht as [Hte Htr].
      pose proof (handle_translated srv e Hm Hte) as Hs. cbn [filter].
      destruct (compiles e) eqn:Ec.
      * destruct Hs as (s1 & v & t1 & -> & Hl & Ht & Hk).
        apply logIdea_facts in Hl.
        destruct Hl as (Hc & _ & _ & _ & _ & _ & Hstream).
        specialize (Hstream Hb). cbn [and_then fst snd].
        assert (Hb1 : (length (ideaStream (ledger s1)) <= 500)%nat)
          by (rewrite Hstream; apply last500_length).
        destruct (IH s1 Hb1 Htr)
          as (s2 & vs & -> & Hn & Hc2 & Hi2 & Ht2 & Hs2).
        cbn [and_then fst snd]. exists s2, (v :: vs).
        split; [reflexivity|]. cbn [length map].
        split; [now rewrite Hn|]. split; [lia|]. split.
        { destruct (is_tick e); cbn [length];
            destruct Hk as (_ & Hk & _); lia. }
        split; [congruence|].
        rewrite Hs2, Hstream, last500_app, <- app_assoc. reflexivity.
      * rewrite Hs. cbn [and_then fst snd].
        destruct (IH srv Hb Htr)
          as (s2 & vs & -> & Hn & Hc2 & Hi2 & Ht2 & Hs2).
        cbn [and_then fst snd]. exists s2, vs. split; [reflexivity|].
        assert (Hk : is_tick e = false)
          by (destruct e; [reflexivity|discriminate]).
        rewrite Hk. auto 10.
  - intros w t1 t2 raw rest Hn Ht. cbn [run_events].
    pose proof (handle_step srv (Message w t1 t2 raw)) as Hs.
    cbn [text_of] in Hs. rewrite Hn, Ht in Hs. destruct Hs as [_ ->].
    reflexivity.
Qed.

(** X6: an envelope agrees with the idea it carries and with the ledger.
    When a handler broadcasts, the generated source in the envelope is the
    translation of the text in it, the idea inside holds the same text,
    source, output and verdict, its identifier is the new value of the
    counter, and it is the newest entry of the ledger. *)
Theorem envelope_matches_idea :
  forall (srv srv' : Srv) (e : Event Timestamp) (v : Env),
    handle phi_pulse_of max_args srv e = Returned (srv', Some v) ->
    translateFlowToCpp max_args (v_flow v) = Ok (v_cpp v)
    /\ flow (v_idea v) = v_flow v /\ cpp (v_idea v) = v_cpp v
    /\ output (v_idea v) = v_output v
    /\ success (v_idea v) = v_compiled v
    /\ id (v_idea v) = compilationCount (ledger srv')
    /\ compilationCount (ledger srv') = compilationCount (ledger srv) + 1
    /\ last (ideaStream (ledger srv')) (v_idea v) = v_idea v
    /\ ideaStream (ledger srv') <> [].
Proof.
  intros srv srv' e v H. pose proof (handle_step srv e) as Hs.
  destruct (text_of srv e) as [flowCode|].
  - destruct Hs as [_ Hs].
    destruct (translateFlowToCpp max_args flowCode) as [out|] eqn:Htr;
      [|rewrite Hs in H; discriminate].
    destruct Hs as (s1 & v1 & r & t1 & E & Hvf & Hvc & _ & _ & Hl & _).
    rewrite E in H. injection H as <- <-.
    split; [now rewrite Hvf, Hvc|].
    assert (Hst : exists front, ideaStream (ledger s1) = front ++ [v_idea v1]).
    { unfold logIdea in Hl. injection Hl as -> ->. cbn [ideaStream].
      destruct (ideaStream (ledger srv)) as [|x l]; cbn [app length].
      - now exists [].
      - destruct (500 <? _)%nat; cbn [shift tl];
          [now exists l|now exists (x :: l)]. }
    apply logIdea_facts in Hl. destruct Hl as (Hc & Hi & Hf & Hp & Hv & Ho & _).
    destruct Hst as [front ->]. rewrite last_last.
    repeat split; try assumption; try congruence.
    now destruct front.
  - destruct Hs as [_ Hs]. rewrite Hs in H. discriminate.
Qed.

(** X7: the perpetual examples come round in order.  From any cycle index
    [c], [n] firings of the timer broadcast [n] envelopes that carry the
    cycle numbers [c+1] to [c+n] and the examples number [c mod 10],
    [(c+1) mod 10] and so on of [FLOW_IDEAS]; the longest list the examples
    make the assembly spread has seven lines, which the engine is to
    take. *)
Theorem perpetual_motion_cycles :
  forall (ticks : list (World * Timestamp)) (srv : Srv),
  (7 <= max_args)%nat ->
  exists (srv' : Srv) (vs : list Env),
    run_events phi_pulse_of max_args srv
      (map (fun x => Tick (fst x) (snd x)) ticks)
    = Returned (srv', vs)
    /\ map (@v_cycle _ _) vs
       = map (fun k => Some (S k))
           (seq (perpetualIndex srv) (length ticks))
    /\ map (fun v => Some (v_flow v)) vs
       = map (fun k => nth_error FLOW_IDEAS (k mod 10))
           (seq (perpetualIndex srv) (length ticks))
    /\ Forall (fun v => v_type v = Perpetual) vs.
Proof.
  induction ticks as [|[w t1] rest IH]; intros srv Hm;
    cbn [map run_events length seq fst snd].
  - exists srv, []. cbn [map]. auto.
  - pose proof (handle_translated srv (Tick w t1) Hm eq_refl) as Hs.
    cbn [compiles is_tick] in Hs.
    destruct Hs as (s1 & v & t & -> & _ & _ & Hk).
    destruct Hk as (Hty & Hix & Hcy & Hfl). cbn [and_then fst snd].
    destruct (IH s1 Hm) as (s2 & vs & -> & Hc & Hf & Ha).
    cbn [and_then fst snd]. exists s2, (v :: vs).
    split; [reflexivity|]. cbn [map]. rewrite Hix in Hc, Hf.
    rewrite Hc, Hf, Hcy, Hfl. auto.
Qed.
End EventFacts.

Lemma handlers_raise_only_in_translation_witness :
  let srv := {| ledger := empty_ledger unit unit; perpetualIndex := 7;
                perpetualTimer := true |} in
  let w := {| which_gpp := Returned tt;
              write_source := fun _ => Returned tt;
              run_compiler := fun _ => Returned tt;
              run_binary := fun _ => Returned [] |} in
  (exists srv' vs,
      run_events (fun _ => tt) 8 srv
        [Tick w tt; Message w tt tt (u "   "); Message w tt tt (u "say 1")]
      = Returned (srv', vs)
      /\ length vs = 2%nat)
  /\ run_events (fun _ => tt) 8 srv
       [Message w tt tt (join nl (repeat (u "?") 9)); Tick w tt]
     = Raised None.
Proof.
  intros srv w.
  destruct (@handlers_raise_only_in_translation unit unit (fun _ => tt) 8
              [Tick w tt; Message w tt tt (u "   ");
               Message w tt tt (u "say 1")] srv) as [Hr Hx].
  - cbn. lia.
  - lia.
  - split.
    + destruct Hr as (srv' & vs & H & Hn & _); [vm_compute; reflexivity|].
      exists srv', vs. split; [exact H|exact Hn].
    + apply Hx; vm_compute; reflexivity.
Defined.

Lemma envelope_matches_idea_witness :
  let srv := {| ledger := empty_ledger unit unit; perpetualIndex := 0;
                perpetualTimer := false |} in
  let w := {| which_gpp := Returned tt;
              write_source := fun _ => Returned tt;
              run_compiler := fun _ => Returned tt;
              run_binary := fun _ => Returned [] |} in
  exists srv' v,
    handle (fun _ => tt) 1000 srv (Message w tt tt (u "say 1"))
    = Returned (srv', Some v)
    /\ id (v_idea v) = compilationCount (ledger srv').
Proof.
  intros srv w.
  destruct (handle (fun _ => tt) 1000 srv (Message w tt tt (u "say 1")))
    as [[s [v|]]|e] eqn:H.
  - exists s, v. split; [reflexivity|].
    exact (proj1 (proj2 (proj2 (proj2 (proj2 (proj2
             (@envelope_matches_idea unit unit (fun _ => tt) 1000 _ _ _ _
                H))))))).
  - vm_compute in H. discriminate H.
  - vm_compute in H. discriminate H.
Defined.

Lemma perpetual_motion_cycles_witness :
  let srv := {| ledger := empty_ledger unit unit; perpetualIndex := 9;
                perpetualTimer := true |} in
  let w := {| which_gpp := Returned tt;
              write_source := fun _ => Returned tt;
              run_compiler := fun _ => Returned tt;
              run_binary := fun _ => Returned [] |} in
  (7 <= 1000)%nat
  /\ exists srv' vs,
       run_events (fun _ => tt) 1000 srv [Tick w tt; Tick w tt]
       = Returned (srv', vs)
       /\ map (@v_cycle _ _) vs = [Some 10%nat; Some 11%nat]
       /\ map (fun v => Some (v_flow v)) vs
          = [nth_error FLOW_IDEAS 9; nth_error FLOW_IDEAS 0].
Proof.
  intros srv w. split; [lia|].
  destruct (@perpetual_motion_cycles unit unit (fun _ => tt) 1000
              [(w, tt); (w, tt)] srv) as (srv' & vs & H & Hc & Hf & _).
  - lia.
  - exists srv', vs. split; [exact H|]. split; [exact Hc|exact Hf].
Defined.

(** ** The include set, again *)

Lemma In_set_add x y l : In y (set_add x l) <-> In y l \/ y = x.
Proof.
  unfold set_add. destruct (includes_str l x) eqn:E.
  - apply includes_str_In in E. split; [tauto|]. intros [H| ->]; assumption.
  - rewrite in_app_iff. cbn [In]. intuition congruence.
Qed.

Lemma includes_ok_line st raw st' :
  translate_line st raw = Ok st' ->
  includes_ok (includes st) -> includes_ok (includes st').
Proof.
  intros H [Hk Hp]. apply translate_line_includes in H.
  assert (K : forall x l, In x known_includes ->
                Forall (fun y => In y known_includes) l ->
                Forall (fun y => In y known_includes) (set_add x l)).
  { intros x l Hx Hl. apply Forall_forall. intros y Hy.
    apply In_set_add in Hy. destruct Hy as [Hy| ->]; [|exact Hx].
    revert y Hy. now apply Forall_forall. }
  destruct H as [-> | [-> | [-> | ->]]].
  - now split.
  - split.
    + apply K; [cbn; tauto|]. apply K; [cbn; tauto|]. exact Hk.
    + rewrite !In_set_add. split; intros _; [now right|left; now right].
  - split.
    + apply K; [cbn; tauto|exact Hk].
    + rewrite !In_set_add. split; (intros [H|H]; [left; tauto|discriminate H]).
  - split.
    + apply K; [cbn; tauto|exact Hk].
    + rewrite !In_set_add. split; (intros [H|H]; [left; tauto|discriminate H]).
Qed.

Lemma includes_ok_lines : forall rawLines st st',
  translate_lines st rawLines = Ok st' ->
  includes_ok (includes st) -> includes_ok (includes st').
Proof.
  induction rawLines as [|raw rest IH]; intros st st' H Hok;
    cbn [translate_lines] in H.
  - now injection H as <-.
  - destruct (translate_line st raw) as [st1|] eqn:E; [|discriminate].
    cbn [bind] in H. eapply IH; [eassumption|].
    eapply includes_ok_line; eassumption.
Qed.

(** X8: whatever the text, the loop ends, without raising, with at most
    ten include directives, all among the ten the source names, and
    [<thread>] is among them exactly when [<chrono>] is; the translator
    then returns the assembled text that begins with them, or raises when
    a list the assembly spreads is longer than the engine takes. *)
Theorem includes_are_known : forall (max_args : nat) (flowCode : str),
  exists st : State,
    translate_lines init_state (split_lines flowCode) = Ok st
    /\ translateFlowToCpp max_args flowCode
       = (if fits max_args (finish st)
          then Ok (join nl
                     (includes (finish st)
                      ++ [[]; u "// " ++ [966%N] ++ u " = 1.618033988749895";
                          []]
                      ++ structs (finish st)
                      ++ closeBlocks (declarations (finish st))
                      ++ [u "int main() {"]
                      ++ closeBlocks (bodyLines (finish st))
                      ++ [u "    return 0;"; u "}"]))
          else Throw)
    /\ Forall (fun x => In x known_includes) (includes (finish st))
    /\ (length (includes (finish st)) <= 10)%nat
    /\ (In (u "#include <thread>") (includes (finish st))
        <-> In (u "#include <chrono>") (includes (finish st))).
Proof.
  intros max_args flowCode.
  destruct (translateFlowToCpp_loop max_args flowCode) as (st & Hst & Hout).
  exists st. split; [exact Hst|].
  split; [rewrite Hout; apply assemble_fits|].
  destruct (includes_of_translation flowCode Hst) as (Hn & _ & _).
  assert (Hok : includes_ok (includes (finish st))).
  { rewrite includes_finish. eapply includes_ok_lines; [exact Hst|].
    split.
    - cbn [includes init_state]. apply Forall_forall. intros x Hx.
      unfold known_includes. apply in_or_app. now left.
    - cbn [includes init_state]. unfold init_includes. cbn [In].
      split; intro H; repeat (destruct H as [H|H]; [discriminate H|]);
        destruct H. }
  destruct Hok as [Hk Hp]. split; [exact Hk|]. split; [|exact Hp].
  change 10%nat with (length known_includes).
  apply NoDup_incl_length; [exact Hn|].
  intros x Hx. revert x Hx. now apply Forall_forall.
Qed.

(** ** Where a line is written *)

Ltac frame_tac fin :=
  repeat first
    [ progress unfold expr_of, cond_of
    | match goal with
      | |- Throw = Ok _ -> _ => discriminate
      | |- Ok _ = Ok _ -> _ =>
          let H := fresh in
          intro H; injection H as <-; fin
      | |- match re_match ?r ?l with _ => _ end = _ -> _ =>
          destruct (re_match r l)
      | |- match (match re_match ?r ?l with _ => _ end)
             with _ => _ end = _ -> _ =>
          destruct (re_match r l)
      | |- match (if ?g then _ else _) with _ => _ end = _ -> _ =>
          destruct g
      | |- (if ?g then _ else _) = _ -> _ => destruct g
      | |- bind _ _ = _ -> _ =>
          match goal with
          | |- context [need ?v] => destruct v; cbn [need bind]
          end
      end ].

Ltac grows :=
  cbn [push_target push_decl push_body add_include declarations bodyLines
       set_inFunction set_function structs inFunction];
  rewrite <- ?app_assoc;
  first [ now (exists []; rewrite app_nil_r)
        | eexists; cbn [app]; split; [reflexivity|discriminate] ].

(** A statement met while a function is open writes to the declarations,
    at least one line, and not to [main]. *)
Lemma statement_frame_decl line st st' :
  statement true line st = Ok st' ->
  bodyLines st' = bodyLines st
  /\ structs st' = structs st
  /\ exists more, declarations st' = declarations st ++ more /\ more <> [].
Proof.
  unfold statement, assignment, other_statement.
  frame_tac ltac:(split; [reflexivity|]; split; [reflexivity|]; grows).
Qed.

(** Met outside a function, it writes to [main], unless it is the header of
    a method. *)
Lemma statement_frame_body line st st' :
  statement false line st = Ok st' ->
  structs st' = structs st
  /\ ((declarations st' = declarations st
       /\ inFunction st' = inFunction st
       /\ exists more, bodyLines st' = bodyLines st ++ more /\ more <> [])
      \/ (inFunction st' = true /\ bodyLines st' = bodyLines st
          /\ exists header, declarations st' = declarations st ++ [header])).
Proof.
  unfold statement, assignment, other_statement.
  frame_tac ltac:(split; [reflexivity|];
                  first [ left; split; [reflexivity|];
                          split; [reflexivity|]; grows
                        | right; split; [reflexivity|];
                          split; [reflexivity|]; eexists; reflexivity ]).
Qed.

Lemma startsWith_app : forall p q l,
  startsWith (p ++ q) l = true -> startsWith p l = true.
Proof.
  induction p as [|x p IH]; intros q l H; [reflexivity|].
  destruct l as [|y l]; cbn [app startsWith] in *; [discriminate H|].
  apply andb_true_iff in H. destruct H as [-> H]. cbn [andb]. eauto.
Qed.

Lemma to_rules_need_to r line :
  startsWith (u "to") line = false ->
  re_match (Seq Bol (Seq (Lit (u "to")) (Seq ws1 r))) line = None.
Proof.
  intro H.
  destruct (re_match _ line) as [m|] eqn:E; [|reflexivity].
  apply keyword_first in E. destruct E as (c & t & -> & _).
  cbn in H. discriminate H.
Qed.

Lemma dedent_frame indent line st :
  bodyLines (dedent indent line st) = bodyLines st
  /\ structs (dedent indent line st) = structs st
  /\ inStruct (dedent indent line st) = inStruct st.
Proof. unfold dedent. now destruct (_ && _ && _ && _). Qed.

Lemma struct_dedent_frame indent st :
  bodyLines (struct_dedent indent st) = bodyLines st
  /\ declarations (struct_dedent indent st) = declarations st
  /\ inFunction (struct_dedent indent st) = inFunction st.
Proof. unfold struct_dedent. now destruct (Nat.eqb indent 0). Qed.

(** What follows the two function headers in the body of the loop, from a
    state [st1] in which the dedent has been detected. *)
Lemma line_tail_frame tgt indent line st1 st' :
  (on re_struct in line as m do
     Ok (set_struct true (grp 1 m)
           (push_struct (u "struct " ++ tpl (grp 1 m) ++ u " {") st1))
   orelse
   if inStruct st1 then
     on re_field in line as m do
       Ok (push_struct
             (pad ++ typeMap (grp 2 m) ++ u " " ++ tpl (grp 1 m) ++ u ";")
             st1)
     orelse statement tgt line (struct_dedent indent st1)
   else statement tgt line st1) = Ok st' ->
  if tgt
  then bodyLines st' = bodyLines st1
       /\ exists more, declarations st' = declarations st1 ++ more
  else declarations st' = declarations st1
       \/ (inFunction st' = true
           /\ bodyLines st' = bodyLines st1
           /\ exists header, declarations st' = declarations st1 ++ [header]).
Proof.
  assert (S : forall st2,
             bodyLines st2 = bodyLines st1 ->
             declarations st2 = declarations st1 ->
             statement tgt line st2 = Ok st' ->
             if tgt
             then bodyLines st' = bodyLines st1
                  /\ exists more, declarations st' = declarations st1 ++ more
             else declarations st' = declarations st1
                  \/ (inFunction st' = true
                      /\ bodyLines st' = bodyLines st1
                      /\ exists header,
                           declarations st' = declarations st1 ++ [header])).
  { intros st2 Hb Hd H. destruct tgt.
    - apply statement_frame_decl in H.
      destruct H as (Hb' & _ & more & Hm & _).
      split; [congruence|]. exists more. congruence.
    - apply statement_frame_body in H.
      destruct H as (_ & [(Hd' & _)|(Hf & Hb' & header & Hh)]).
      + left. congruence.
      + right. split; [exact Hf|]. split; [congruence|].
        exists header. congruence. }
  destruct (re_match re_struct line).
  { intro H; injection H as <-. destruct tgt.
    - split; [reflexivity|]. exists []. now rewrite app_nil_r.
    - now left. }
  destruct (inStruct st1).
  - destruct (re_match re_field line).
    { intro H; injection H as <-. destruct tgt.
      - split; [reflexivity|]. exists []. now rewrite app_nil_r.
      - now left. }
    apply S; apply struct_dedent_frame.
  - now apply S.
Qed.

(** X9: the array a line is written to is chosen before the open function
    is closed.  While a function is open no line adds to the lines of
    [main]: not even the line of indentation zero that closes the function,
    whose translation is written among the declarations after the closing
    delimiter.  Outside a function a line leaves the declarations as they
    are, unless it is a header that opens a function, which adds one
    line. *)
Theorem target_is_chosen_before_dedent : forall (st st' : State) (raw : str),
  translate_line st raw = Ok st' ->
  (inFunction st = true ->
   bodyLines st' = bodyLines st
   /\ (indent_of raw = 0%nat -> skipped (trim raw) = false ->
       startsWith (u "to") (trim raw) = false ->
       exists more,
         declarations st' = declarations st ++ fn_close :: more))
  /\ (inFunction st = false ->
      declarations st' = declarations st
      \/ (inFunction st' = true
          /\ bodyLines st' = bodyLines st
          /\ exists header, declarations st' = declarations st ++ [header])).
Proof.
  intros st st' raw. unfold translate_line, indent_of, skipped. cbv zeta.
  set (line := trim raw). set (indent := (length raw - _)%nat).
  destruct (_ || _ || _) eqn:Hskip.
  { intro H; injection H as <-. split.
    - intros _. split; [reflexivity|]. intros _ H. discriminate H.
    - intros _. now left. }
  destruct (startsWith (u "to") line) eqn:Hto.
  - destruct (re_match re_to_start line).
    { intro H; injection H as <-. split.
      - intros _. split; [reflexivity|]. intros _ _ H. discriminate H.
      - intros _. now left. }
    destruct (re_match re_to line).
    { destruct (grp 2 c); cbn [need bind]; [|discriminate].
      intro H; injection H as <-. split.
      - intros _. split; [reflexivity|]. intros _ _ H. discriminate H.
      - intros _. right. split; [reflexivity|]. split; [reflexivity|].
        eexists. reflexivity. }
    intro H. apply line_tail_frame in H.
    destruct (inFunction st) eqn:Hin.
    + split; [|discriminate]. intros _.
      destruct H as (Hb & _). split; [|intros _ _ H; discriminate H].
      rewrite Hb. apply dedent_frame.
    + split; [discriminate|]. intros _. unfold dedent in H.
      now rewrite Hin in H.
  - unfold re_to_start, re_to, kw. cbn [seqs].
    rewrite !(@to_rules_need_to _ line Hto).
    intro H. apply line_tail_frame in H.
    destruct (inFunction st) eqn:Hin.
    + split; [|discriminate]. intros _.
      destruct H as (Hb & more & Hm). split; [rewrite Hb; apply dedent_frame|].
      intros Hi _ _. fold indent in Hi. unfold dedent in Hm.
      rewrite Hin, Hi in Hm.
      apply orb_false_elim in Hskip. destruct Hskip as [Hskip _].
      apply orb_false_elim in Hskip. destruct Hskip as [Hne _].
      apply negb_false_iff in Hne. rewrite Hne in Hm.
      assert (Hto' : startsWith (u "to ") line = false).
      { destruct (startsWith (u "to ") line) eqn:E; [|reflexivity].
        apply (startsWith_app (u "to") (u " ")) in E. congruence. }
      rewrite Hto' in Hm. cbn [andb negb Nat.eqb] in Hm.
      exists more. rewrite Hm. cbn [end_function set_function push_decl
                                   declarations].
      rewrite <- app_assoc. reflexivity.
    + split; [discriminate|]. intros _. unfold dedent in H.
      now rewrite Hin in H.
Qed.

Lemma target_is_chosen_before_dedent_witness :
  let st := set_function true (Some (u "f"))
              (push_decl (u "auto f() {") init_state) in
  exists st',
    translate_line st (u "say 1") = Ok st'
    /\ bodyLines st' = []
    /\ declarations st'
       = [u "auto f() {"; fn_close; u "    std::cout << 1 << std::endl;"].
Proof.
  intro st. eexists. split; [vm_compute; reflexivity|].
  destruct (@target_is_chosen_before_dedent st _ (u "say 1") eq_refl)
    as [H _].
  destruct (H eq_refl) as [Hb _]. split; [exact Hb|]. reflexivity.
Defined.

(** ** Blank lines and comments *)

Lemma translate_lines_skip : forall (ls : list str) (st : State),
  translate_lines st (filter (fun raw => negb (skipped (trim raw))) ls)
  = translate_lines st ls.
Proof.
  induction ls as [|raw rest IH]; intro st; [reflexivity|].
  cbn [filter]. destruct (skipped (trim raw)) eqn:E; cbn [negb].
  - cbn [translate_lines]. unfold translate_line. cbv zeta.
    unfold skipped in E. rewrite E. cbn [bind]. apply IH.
  - cbn [translate_lines]. destruct (translate_line st raw); cbn [bind];
      [apply IH|reflexivity].
Qed.

(** X10: blank lines and comments do not count.  A program and the program
    without its blank lines and without its lines that begin, after the
    indentation, with [//] or [#] have the same translation: such a line
    writes nothing and closes nothing, whatever its indentation and wherever
    it stands. *)
Theorem comments_do_not_count : forall (max_args : nat) (ls : list str),
  forallb no_line_feed ls = true ->
  translateFlowToCpp max_args
    (join nl (filter (fun raw => negb (skipped (trim raw))) ls))
  = translateFlowToCpp max_args (join nl ls).
Proof.
  intros max_args ls H. unfold translateFlowToCpp.
  set (keep := filter _ ls).
  assert (Hk : forallb no_line_feed keep = true).
  { apply forallb_forall. intros x Hx. apply filter_In in Hx.
    destruct Hx as [Hx _]. revert x Hx. now apply forallb_forall. }
  assert (E : forall l, forallb no_line_feed l = true ->
                translate_lines init_state (split_lines (join nl l))
                = translate_lines init_state l).
  { intros l Hl. destruct l as [|a l']; [reflexivity|].
    now rewrite split_lines_join by (try exact Hl; discriminate). }
  rewrite (E keep Hk), (E ls H). unfold keep.
  now rewrite translate_lines_skip.
Qed.

Lemma comments_do_not_count_witness :
  translateFlowToCpp 1000
    (u "to greet:" ++ nl ++ u "    say 1" ++ nl ++ u "// a note" ++ nl
     ++ nl ++ u "    say 2")
  = translateFlowToCpp 1000 (u "to greet:" ++ nl ++ u "    say 1" ++ nl
                             ++ u "    say 2").
Proof.
  symmetry.
  exact (@comments_do_not_count 1000
           [u "to greet:"; u "    say 1"; u "// a note"; []; u "    say 2"]
           eq_refl).
Defined.

(** ** Text the rewriters leave alone *)

Lemma match_here_initial (c : char) (K : str) (r : re) p s :
  match s with [] => True | x :: _ => x <> c end ->
  match_here (Seq WordB (Seq (Lit (c :: K)) r)) p s = None.
Proof.
  intro H. unfold match_here. rewrite exec_seq. cbn [exec].
  destruct (xorb _ _); [|reflexivity].
  destruct s as [|x t].
  - destruct K; reflexivity.
  - assert (E : (x =? c) = false) by now apply N.eqb_neq.
    destruct K; cbn [Lit exec]; now rewrite E.
Qed.

Lemma replace_go_untouched (r : re) (by_ : str) (P : char -> bool) :
  (forall p s, match s with [] => True | x :: _ => P x = false end ->
               match_here r p s = None) ->
  forall fuel s p,
    forallb (fun c => negb (P c)) s = true ->
    replace_go fuel r by_ p s = s.
Proof.
  intros Hr. induction fuel as [|fuel IH]; intros s p Hs; [reflexivity|].
  cbn [replace_go]. rewrite Hr.
  - destruct s as [|c t]; [reflexivity|]. cbn [forallb] in Hs.
    apply andb_true_iff in Hs. destruct Hs as [_ Ht]. f_equal. now apply IH.
  - destruct s as [|c t]; [exact I|]. cbn [forallb] in Hs.
    apply andb_true_iff in Hs. destruct Hs as [Hc _].
    now apply negb_true_iff in Hc.
Qed.

Lemma replace_all_untouched (K : str) (r : re) (by_ s : str) :
  match K with c :: _ => keyword_initial c | [] => false end = true ->
  free_of_keywords s = true ->
  replace_all (Seq WordB (Seq (Lit K) r)) by_ s = s.
Proof.
  intros Hc Hs. unfold replace_all. destruct K as [|c K]; [discriminate|].
  apply (@replace_go_untouched _ by_ keyword_initial); [|exact Hs].
  intros p t Ht. apply match_here_initial.
  destruct t as [|x t']; [exact I|]. intros ->. congruence.
Qed.

(** X11: the rewriters leave alone what holds no keyword.  A text without
    the letters [a], [i], [m], [n], [o] and [y], with which the keywords
    [and], [is], [mod], [no], [not], [or] and [yes] begin, is returned
    unchanged by [translateExpr] and by [translateCond]: numbers,
    operators, brackets and quoted text pass through as they are. *)
Theorem rewriters_keep_keyword_free_text : forall s : str,
  free_of_keywords s = true ->
  translateExpr s = s /\ translateCond s = s.
Proof.
  intros s H. unfold translateExpr, translateCond, re_word, re_not,
    re_is_not, kw. cbn [seqs].
  split;
    repeat (rewrite (fun K r b Hk => @replace_all_untouched K r b s Hk H)
              by reflexivity);
    reflexivity.
Qed.

Lemma rewriters_keep_keyword_free_text_witness :
  translateExpr (u "(x + 2) * 3 <= 10") = u "(x + 2) * 3 <= 10"
  /\ translateCond (u "(x + 2) * 3 <= 10") = u "(x + 2) * 3 <= 10".
Proof.
  exact (@rewriters_keep_keyword_free_text (u "(x + 2) * 3 <= 10") eq_refl).
Defined.

(** ** Lines that begin with a word *)

Section MoreSteps.
Variable A : Type.
Implicit Type k : cont A.

Lemma exec_lit : forall K s p cs k,
  K <> [] -> exec (Lit K) p (K ++ s) cs k = k (last_opt p K) s cs.
Proof.
  induction K as [|c K IH]; intros s p cs k Hn; [congruence|].
  destruct K as [|d K].
  - cbn [Lit app]. now rewrite exec_chr_eq.
  - change (Lit (c :: d :: K)) with (Seq (Chr c) (Lit (d :: K))).
    change ((c :: d :: K) ++ s) with (c :: (d :: K) ++ s).
    rewrite exec_seq, exec_chr_eq.
    now rewrite (IH s (Some c) cs k) by discriminate.
Qed.

(** White space before a text that begins outside it is read whole. *)
Lemma exec_ws1_headed c rhs p cs k :
  is_space c = true -> headed is_space rhs ->
  exec ws1 p (c :: rhs) cs k = k (Some c) rhs cs.
Proof.
  intros Hc Hr. unfold ws1. rewrite exec_plus_cls by exact Hc.
  rewrite exec_star_cls. destruct rhs as [|h t]; [reflexivity|].
  cbn [headed] in Hr. now rewrite Hr.
Qed.

(** The first word of a line is read whole by a rule that goes on with
    white space. *)
Lemma exec_first_word r x rest p cs k :
  identifier x -> headed is_word rest ->
  exec (Seq (Group 1 word) (Seq ws1 r)) p (x ++ rest) cs k
  = exec (Seq ws1 r) (last_opt p x) rest ((1%nat, x) :: cs) k.
Proof.
  intros [Hn Hw] Hr. rewrite exec_seq, exec_group. unfold word.
  rewrite exec_plus_cls_cut; try assumption.
  - now rewrite firstn_consumed.
  - intros p' c t cs' Hc. rewrite exec_seq. unfold ws1, Plus.
    rewrite exec_seq. apply exec_cls_out. now apply word_not_space.
Qed.
End MoreSteps.

Lemma last_opt_cons p c K : last_opt p (c :: K) = last_opt (Some c) K.
Proof. reflexivity. Qed.

(** A line made of a keyword, a blank and a text is taken by the rule of
    that keyword if the tail of the rule takes the text. *)
Lemma kw_then_matches K tail rhs :
  K <> [] -> headed is_space rhs ->
  re_match (kw_then K tail) (K ++ 32 :: rhs)
  = match exec tail (Some 32) rhs [] k_found with
    | Some f => Some (f_caps f)
    | None => None
    end.
Proof.
  intros HK Hr. unfold kw_then. rewrite re_match_anchored.
  unfold match_here. fold k_found.
  rewrite exec_seq, exec_bol, exec_seq, exec_lit, exec_seq by exact HK.
  now rewrite exec_ws1_headed by (try exact Hr; reflexivity).
Qed.

(** A line made of a name, a blank, a keyword, a blank and a text is taken
    by the rule of that keyword if the tail of the rule takes the text. *)
Lemma word_then_matches K tail x rhs :
  identifier x -> K <> [] -> headed is_space K -> headed is_space rhs ->
  re_match (word_then K tail) (x ++ 32 :: K ++ 32 :: rhs)
  = match exec tail (Some 32) rhs [(1%nat, x)] k_found with
    | Some f => Some (f_caps f)
    | None => None
    end.
Proof.
  intros Hx HK Hh Hr. unfold word_then. rewrite re_match_anchored.
  unfold match_here. fold k_found.
  rewrite exec_seq, exec_bol, exec_first_word by (try exact Hx; reflexivity).
  rewrite exec_seq, exec_ws1_headed.
  - rewrite exec_seq, exec_lit, exec_seq by exact HK.
    now rewrite exec_ws1_headed by (try exact Hr; reflexivity).
  - reflexivity.
  - destruct K as [|c K']; [congruence|exact Hh].
Qed.

(** What a rule of either shape asks of the line it takes. *)
Lemma kw_then_first K r line m :
  re_match (kw_then K r) line = Some m -> led_by K line.
Proof. intro H. exact (keyword_first _ _ _ H). Qed.

Lemma Matches_grp_other r p s cs p' s' cs' (i : nat) :
  Matches r p s cs p' s' cs' -> mentions r i = false -> grp i cs' = grp i cs.
Proof.
  induction 1 as [ | | ? ? ? ? ? ? ? ? ? ? ? _ IH1 _ IH2 | | |
                   | ? ? ? ? ? ? ? ? ? ? _ IH1 _ IH2 | | | | | ];
    cbn [mentions]; intro Hm; try reflexivity;
    try (apply orb_false_elim in Hm; destruct Hm as [Ha Hb]); auto.
  - rewrite IH2, IH1 by assumption. reflexivity.
  - rewrite IH2 by exact Hm. now apply IH1.
  - cbn [grp]. rewrite Ha. now apply IHMatches.
Qed.

Lemma mentions_Lit : forall K i, mentions (Lit K) i = false.
Proof.
  induction K as [|c K IH]; intro i; [reflexivity|].
  destruct K as [|d K]; [reflexivity|].
  change (Lit (c :: d :: K)) with (Seq (Chr c) (Lit (d :: K))).
  cbn [mentions]. apply IH.
Qed.

Lemma word_then_first K r line m :
  mentions r 1 = false ->
  re_match (word_then K r) line = Some m ->
  exists w sp rest,
    line = w ++ sp ++ rest /\ identifier w
    /\ sp <> [] /\ forallb is_space sp = true /\ led_by K rest
    /\ grp 1 m = Some w.
Proof.
  intro Hm. unfold word_then. rewrite re_match_anchored.
  destruct (match_here _ None line) as [f|] eqn:E; [|discriminate].
  intro H. injection H as <-. apply match_here_sound in E.
  inversion E as [ | | ? ? ? ? ? ? ? ? ? ? ? H1 H2 | | | | | | | | | ]. subst.
  inversion H1. subst.
  inversion H2 as [ | | ? ? ? ? ? ? ? ? ? ? ? H3 H4 | | | | | | | | | ]. subst.
  inversion H3 as [ | | | | | | | ? ? ? ? ? ? ? ? H5 | | | | ]. subst.
  apply Matches_plus_cls in H5. destruct H5 as (w & Hn & Hw & -> & ->).
  rewrite firstn_consumed in H4.
  inversion H4 as [ | | ? ? ? ? ? ? ? ? ? ? ? H6 H7 | | | | | | | | | ]. subst.
  apply Matches_plus_cls in H6. destruct H6 as (sp & Hs & Hsp & -> & ->).
  assert (Hg : grp 1 (f_caps f) = Some w).
  { rewrite (Matches_grp_other 1 H7); [reflexivity|].
    cbn [mentions]. now rewrite mentions_Lit, Hm. }
  inversion H7 as [ | | ? ? ? ? ? ? ? ? ? ? ? H8 H9 | | | | | | | | | ]. subst.
  apply Matches_Lit in H8. subst s1.
  inversion H9 as [ | | ? ? ? ? ? ? ? ? ? ? ? HA HB | | | | | | | | | ]. subst.
  apply Matches_plus_cls in HA.
  destruct HA as (sp2 & Hs2 & Hsp2 & -> & _).
  destruct sp2 as [|c sp2]; [congruence|].
  cbn [forallb] in Hsp2. apply andb_true_iff in Hsp2.
  destruct Hsp2 as [Hc _].
  match goal with
  | HB : Matches r _ ?s2 _ _ _ _ |- _ =>
      exists w, sp, (K ++ (c :: sp2) ++ s2);
      split; [reflexivity|]; split; [now split|]; split; [exact Hs|];
      split; [exact Hsp|]; split; [|exact Hg];
      exists c, (sp2 ++ s2); now split
  end.
Qed.

(** A line made of a name, a blank and a text that the keyword of a rule
    does not lead is not taken by the rule. *)
Lemma word_then_fails K r x rest :
  mentions r 1 = false -> identifier x -> headed is_space rest ->
  ~ led_by K rest ->
  re_match (word_then K r) (x ++ 32 :: rest) = None.
Proof.
  intros Hm [Hn Hx] Hr Hl.
  destruct (re_match _ _) as [m|] eqn:E; [|reflexivity].
  apply word_then_first in E; [|exact Hm].
  destruct E as (w & sp & rest' & El & [_ Hw] & Hs & Hsp & Hled & _).
  destruct sp as [|c sp]; [congruence|].
  cbn [forallb] in Hsp. apply andb_true_iff in Hsp. destruct Hsp as [Hc Hsp].
  cbn [app] in El. pose proof El as Ex.
  apply split_unique with (P := is_word) in Ex;
    [|assumption|assumption|reflexivity|now apply space_not_word].
  subst w. apply app_inv_head in El. injection El as _ El.
  destruct sp as [|c' sp].
  - cbn [app] in El. subst rest'. contradiction.
  - subst rest. cbn [app headed forallb] in *.
    apply andb_true_iff in Hsp. destruct Hsp as [Hc' _]. congruence.
Qed.

(** The same for the rules that begin with a keyword. *)
Lemma kw_then_fails K r x rest :
  identifier x -> forallb is_word K = true -> x <> K ->
  re_match (kw_then K r) (x ++ 32 :: rest) = None.
Proof.
  intros [Hn Hx] HK Hne.
  destruct (re_match _ _) as [m|] eqn:E; [|reflexivity].
  apply kw_then_first in E. destruct E as (c & t & E & Hc).
  apply split_unique with (P := is_word) in E;
    [congruence|assumption|assumption|reflexivity
    |now apply space_not_word].
Qed.

(** ** The tails of the rules *)

Lemma tail_text_matches q a p cs :
  is_dot q = true -> one_line a ->
  exec (tail_text q) p (q :: a ++ [q]) cs k_found
  = matched ((1%nat, a) :: cs) q.
Proof.
  intros Hq Ha. unfold tail_text. cbn [seqs].
  rewrite exec_seq, exec_chr_eq, exec_seq, exec_group. unfold any0.
  apply exec_star_cls_until; [exact Ha|].
  rewrite exec_star_cls, Hq, exec_star_cls, exec_seq.
  cbn [exec]. rewrite N.eqb_refl.
  now rewrite firstn_consumed.
Qed.


Lemma tail_cond_matches c p cs :
  c <> [] -> one_line c ->
  exec tail_cond p (c ++ [58]) cs k_found = matched ((1%nat, c) :: cs) 58.
Proof.
  intros Hn Hc. unfold tail_cond. cbn [seqs].
  rewrite exec_seq, exec_group. unfold any1.
  destruct c as [|h t]; [congruence|].
  unfold one_line in Hc. cbn [forallb] in Hc. apply andb_true_iff in Hc.
  destruct Hc as [Hh Ht]. cbn [app].
  rewrite exec_plus_cls by exact Hh.
  apply exec_star_cls_until; [exact Ht|].
  rewrite exec_star_cls. change (is_dot 58) with true. cbv iota.
  rewrite exec_star_cls.
  rewrite (exec_seq c_colon). unfold c_colon at 1. cbn [exec].
  unfold c_colon, ws0. rewrite exec_chr_eq, exec_star_cls.
  change (h :: t ++ [58]) with ((h :: t) ++ [58]).
  now rewrite firstn_consumed.
Qed.

(** ** From a raw line to its rule *)

Section RawLine.
Variables (ws x body : str) (e : char).
Hypothesis Hws : forallb is_space ws = true.
Hypothesis Hx : identifier x.
Hypothesis He : is_space e = false.

Local Abbreviation line := (x ++ 32 :: body ++ [e]).

Lemma raw_last : last_opt None line = Some e.
Proof.
  change (x ++ 32 :: body ++ [e]) with (x ++ (32 :: body) ++ [e]).
  now rewrite app_assoc, last_opt_last.
Qed.

Lemma raw_trimmed :
  trim (ws ++ line) = line /\ trimStart (ws ++ line) = line.
Proof.
  assert (Hs : trimStart (ws ++ line) = line).
  { rewrite trimStart_spaces by exact Hws.
    apply trimStart_headed. destruct Hx as [Hn Hw].
    destruct x as [|c t]; [congruence|]. cbn [forallb] in Hw.
    apply andb_true_iff in Hw. cbn. now apply word_not_space. }
  split; [|exact Hs]. unfold trim. rewrite Hs.
  change (x ++ 32 :: body ++ [e]) with (x ++ (32 :: body) ++ [e]).
  rewrite app_assoc. now apply trimEnd_last.
Qed.

Lemma raw_indent :
  (length (ws ++ line) - length (trimStart (ws ++ line)))%nat = length ws.
Proof.
  destruct raw_trimmed as [_ ->]. rewrite length_app. lia.
Qed.

Lemma raw_not_skipped : skipped line = false.
Proof.
  unfold skipped. destruct Hx as [Hn Hw].
  destruct x as [|c t]; [congruence|]. cbn [forallb] in Hw.
  apply andb_true_iff in Hw. destruct Hw as [Hc _].
  cbn [app nonempty negb orb startsWith u].
  change (N_of_ascii "/") with 47. change (N_of_ascii "#") with 35.
  assert (E1 : (47 =? c) = false) by char_facts.
  assert (E2 : (35 =? c) = false) by char_facts.
  now rewrite E1, E2.
Qed.

(** The headers do not take a line whose first word is neither [to] nor
    [a]. *)
Lemma raw_no_header_by_word r :
  x <> u "to" -> x <> u "a" ->
  In r [re_to_start; re_to; re_struct; re_method] ->
  re_match r line = None.
Proof.
  intros Hto Ha Hr. cbn [In] in Hr.
  destruct Hr as [<-|[<-|[<-|[<-|[]]]]];
    apply kw_then_fails; try exact Hx; try reflexivity; assumption.
Qed.

(** Nor one that ends with neither a colon nor white space. *)
Lemma raw_no_header_by_end r :
  e <> 58 ->
  In r [re_to_start; re_to; re_struct; re_method; re_if; re_otherwise_if;
        re_for_range; re_for_each; re_repeat; re_while] ->
  re_match r line = None.
Proof.
  intros Hc Hr. destruct (re_match r line) as [m|] eqn:E; [|reflexivity].
  destruct (header_last_char _ Hr E) as (c & Hl & HQ).
  rewrite raw_last in Hl. injection Hl as <-.
  destruct HQ; congruence.
Qed.

(** The rule of the struct fields takes only lines whose second word is
    [as]. *)
Lemma raw_no_field :
  headed is_space (body ++ [e]) -> ~ led_by (u "as") (body ++ [e]) ->
  re_match re_field line = None.
Proof.
  intros Hh Hl.
  change re_field with (word_then (u "as") (Seq (Group 2 word) Eol)).
  now apply word_then_fails.
Qed.

(** What is left of the loop body once the headers and the struct field
    are out of the way. *)
Lemma raw_reaches_statement st :
  re_match re_to_start line = None -> re_match re_to line = None ->
  re_match re_struct line = None ->
  inStruct st = false \/ re_match re_field line = None ->
  translate_line st (ws ++ line)
  = statement (inFunction st) line (closings (length ws) line st).
Proof.
  intros H1 H2 H3 H4. unfold translate_line. cbv zeta.
  rewrite raw_indent. destruct raw_trimmed as [-> _].
  pose proof raw_not_skipped as Hk. unfold skipped in Hk. rewrite Hk.
  rewrite H1, H2, H3. unfold closings. cbv zeta.
  destruct (dedent_frame (length ws) line st) as (_ & _ & Hs).
  destruct (inStruct (dedent (length ws) line st)) eqn:Ed; [|reflexivity].
  destruct H4 as [H4|H4]; [congruence|]. now rewrite H4.
Qed.
End RawLine.

(** ** The output statements *)

Lemma identifier_word (K : str) :
  K <> [] -> forallb is_word K = true -> identifier K.
Proof. now split. Qed.

Lemma not_led_by_head K h t c :
  hd_error K = Some c -> h <> c -> ~ led_by K (h :: t).
Proof.
  intros HK Hh (d & r & E & _). destruct K as [|k K']; [discriminate|].
  cbn in HK, E. congruence.
Qed.


Section Output.
Variables (st : State) (ws : str).
Hypothesis Hws : forallb is_space ws = true.

Lemma say_double_quoted a :
  one_line a ->
  writes st ws (u "say " ++ dq ++ a ++ dq)
    (u "std::cout << " ++ dq ++ a ++ dq ++ u " << std::endl;").
Proof.
  intro Ha. unfold writes.
  change (u "say " ++ dq ++ a ++ dq)
    with (u "say" ++ 32 :: (34 :: a) ++ [34]).
  assert (Hx : identifier (u "say")) by (now split).
  rewrite (@raw_reaches_statement ws (u "say") (34 :: a) 34 Hws Hx eq_refl);
    try (apply raw_no_header_by_word;
         [exact Hx|discriminate|discriminate|cbn [In]; tauto]).
  - unfold statement.
    rewrite (@raw_no_header_by_word (u "say") (34 :: a) 34 Hx re_method)
      by (try discriminate; cbn [In]; tauto).
    change re_say_dq with (kw_then (u "say") (tail_text 34)).
    rewrite kw_then_matches by (try discriminate; reflexivity).
    cbn [app]. rewrite tail_text_matches by (try exact Ha; reflexivity).
    reflexivity.
  - right. apply raw_no_field; [exact Hx|reflexivity|].
    now apply not_led_by_head with (c := 97).
Qed.

Lemma say_single_quoted a :
  one_line a ->
  writes st ws (u "say " ++ sq ++ a ++ sq)
    (u "std::cout << " ++ dq ++ a ++ dq ++ u " << std::endl;").
Proof.
  intro Ha. unfold writes.
  change (u "say " ++ sq ++ a ++ sq)
    with (u "say" ++ 32 :: (39 :: a) ++ [39]).
  assert (Hx : identifier (u "say")) by (now split).
  rewrite (@raw_reaches_statement ws (u "say") (39 :: a) 39 Hws Hx eq_refl);
    try (apply raw_no_header_by_word;
         [exact Hx|discriminate|discriminate|cbn [In]; tauto]).
  - unfold statement.
    rewrite (@raw_no_header_by_word (u "say") (39 :: a) 39 Hx re_method)
      by (try discriminate; cbn [In]; tauto).
    change re_say_dq with (kw_then (u "say") (tail_text 34)).
    change re_say_sq with (kw_then (u "say") (tail_text 39)).
    rewrite !kw_then_matches by (try discriminate; reflexivity).
    cbn [app]. unfold tail_text at 1. cbn [seqs].
    rewrite tail_head_mismatch by discriminate.
    rewrite tail_text_matches by (try exact Ha; reflexivity).
    reflexivity.
  - right. apply raw_no_field; [exact Hx|reflexivity|].
    now apply not_led_by_head with (c := 97).
Qed.

Lemma print_double_quoted a :
  one_line a ->
  writes st ws (u "print " ++ dq ++ a ++ dq)
    (u "std::cout << " ++ dq ++ a ++ dq ++ u ";").
Proof.
  intro Ha. unfold writes.
  change (u "print " ++ dq ++ a ++ dq)
    with (u "print" ++ 32 :: (34 :: a) ++ [34]).
  assert (Hx : identifier (u "print")) by (now split).
  rewrite (@raw_reaches_statement ws (u "print") (34 :: a) 34 Hws Hx
             eq_refl);
    try (apply raw_no_header_by_word;
         [exact Hx|discriminate|discriminate|cbn [In]; tauto]).
  - unfold statement.
    rewrite (@raw_no_header_by_word (u "print") (34 :: a) 34 Hx re_method)
      by (try discriminate; cbn [In]; tauto).
    change re_say_dq with (kw_then (u "say") (tail_text 34)).
    change re_say_sq with (kw_then (u "say") (tail_text 39)).
    change re_say with (kw_then (u "say") (tail_rest 1)).
    rewrite !(@kw_then_fails (u "say") _ (u "print"))
      by (try exact Hx; try reflexivity; discriminate).
    change re_print_dq with (kw_then (u "print") (tail_text 34)).
    rewrite kw_then_matches by (try discriminate; reflexivity).
    cbn [app]. rewrite tail_text_matches by (try exact Ha; reflexivity).
    reflexivity.
  - right. apply raw_no_field; [exact Hx|reflexivity|].
    now apply not_led_by_head with (c := 97).
Qed.


End Output.

(** ** Reassignment and the block headers that take a condition *)

Lemma led_by_snoc K c e :
  led_by K (c ++ [e]) -> is_space e = false -> led_by K c.
Proof.
  intros (d & t & E & Hd) He.
  destruct (@exists_last _ (d :: t)) as (t' & l & Et); [discriminate|].
  rewrite Et in E. rewrite app_assoc in E. apply app_inj_tail in E.
  destruct E as [-> <-]. destruct t' as [|d' t''].
  - cbn [app] in Et. injection Et as -> _. congruence.
  - cbn [app] in Et. injection Et as -> _. exists d', t''.
    split; [reflexivity|exact Hd].
Qed.

(** The rule of the struct fields takes only lines that end with a word
    character; the rule of the mutable binding, lines that end with the
    last letter of [change]. *)
Lemma field_last_char line m :
  re_match re_field line = Some m ->
  exists e, last_opt None line = Some e /\ is_word e = true.
Proof.
  intro H.
  apply (re_match_last_char (fun e => is_word e = true) _ _ H);
    [reflexivity|reflexivity|].
  cbv -[is_space is_word is_digit is_dot]. last_in_tac; auto.
Qed.

Lemma mutable_last_char line m :
  re_match re_is_mutable line = Some m ->
  exists e, last_opt None line = Some e /\ e = 101.
Proof.
  intro H.
  apply (re_match_last_char (fun e => e = 101) _ _ H);
    [reflexivity|reflexivity|].
  cbv -[is_space is_word is_digit is_dot]. last_in_tac; auto.
Qed.

(** The generic assignment does not take a line whose first word is in its
    guard list. *)
Lemma guarded_is_fails x rest :
  identifier x -> among assign_guard (Some x) = true ->
  match re_match re_is (x ++ 32 :: rest) with
  | Some m => if negb (among assign_guard (grp 1 m)) then Some m else None
  | None => None
  end = None.
Proof.
  intros [Hn Hx] Hg.
  destruct (re_match re_is _) as [m|] eqn:E; [|reflexivity].
  change re_is with (word_then (u "is") (tail_rest 2)) in E.
  apply word_then_first in E; [|reflexivity].
  destruct E as (w & sp & rest' & El & [_ Hw] & Hs & Hsp & _ & ->).
  destruct sp as [|c sp]; [congruence|].
  cbn [forallb] in Hsp. apply andb_true_iff in Hsp. destruct Hsp as [Hc _].
  cbn [app] in El.
  apply split_unique with (P := is_word) in El;
    [|assumption|assumption|reflexivity|now apply space_not_word].
  subst w. now rewrite Hg.
Qed.



Lemma cond_headed cond :
  headed is_space cond -> headed is_space (cond ++ [58]).
Proof. destruct cond; [reflexivity|auto]. Qed.

Section Conditions.
Variables (st : State) (ws : str).
Hypothesis Hws : forallb is_space ws = true.

(** A line [K cond:] passes the output rules and the assignment rules when
    the generic assignment is kept from it, by its guard list or by the
    second word. *)
Lemma cond_line_reaches K cond :
  identifier K -> K <> u "to" -> K <> u "a" -> K <> u "say" ->
  K <> u "print" -> headed is_space cond ->
  among assign_guard (Some K) = true \/ ~ led_by (u "is") cond ->
  translate_line st (ws ++ K ++ 32 :: cond ++ [58])
  = other_statement (inFunction st) (K ++ 32 :: cond ++ [58])
      (closings (length ws) (K ++ 32 :: cond ++ [58]) st).
Proof.
  intros HK Hto Ha Hsay Hprint Hh Hg.
  assert (Hlast : last_opt None (K ++ 32 :: cond ++ [58]) = Some 58)
    by now apply raw_last.
  rewrite (@raw_reaches_statement ws K cond 58 Hws HK eq_refl);
    try (apply raw_no_header_by_word;
         [exact HK|assumption|assumption|cbn [In]; tauto]).
  - unfold statement.
    rewrite (@raw_no_header_by_word K cond 58 HK re_method)
      by (try assumption; cbn [In]; tauto).
    change re_say_dq with (kw_then (u "say") (tail_text 34)).
    change re_say_sq with (kw_then (u "say") (tail_text 39)).
    change re_say with (kw_then (u "say") (tail_rest 1)).
    change re_print_dq with (kw_then (u "print") (tail_text 34)).
    change re_print with (kw_then (u "print") (tail_rest 1)).
    rewrite !(@kw_then_fails (u "say") _ K)
      by (try exact HK; try reflexivity; assumption).
    rewrite !(@kw_then_fails (u "print") _ K)
      by (try exact HK; try reflexivity; assumption).
    unfold assignment.
    assert (Hlit : forall r,
               In r [re_is_dq; re_is_sq; re_is_decimal; re_is_int;
                     re_is_bool; re_is_list] ->
               re_match r (K ++ 32 :: cond ++ [58]) = None).
    { intros r Hr.
      destruct (re_match r _) as [m|] eqn:E; [|reflexivity].
      destruct (literal_last_char _ Hr E) as (e & He & HQ).
      rewrite Hlast in He. injection He as <-.
      destruct HQ as [H|[H|[H|[H|[H|H]]]]]; discriminate H. }
    rewrite !Hlit by (cbn [In]; tauto).
    destruct (re_match re_is_mutable _) as [m|] eqn:E.
    { destruct (mutable_last_char _ E) as (e & He & ->).
      rewrite Hlast in He. discriminate He. }
    destruct Hg as [Hg|Hg].
    + now rewrite guarded_is_fails.
    + change re_is with (word_then (u "is") (tail_rest 2)).
      rewrite word_then_fails; try reflexivity; try assumption.
      * now apply cond_headed.
      * intro H. apply Hg. now apply led_by_snoc in H.
  - right. destruct (re_match re_field _) as [m|] eqn:E; [|reflexivity].
    destruct (field_last_char _ E) as (e & He & Hw).
    rewrite Hlast in He. injection He as <-. discriminate Hw.
Qed.

Lemma return_rule_fails K rest :
  identifier K -> K <> u "return" ->
  re_match re_return (K ++ 32 :: rest) = None.
Proof.
  intros HK Hr. change re_return with (kw_then (u "return") (tail_rest 1)).
  apply kw_then_fails; [exact HK|reflexivity|exact Hr].
Qed.

Lemma becomes_rule_fails K cond :
  identifier K -> headed is_space cond -> ~ led_by (u "becomes") cond ->
  re_match re_becomes (K ++ 32 :: cond ++ [58]) = None.
Proof.
  intros HK Hh Hb.
  change re_becomes with (word_then (u "becomes") (tail_rest 2)).
  apply word_then_fails; try reflexivity; try assumption.
  - now apply cond_headed.
  - intro H. apply Hb. now apply led_by_snoc in H.
Qed.

Lemma if_opens_block cond :
  cond <> [] -> one_line cond -> headed is_space cond ->
  ~ led_by (u "becomes") cond ->
  writes st ws (u "if " ++ cond ++ u ":")
    (u "if (" ++ translateCond cond ++ u ") {").
Proof.
  intros Hn Hl Hh Hb. unfold writes.
  change (u "if " ++ cond ++ u ":") with (u "if" ++ 32 :: cond ++ [58]).
  assert (HK : identifier (u "if")) by (now split).
  rewrite cond_line_reaches
    by (try exact HK; try exact Hh; try discriminate; now left).
  unfold other_statement.
  rewrite becomes_rule_fails, return_rule_fails
    by (try exact HK; try assumption; discriminate).
  change (str_eqb (u "if" ++ 32 :: cond ++ [58]) (u "return")) with false.
  cbv iota.
  change re_if with (kw_then (u "if") tail_cond).
  rewrite kw_then_matches by (try discriminate; now apply cond_headed).
  rewrite tail_cond_matches by assumption. reflexivity.
Qed.

Lemma while_opens_block cond :
  cond <> [] -> one_line cond -> headed is_space cond ->
  ~ led_by (u "becomes") cond ->
  writes st ws (u "while " ++ cond ++ u ":")
    (u "while (" ++ translateCond cond ++ u ") {").
Proof.
  intros Hn Hl Hh Hb. unfold writes.
  change (u "while " ++ cond ++ u ":")
    with (u "while" ++ 32 :: cond ++ [58]).
  assert (HK : identifier (u "while")) by (now split).
  rewrite cond_line_reaches
    by (try exact HK; try exact Hh; try discriminate; now left).
  unfold other_statement.
  rewrite becomes_rule_fails, return_rule_fails
    by (try exact HK; try assumption; discriminate).
  change (str_eqb (u "while" ++ 32 :: cond ++ [58]) (u "return"))
    with false.
  change (str_eqb (u "while" ++ 32 :: cond ++ [58]) (u "otherwise:"))
    with false.
  cbv iota.
  change re_if with (kw_then (u "if") tail_cond).
  change re_otherwise_if
    with (kw_then (u "otherwise")
            (seqs [kw "if"; ws1; Group 1 any1; c_colon; ws0; Eol])).
  change re_for_range
    with (kw_then (u "for")
            (seqs [kw "each"; ws1; Group 1 word; ws1; kw "in"; ws1;
                   Group 2 digits; ws1; kw "to"; ws1; Group 3 digits; ws0;
                   c_colon; ws0; Eol])).
  change re_for_each
    with (kw_then (u "for")
            (seqs [kw "each"; ws1; Group 1 word; ws1; kw "in"; ws1;
                   Group 2 word; ws0; c_colon; ws0; Eol])).
  change re_repeat
    with (kw_then (u "repeat")
            (seqs [Group 1 digits; ws1; kw "times"; ws0; c_colon; ws0;
                   Eol])).
  rewrite (@kw_then_fails (u "if") _ (u "while"))
    by (try exact HK; try reflexivity; discriminate).
  rewrite (@kw_then_fails (u "otherwise") _ (u "while"))
    by (try exact HK; try reflexivity; discriminate).
  rewrite !(@kw_then_fails (u "for") _ (u "while"))
    by (try exact HK; try reflexivity; discriminate).
  rewrite (@kw_then_fails (u "repeat") _ (u "while"))
    by (try exact HK; try reflexivity; discriminate).
  change re_while with (kw_then (u "while") tail_cond).
  rewrite kw_then_matches by (try discriminate; now apply cond_headed).
  rewrite tail_cond_matches by assumption. reflexivity.
Qed.

Lemma otherwise_if_opens_block cond :
  cond <> [] -> one_line cond -> headed is_space cond ->
  writes st ws (u "otherwise if " ++ cond ++ u ":")
    (u "} else if (" ++ translateCond cond ++ u ") {").
Proof.
  intros Hn Hl Hh. unfold writes.
  change (u "otherwise if " ++ cond ++ u ":")
    with (u "otherwise" ++ 32 :: (u "if " ++ cond) ++ [58]).
  assert (HK : identifier (u "otherwise")) by (now split).
  rewrite cond_line_reaches;
    try exact HK; try discriminate; try reflexivity.
  2:{ right. intros (d & t & E & _). discriminate E. }
  unfold other_statement.
  rewrite becomes_rule_fails, return_rule_fails;
    try exact HK; try discriminate; try reflexivity.
  2:{ intros (d & t & E & _). discriminate E. }
  change (str_eqb (u "otherwise" ++ 32 :: (u "if " ++ cond) ++ [58])
            (u "return")) with false.
  cbv iota.
  change re_if with (kw_then (u "if") tail_cond).
  rewrite (@kw_then_fails (u "if") _ (u "otherwise"))
    by (try exact HK; try reflexivity; discriminate).
  change re_otherwise_if
    with (kw_then (u "otherwise")
            (Seq (Lit (u "if")) (Seq ws1 tail_cond))).
  rewrite kw_then_matches by (try discriminate; reflexivity).
  change ((u "if " ++ cond) ++ [58]) with (u "if" ++ 32 :: cond ++ [58]).
  rewrite exec_seq, exec_lit, exec_seq by discriminate.
  rewrite exec_ws1_headed by (try reflexivity; now apply cond_headed).
  rewrite tail_cond_matches by assumption. reflexivity.
Qed.
End Conditions.

(** ** What the rules write *)

(** X12: quoted text is printed as it stands.  Whatever the state and the
    indentation, [say] followed by a text between double quotes or between
    single quotes writes a [std::cout] statement that prints the text,
    between double quotes, and ends the line; [print] followed by a text
    between double quotes writes one that does not end the line.  The text
    may hold any character but a line terminator, quotes included. *)
Theorem quoted_text_is_printed : forall (st : State) (ws a : str),
  forallb is_space ws = true -> one_line a ->
  writes st ws (u "say " ++ dq ++ a ++ dq)
    (u "std::cout << " ++ dq ++ a ++ dq ++ u " << std::endl;")
  /\ writes st ws (u "say " ++ sq ++ a ++ sq)
       (u "std::cout << " ++ dq ++ a ++ dq ++ u " << std::endl;")
  /\ writes st ws (u "print " ++ dq ++ a ++ dq)
       (u "std::cout << " ++ dq ++ a ++ dq ++ u ";").
Proof.
  intros st ws a Hws Ha. split; [|split].
  - now apply say_double_quoted.
  - now apply say_single_quoted.
  - now apply print_double_quoted.
Qed.

Lemma quoted_text_is_printed_witness :
  translate_line init_state (u "    say 'hi'")
  = Ok (push_body (u "    std::cout << " ++ dq ++ u "hi" ++ dq
                   ++ u " << std::endl;") init_state).
Proof.
  exact (proj1 (proj2 (@quoted_text_is_printed init_state (u "    ")
                         (u "hi") eq_refl eq_refl))).
Defined.




(** X15: the block headers that take a condition.  For every condition
    that is not empty, holds no line terminator and begins with no white
    space, [otherwise if c:] writes [} else if (C) {] with [C] the
    rewriting of [c] by [translateCond]; and unless [c] begins with the
    word [becomes], which would make the line a reassignment, [if c:]
    writes [if (C) {] and [while c:] writes [while (C) {]. *)
Theorem conditions_open_blocks : forall (st : State) (ws cond : str),
  forallb is_space ws = true ->
  cond <> [] -> one_line cond -> headed is_space cond ->
  writes st ws (u "otherwise if " ++ cond ++ u ":")
    (u "} else if (" ++ translateCond cond ++ u ") {")
  /\ (~ led_by (u "becomes") cond ->
      writes st ws (u "if " ++ cond ++ u ":")
        (u "if (" ++ translateCond cond ++ u ") {")
      /\ writes st ws (u "while " ++ cond ++ u ":")
           (u "while (" ++ translateCond cond ++ u ") {")).
Proof.
  intros st ws cond Hws Hn Hl Hh. split.
  - now apply otherwise_if_opens_block.
  - intro Hb. split.
    + now apply if_opens_block.
    + now apply while_opens_block.
Qed.

Lemma conditions_open_blocks_witness :
  translate_line init_state (u "while x is not 0:")
  = Ok (push_body (u "    while (x != 0) {") init_state).
Proof.
  assert (Hb : ~ led_by (u "becomes") (u "x is not 0")).
  { intros (d & t & E & _). discriminate E. }
  exact (proj2 (proj2 (@conditions_open_blocks init_state [] (u "x is not 0")
                         eq_refl ltac:(discriminate) eq_refl eq_refl) Hb)).
Defined.

(** ** Function headers *)





Lemma trim_id body c :
  headed is_space (body ++ [c]) -> is_space c = false ->
  trim (body ++ [c]) = body ++ [c].
Proof.
  intros Hh Hc. unfold trim. rewrite trimStart_headed by exact Hh.
  now apply trimEnd_last.
Qed.

Section Headers.
Variables (st : State) (ws f : str).
Hypothesis Hws : forallb is_space ws = true.
Hypothesis Hf : identifier f.
Hypothesis Hstart : f <> u "start".


End Headers.




(** ** Return and the counted loop *)

Section PlainLine.
Variables (st : State) (ws K body : str) (c : char).
Hypothesis Hws : forallb is_space ws = true.
Hypothesis HK : identifier K.
Hypothesis Hto : K <> u "to".
Hypothesis Ha : K <> u "a".
Hypothesis Hsay : K <> u "say".
Hypothesis Hprint : K <> u "print".
Hypothesis Hh : headed is_space (body ++ [c]).
Hypothesis Hc : is_space c = false.
Hypothesis His : ~ led_by (u "is") (body ++ [c]).
Hypothesis Hfield : inStruct st = false \/ ~ led_by (u "as") (body ++ [c]).

(** A line whose first word is no keyword of the earlier rules and whose
    second word is not [is] passes the output and the assignment rules. *)
Lemma plain_line_reaches :
  translate_line st (ws ++ K ++ 32 :: body ++ [c])
  = other_statement (inFunction st) (K ++ 32 :: body ++ [c])
      (closings (length ws) (K ++ 32 :: body ++ [c]) st).
Proof.
  rewrite (@raw_reaches_statement ws K body c Hws HK Hc);
    try (apply raw_no_header_by_word;
         [exact HK|assumption|assumption|cbn [In]; tauto]).
  - unfold statement.
    rewrite (@raw_no_header_by_word K body c HK re_method)
      by (try assumption; cbn [In]; tauto).
    change re_say_dq with (kw_then (u "say") (tail_text 34)).
    change re_say_sq with (kw_then (u "say") (tail_text 39)).
    change re_say with (kw_then (u "say") (tail_rest 1)).
    change re_print_dq with (kw_then (u "print") (tail_text 34)).
    change re_print with (kw_then (u "print") (tail_rest 1)).
    rewrite !(@kw_then_fails (u "say") _ K)
      by (try exact HK; try reflexivity; assumption).
    rewrite !(@kw_then_fails (u "print") _ K)
      by (try exact HK; try reflexivity; assumption).
    by_tails.
    change is_then with (word_then (u "is")).
    change re_is with (word_then (u "is") (tail_rest 2)).
    now rewrite !(@word_then_fails (u "is") _ K)
      by (try exact HK; try reflexivity; assumption).
  - destruct Hfield as [Hf|Hf]; [now left|right].
    now apply raw_no_field.
Qed.
End PlainLine.


Lemma digit_head_not (k : char) d rest :
  all_digits d -> is_digit k = false ->
  exists h t, d ++ rest = h :: t /\ h <> k /\ is_space h = false.
Proof.
  intros Hd Hk. destruct (digits_head rest Hd) as (h & t & E & Hh).
  exists h, t. split; [exact E|]. split; [congruence|].
  now apply digit_not_space.
Qed.

(** X18: the counted loop.  For every number [d] written in digits, the
    line [repeat d times:] writes the header of a [for] loop that runs its
    body [d] times, whatever the state and the indentation. *)
Theorem repeat_is_a_counted_loop (st : State) (ws d : str) :
  forallb is_space ws = true -> all_digits d ->
  writes st ws (u "repeat " ++ d ++ u " times:")
    (u "for (int _i = 0; _i < " ++ d ++ u "; _i++) {").
Proof.
  intros Hws Hd. unfold writes.
  change (u "repeat " ++ d ++ u " times:")
    with (u "repeat" ++ 32 :: d ++ u " times:").
  assert (E : d ++ u " times:" = (d ++ u " times") ++ [58])
    by (now rewrite <- app_assoc).
  assert (HK : identifier (u "repeat")) by (now split).
  assert (Hhd : forall k, is_digit k = false ->
                  headed is_space (d ++ u " times")
                  /\ forall K, hd_error K = Some k ->
                               ~ led_by K (d ++ u " times")).
  { intros k Hk.
    destruct (@digit_head_not k d (u " times") Hd Hk)
      as (h & t & -> & Hn & Hs).
    split; [exact Hs|]. intros K HKh.
    now apply not_led_by_head with (c := k). }
  destruct (Hhd 105 eq_refl) as [Hh His].
  destruct (Hhd 98 eq_refl) as [_ Hbe].
  rewrite E.
  rewrite cond_line_reaches;
    try exact HK; try discriminate; try exact Hws; try exact Hh.
  2:{ right. now apply His. }
  unfold other_statement.
  rewrite becomes_rule_fails, return_rule_fails;
    try exact HK; try discriminate; try exact Hh.
  2:{ now apply Hbe. }
  change (str_eqb (u "repeat" ++ 32 :: (d ++ u " times") ++ [58])
            (u "return")) with false.
  change (str_eqb (u "repeat" ++ 32 :: (d ++ u " times") ++ [58])
            (u "otherwise:")) with false.
  cbv iota.
  change re_if with (kw_then (u "if") tail_cond).
  change re_otherwise_if
    with (kw_then (u "otherwise")
            (seqs [kw "if"; ws1; Group 1 any1; c_colon; ws0; Eol])).
  change re_for_range
    with (kw_then (u "for")
            (seqs [kw "each"; ws1; Group 1 word; ws1; kw "in"; ws1;
                   Group 2 digits; ws1; kw "to"; ws1; Group 3 digits; ws0;
                   c_colon; ws0; Eol])).
  change re_for_each
    with (kw_then (u "for")
            (seqs [kw "each"; ws1; Group 1 word; ws1; kw "in"; ws1;
                   Group 2 word; ws0; c_colon; ws0; Eol])).
  rewrite (@kw_then_fails (u "if") _ (u "repeat"))
    by (try exact HK; try reflexivity; discriminate).
  rewrite (@kw_then_fails (u "otherwise") _ (u "repeat"))
    by (try exact HK; try reflexivity; discriminate).
  rewrite !(@kw_then_fails (u "for") _ (u "repeat"))
    by (try exact HK; try reflexivity; discriminate).
  change re_repeat
    with (kw_then (u "repeat")
            (Seq (Group 1 digits)
               (seqs [ws1; kw "times"; ws0; c_colon; ws0; Eol]))).
  rewrite kw_then_matches by (try discriminate; now apply cond_headed).
  rewrite <- E. rewrite exec_seq, exec_group.
  rewrite digits_then; [|exact Hd|reflexivity|].
  - rewrite firstn_consumed. reflexivity.
  - intros p x t cs Hx. cbn [seqs]. rewrite exec_seq. unfold ws1, Plus.
    rewrite exec_seq. apply exec_cls_out. now apply digit_not_space.
Qed.


Lemma repeat_is_a_counted_loop_witness :
  translate_line init_state (u "  repeat 12 times:")
  = Ok (push_body (u "    for (int _i = 0; _i < 12; _i++) {") init_state).
Proof.
  assert (Hd : all_digits (u "12")) by (split; [discriminate|reflexivity]).
  exact (@repeat_is_a_counted_loop init_state (u "  ") (u "12") eq_refl Hd).
Defined.

(** ** The parameters of a function *)

Lemma word_headed_join sep : forall names : list str,
  names <> [] -> Forall identifier names ->
  headed is_space (join sep names).
Proof.
  intros names Hn Hf. destruct names as [|a rest]; [congruence|].
  inversion Hf as [|? ? [Ha Hw] _]. subst.
  destruct a as [|h t]; [congruence|].
  cbn [forallb] in Hw. apply andb_true_iff in Hw. destruct Hw as [Hh _].
  destruct rest; cbn; now apply word_not_space.
Qed.

Lemma and_sep_skips_word p h t :
  is_space h = false -> match_here re_and_sep p (h :: t) = None.
Proof.
  intro H. unfold match_here, re_and_sep. cbn [seqs].
  rewrite exec_seq. unfold ws1, Plus. rewrite exec_seq.
  now apply exec_cls_out.
Qed.

Lemma and_sep_here p Y :
  headed is_space Y ->
  match_here re_and_sep p (u " and " ++ Y)
  = Some {| f_caps := []; f_prev := Some 32; f_rest := Y |}.
Proof.
  intro H. unfold match_here, re_and_sep. cbn [seqs].
  change (u " and " ++ Y) with (32 :: u "and" ++ 32 :: Y).
  rewrite exec_seq, exec_ws1_headed by reflexivity.
  unfold kw. rewrite exec_seq, exec_lit by discriminate.
  now rewrite exec_ws1_headed by (try exact H; reflexivity).
Qed.

Lemma replace_go_words by_ : forall w fuel X p,
  forallb is_word w = true -> (length (w ++ X) < fuel)%nat ->
  replace_go fuel re_and_sep by_ p (w ++ X)
  = w ++ replace_go (fuel - length w) re_and_sep by_ (last_opt p w) X.
Proof.
  induction w as [|c w IH]; intros fuel X p Hw Hl.
  - cbn [app length last_opt fold_left]. now rewrite Nat.sub_0_r.
  - cbn [forallb] in Hw. apply andb_true_iff in Hw. destruct Hw as [Hc Hw].
    destruct fuel as [|fuel]; [inversion Hl|].
    cbn [app length] in *. cbn [replace_go].
    rewrite and_sep_skips_word by (now apply word_not_space).
    rewrite IH by (try exact Hw; lia). reflexivity.
Qed.

Lemma replace_and_join : forall (names : list str) fuel p,
  names <> [] -> Forall identifier names ->
  (length (join (u " and ") names) < fuel)%nat ->
  replace_go fuel re_and_sep (u ", ") p (join (u " and ") names)
  = join (u ", ") names.
Proof.
  induction names as [|a rest IH]; intros fuel p Hn Hf Hl; [congruence|].
  inversion Hf as [|? ? [Ha Hw] Hr]. subst.
  destruct rest as [|b rest'].
  - cbn [join] in *. rewrite <- (app_nil_r a) at 1.
    rewrite replace_go_words by (try exact Hw; now rewrite app_nil_r).
    destruct (fuel - length a)%nat; cbn; now rewrite app_nil_r.
  - change (join (u " and ") (a :: b :: rest'))
      with (a ++ u " and " ++ join (u " and ") (b :: rest')) in *.
    change (join (u ", ") (a :: b :: rest'))
      with (a ++ u ", " ++ join (u ", ") (b :: rest')).
    rewrite replace_go_words by assumption. f_equal.
    rewrite !length_app in Hl.
    change (length (u " and ")) with 5%nat in Hl.
    destruct (fuel - length a)%nat as [|fuel'] eqn:Ef; [lia|].
    cbn [replace_go].
    rewrite and_sep_here
      by (apply word_headed_join; [discriminate|exact Hr]).
    cbn [f_rest f_prev].
    assert (Hlt : (length (join (u " and ") (b :: rest'))
                   <? length (u " and " ++ join (u " and ") (b :: rest')))%nat
                  = true).
    { apply Nat.ltb_lt. rewrite length_app. cbn. lia. }
    rewrite Hlt. f_equal.
    apply IH; [discriminate|exact Hr|]. lia.
Qed.

Lemma comma_skips p h t :
  h <> 44 -> match_here re_comma p (h :: t) = None.
Proof.
  intro H. unfold match_here, re_comma. rewrite exec_seq.
  now apply exec_chr_neq.
Qed.

Lemma comma_here p Y :
  headed is_space Y ->
  match_here re_comma p (u ", " ++ Y)
  = Some {| f_caps := []; f_prev := Some 32; f_rest := Y |}.
Proof.
  intro H. unfold match_here, re_comma.
  change (u ", " ++ Y) with (44 :: 32 :: Y).
  rewrite exec_seq, exec_chr_eq. unfold ws0.
  rewrite exec_star_cls. change (is_space 32) with true. cbv iota.
  rewrite exec_star_cls. destruct Y as [|y Y']; [reflexivity|].
  cbn [headed] in H. now rewrite H.
Qed.

Lemma word_not_comma c : is_word c = true -> c <> 44.
Proof. intro H. char_facts. Qed.

Lemma split_go_words : forall w fuel X p acc,
  forallb is_word w = true -> X <> [] -> (length w <= fuel)%nat ->
  split_go fuel re_comma p acc (w ++ X)
  = split_go (fuel - length w) re_comma (last_opt p w) (rev w ++ acc) X.
Proof.
  induction w as [|c w IH]; intros fuel X p acc Hw HX Hl.
  - cbn [app length rev last_opt fold_left]. now rewrite Nat.sub_0_r.
  - cbn [forallb] in Hw. apply andb_true_iff in Hw. destruct Hw as [Hc Hw].
    destruct fuel as [|fuel]; [inversion Hl|].
    cbn [app length] in *. cbn [split_go].
    rewrite comma_skips by (now apply word_not_comma).
    rewrite IH by (try assumption; lia).
    cbn [rev]. now rewrite <- app_assoc.
Qed.

Lemma split_go_last_word : forall w fuel p acc,
  forallb is_word w = true ->
  split_go fuel re_comma p acc w = [rev acc ++ w].
Proof.
  induction w as [|c w IH]; intros fuel p acc Hw.
  - destruct fuel; cbn [split_go]; now rewrite ?app_nil_r.
  - cbn [forallb] in Hw. apply andb_true_iff in Hw. destruct Hw as [Hc Hw].
    destruct fuel as [|fuel]; [reflexivity|].
    cbn [split_go]. rewrite comma_skips by (now apply word_not_comma).
    rewrite IH by exact Hw. cbn [rev]. now rewrite <- app_assoc.
Qed.

Lemma split_comma_join : forall (names : list str) fuel p,
  names <> [] -> Forall identifier names ->
  (2 * length (join (u ", ") names) <= fuel)%nat ->
  split_go fuel re_comma p [] (join (u ", ") names) = names.
Proof.
  induction names as [|a rest IH]; intros fuel p Hn Hf Hl; [congruence|].
  inversion Hf as [|? ? [Ha Hw] Hr]. subst.
  destruct rest as [|b rest'].
  - cbn [join]. now rewrite split_go_last_word.
  - change (join (u ", ") (a :: b :: rest'))
      with (a ++ u ", " ++ join (u ", ") (b :: rest')) in *.
    rewrite !length_app in Hl.
    change (length (u ", ")) with 2%nat in Hl.
    rewrite split_go_words by (try assumption; try discriminate; lia).
    destruct (fuel - length a)%nat as [|fuel'] eqn:Ef; [lia|].
    change (u ", " ++ join (u ", ") (b :: rest'))
      with (44 :: 32 :: join (u ", ") (b :: rest')).
    cbn [split_go].
    change (44 :: 32 :: join (u ", ") (b :: rest'))
      with (u ", " ++ join (u ", ") (b :: rest')).
    rewrite comma_here
      by (apply word_headed_join; [discriminate|exact Hr]).
    cbn [f_rest f_prev].
    assert (Hlt : (length (join (u ", ") (b :: rest'))
                   <? length (u ", " ++ join (u ", ") (b :: rest')))%nat
                  = true).
    { apply Nat.ltb_lt. rewrite length_app. cbn. lia. }
    rewrite Hlt, app_nil_r, rev_involutive. f_equal.
    apply IH; [discriminate|exact Hr|]. lia.
Qed.

Lemma trim_identifier a : identifier a -> trim a = a.
Proof.
  intros [Hn Hw]. destruct (exists_last Hn) as (body & c & ->).
  pose proof Hw as Hw'. rewrite forallb_app in Hw'.
  apply andb_true_iff in Hw'. destruct Hw' as [_ Hc]. cbn in Hc.
  rewrite andb_true_r in Hc.
  apply trim_id; [|now apply word_not_space].
  destruct (body ++ [c]) as [|h t] eqn:E; [exact I|].
  cbn [forallb] in Hw. apply andb_true_iff in Hw. destruct Hw as [Hh _].
  cbn. now apply word_not_space.
Qed.

(** X19: parameters joined by [and] become [auto] parameters.  For every
    non-empty list of names, [build_args] turns the names joined by
    [ and ] into the same names, each after [auto] and a blank, joined by
    a comma and a blank. *)
Theorem parameters_become_auto : forall names : list str,
  names <> [] -> Forall identifier names ->
  build_args (join (u " and ") names)
  = join (u ", ") (map (fun a => u "auto " ++ a) names).
Proof.
  intros names Hn Hf. unfold build_args, replace_all.
  rewrite replace_and_join by (try assumption; lia).
  assert (Hj : join (u ", ") names <> []).
  { destruct names as [|a rest]; [congruence|].
    inversion Hf as [|? ? [Ha _] _]. subst.
    destruct a; [congruence|]. destruct rest; discriminate. }
  unfold split_re. destruct (join (u ", ") names) as [|h t] eqn:E;
    [congruence|].
  rewrite <- E, split_comma_join by (try assumption; lia).
  f_equal. apply map_ext_in. intros a Ha. f_equal.
  apply trim_identifier. revert a Ha. now apply Forall_forall.
Qed.

Lemma parameters_become_auto_witness :
  build_args (u "width and height and depth")
  = u "auto width, auto height, auto depth".
Proof.
  assert (Hi : forall a, a <> [] -> forallb is_word a = true ->
                 identifier a) by (now split).
  exact (@parameters_become_auto [u "width"; u "height"; u "depth"]
           ltac:(discriminate)
           (Forall_cons _ (Hi (u "width") ltac:(discriminate) eq_refl)
              (Forall_cons _ (Hi (u "height") ltac:(discriminate) eq_refl)
                 (Forall_cons _ (Hi (u "depth") ltac:(discriminate)
                                   eq_refl)
                    (Forall_nil _))))).
Defined.

(** ** The loops over a range and over a collection *)

Lemma no_space_in (s pre sp post : str) :
  forallb (fun ch => negb (is_space ch)) s = true ->
  s = pre ++ sp ++ post -> forallb is_space sp = true -> sp = [].
Proof.
  intros Hs -> Hsp. destruct sp as [|x sp']; [reflexivity|].
  rewrite !forallb_app in Hs. cbn [forallb] in *.
  apply andb_true_iff in Hsp. destruct Hsp as [Hx _].
  apply andb_true_iff in Hs. destruct Hs as [_ Hs].
  apply andb_true_iff in Hs. destruct Hs as [Hs _].
  apply andb_true_iff in Hs. destruct Hs as [Hs _].
  rewrite Hx in Hs. discriminate Hs.
Qed.

Lemma identifier_headed x rest : identifier x -> headed is_space (x ++ rest).
Proof.
  intros [Hn Hw]. destruct x as [|h t]; [congruence|].
  cbn [forallb] in Hw. apply andb_true_iff in Hw. cbn.
  now apply word_not_space.
Qed.

Lemma digits_headed d rest : all_digits d -> headed is_space (d ++ rest).
Proof.
  intros [Hn Hw]. destruct d as [|h t]; [congruence|].
  cbn [forallb] in Hw. apply andb_true_iff in Hw. cbn.
  apply digit_not_space. tauto.
Qed.

(** The tails of the two rules, after [^for\s+]. *)
Lemma for_range_tail i a b p :
  identifier i -> all_digits a -> all_digits b ->
  exec (seqs [kw "each"; ws1; Group 1 word; ws1; kw "in"; ws1;
              Group 2 digits; ws1; kw "to"; ws1; Group 3 digits; ws0;
              c_colon; ws0; Eol])
    p (u "each" ++ 32 :: i ++ 32 :: u "in" ++ 32 :: a ++ 32 :: u "to"
       ++ 32 :: b ++ [58]) [] k_found
  = matched [(3%nat, b); (2%nat, a); (1%nat, i)] 58.
Proof.
  intros Hi Ha Hb. cbn [seqs]. unfold kw.
  rewrite exec_seq, exec_lit, exec_seq by discriminate.
  rewrite exec_ws1_headed
    by (try reflexivity; now apply identifier_headed).
  rewrite exec_first_word by (try exact Hi; reflexivity).
  rewrite exec_seq, exec_ws1_headed by reflexivity.
  rewrite exec_seq, exec_lit, exec_seq by discriminate.
  rewrite exec_ws1_headed by (try reflexivity; now apply digits_headed).
  rewrite exec_seq, exec_group, digits_then; [|exact Ha|reflexivity|].
  2:{ intros q x t cs Hx. rewrite exec_seq. unfold ws1, Plus.
      rewrite exec_seq. apply exec_cls_out. now apply digit_not_space. }
  rewrite firstn_consumed.
  rewrite exec_seq, exec_ws1_headed by reflexivity.
  rewrite exec_seq, exec_lit, exec_seq by discriminate.
  rewrite exec_ws1_headed by (try reflexivity; now apply digits_headed).
  rewrite exec_seq, exec_group, digits_then; [|exact Hb|reflexivity|].
  2:{ intros q x t cs Hx. rewrite exec_seq. unfold ws0.
      rewrite exec_star_cls, (digit_not_space _ Hx), exec_seq.
      unfold c_colon. apply exec_chr_neq. now apply digit_not_colon. }
  rewrite firstn_consumed. reflexivity.
Qed.

Lemma for_each_tail i xs p :
  identifier i -> identifier xs ->
  exec (seqs [kw "each"; ws1; Group 1 word; ws1; kw "in"; ws1;
              Group 2 word; ws0; c_colon; ws0; Eol])
    p (u "each" ++ 32 :: i ++ 32 :: u "in" ++ 32 :: xs ++ [58]) [] k_found
  = matched [(2%nat, xs); (1%nat, i)] 58.
Proof.
  intros Hi [Hn Hx]. cbn [seqs]. unfold kw.
  rewrite exec_seq, exec_lit, exec_seq by discriminate.
  rewrite exec_ws1_headed
    by (try reflexivity; now apply identifier_headed).
  rewrite exec_first_word by (try exact Hi; reflexivity).
  rewrite exec_seq, exec_ws1_headed by reflexivity.
  rewrite exec_seq, exec_lit, exec_seq by discriminate.
  rewrite exec_ws1_headed
    by (try reflexivity; now apply identifier_headed).
  rewrite exec_seq, exec_group. unfold word.
  rewrite exec_plus_cls_cut; try assumption; try reflexivity.
  - rewrite firstn_consumed. reflexivity.
  - intros q x t cs Hw. rewrite exec_seq. unfold ws0.
    rewrite exec_star_cls, (word_not_space _ Hw), exec_seq.
    unfold c_colon. apply exec_chr_neq. intros ->. discriminate Hw.
Qed.

(** The rule of the range wants white space after the first bound. *)
Lemma for_range_refuses_name i xs p :
  identifier i -> identifier xs ->
  exec (seqs [kw "each"; ws1; Group 1 word; ws1; kw "in"; ws1;
              Group 2 digits; ws1; kw "to"; ws1; Group 3 digits; ws0;
              c_colon; ws0; Eol])
    p (u "each" ++ 32 :: i ++ 32 :: u "in" ++ 32 :: xs ++ [58]) [] k_found
  = None.
Proof.
  intros Hi [Hn Hx]. cbn [seqs]. unfold kw.
  rewrite exec_seq, exec_lit, exec_seq by discriminate.
  rewrite exec_ws1_headed
    by (try reflexivity; now apply identifier_headed).
  rewrite exec_first_word by (try exact Hi; reflexivity).
  rewrite exec_seq, exec_ws1_headed by reflexivity.
  rewrite exec_seq, exec_lit, exec_seq by discriminate.
  rewrite exec_ws1_headed
    by (try reflexivity; now apply identifier_headed).
  match goal with |- ?e = None => destruct e as [r|] eqn:E end;
    [|reflexivity].
  apply exec_sound in E. destruct E as (p' & s' & cs' & HM & _).
  inversion HM as [ | | ? ? ? ? ? ? ? ? ? ? ? H1 H2 | | | | | | | | | ].
  subst.
  inversion H1 as [ | | | | | | | ? ? ? ? ? ? ? ? H3 | | | | ]. subst.
  apply Matches_plus_cls in H3. destruct H3 as (d & _ & _ & Ed & _).
  inversion H2 as [ | | ? ? ? ? ? ? ? ? ? ? ? H4 H5 | | | | | | | | | ].
  subst.
  apply Matches_plus_cls in H4. destruct H4 as (sp & Hs & Hsp & -> & _).
  exfalso. apply Hs.
  eapply (@no_space_in (xs ++ [58]) d sp); [|exact Ed|exact Hsp].
  rewrite forallb_app. apply andb_true_iff. split; [|reflexivity].
  apply forallb_forall. intros x Hin.
  rewrite forallb_forall in Hx. apply negb_true_iff.
  apply word_not_space. now apply Hx.
Qed.


Section ForLoops.
Variables (st : State) (ws i : str).
Hypothesis Hws : forallb is_space ws = true.
Hypothesis Hi : identifier i.

Ltac for_line cond :=
  assert (HK : identifier (u "for")) by (now split);
  assert (Hh : headed is_space cond) by reflexivity;
  assert (Hb : ~ led_by (u "becomes") cond)
    by (apply not_led_by_head with (c := 98); [reflexivity|discriminate]);
  rewrite cond_line_reaches
    by (try exact HK; try exact Hws; try exact Hh; try discriminate;
        now left);
  unfold other_statement;
  rewrite becomes_rule_fails, return_rule_fails
    by (try exact HK; try exact Hh; try exact Hb; discriminate);
  change (str_eqb (u "for" ++ 32 :: cond ++ [58]) (u "return")) with false;
  change (str_eqb (u "for" ++ 32 :: cond ++ [58]) (u "otherwise:"))
    with false;
  cbv iota;
  change re_if with (kw_then (u "if") tail_cond);
  change re_otherwise_if
    with (kw_then (u "otherwise")
            (seqs [kw "if"; ws1; Group 1 any1; c_colon; ws0; Eol]));
  rewrite (@kw_then_fails (u "if") _ (u "for"))
    by (try exact HK; try reflexivity; discriminate);
  rewrite (@kw_then_fails (u "otherwise") _ (u "for"))
    by (try exact HK; try reflexivity; discriminate);
  change re_for_range
    with (kw_then (u "for")
            (seqs [kw "each"; ws1; Group 1 word; ws1; kw "in"; ws1;
                   Group 2 digits; ws1; kw "to"; ws1; Group 3 digits; ws0;
                   c_colon; ws0; Eol]));
  change re_for_each
    with (kw_then (u "for")
            (seqs [kw "each"; ws1; Group 1 word; ws1; kw "in"; ws1;
                   Group 2 word; ws0; c_colon; ws0; Eol]));
  rewrite !kw_then_matches by (try discriminate; reflexivity).

Lemma for_range_loops a b :
  all_digits a -> all_digits b ->
  writes st ws
    (u "for each " ++ i ++ u " in " ++ a ++ u " to " ++ b ++ u ":")
    (u "for (int " ++ i ++ u " = " ++ a ++ u "; " ++ i ++ u " <= " ++ b
     ++ u "; " ++ i ++ u "++) {").
Proof.
  intros Ha Hb'. unfold writes.
  assert (E : u "for each " ++ i ++ u " in " ++ a ++ u " to " ++ b ++ u ":"
              = u "for" ++ 32 :: (u "each " ++ i ++ u " in " ++ a
                                  ++ u " to " ++ b) ++ [58]).
  { cbn [app u]. repeat (rewrite <- app_assoc; cbn [app]). reflexivity. }
  rewrite E.
  for_line (u "each " ++ i ++ u " in " ++ a ++ u " to " ++ b).
  assert (E2 : (u "each " ++ i ++ u " in " ++ a ++ u " to " ++ b) ++ [58]
               = u "each" ++ 32 :: i ++ 32 :: u "in" ++ 32 :: a ++ 32
                 :: u "to" ++ 32 :: b ++ [58]).
  { cbn [app u]. repeat (rewrite <- app_assoc; cbn [app]). reflexivity. }
  rewrite E2, for_range_tail by assumption. reflexivity.
Qed.

Lemma for_each_loops xs :
  identifier xs ->
  writes st ws (u "for each " ++ i ++ u " in " ++ xs ++ u ":")
    (u "for (const auto& " ++ i ++ u " : " ++ xs ++ u ") {").
Proof.
  intros Hx. unfold writes.
  assert (E : u "for each " ++ i ++ u " in " ++ xs ++ u ":"
              = u "for" ++ 32 :: (u "each " ++ i ++ u " in " ++ xs)
                ++ [58]).
  { cbn [app u]. repeat (rewrite <- app_assoc; cbn [app]). reflexivity. }
  rewrite E.
  for_line (u "each " ++ i ++ u " in " ++ xs).
  assert (E2 : (u "each " ++ i ++ u " in " ++ xs) ++ [58]
               = u "each" ++ 32 :: i ++ 32 :: u "in" ++ 32 :: xs ++ [58]).
  { cbn [app u]. repeat (rewrite <- app_assoc; cbn [app]). reflexivity. }
  rewrite E2, for_range_refuses_name, for_each_tail by assumption.
  reflexivity.
Qed.
End ForLoops.

(** X20: the two [for each] loops.  For every name [i], the line
    [for each i in a to b:], with [a] and [b] written in digits, writes the
    header of a [for] loop on an [int] from [a] to [b] inclusive; the line
    [for each i in xs:], with [xs] a name, writes the header of a range
    [for] loop over [xs] by constant reference. *)
Theorem for_each_loops_translate : forall (st : State) (ws i : str),
  forallb is_space ws = true -> identifier i ->
  (forall a b, all_digits a -> all_digits b ->
     writes st ws
       (u "for each " ++ i ++ u " in " ++ a ++ u " to " ++ b ++ u ":")
       (u "for (int " ++ i ++ u " = " ++ a ++ u "; " ++ i ++ u " <= " ++ b
        ++ u "; " ++ i ++ u "++) {"))
  /\ (forall xs, identifier xs ->
        writes st ws (u "for each " ++ i ++ u " in " ++ xs ++ u ":")
          (u "for (const auto& " ++ i ++ u " : " ++ xs ++ u ") {")).
Proof.
  intros st ws i Hws Hi. split.
  - intros a b Ha Hb. now apply for_range_loops.
  - intros xs Hx. now apply for_each_loops.
Qed.

Lemma for_each_loops_translate_witness :
  translate_line init_state (u "for each k in 1 to 10:")
  = Ok (push_body (u "    for (int k = 1; k <= 10; k++) {") init_state).
Proof.
  assert (Hk : identifier (u "k")) by (split; [discriminate|reflexivity]).
  assert (H1 : all_digits (u "1")) by (split; [discriminate|reflexivity]).
  assert (H2 : all_digits (u "10")) by (split; [discriminate|reflexivity]).
  exact (proj1 (@for_each_loops_translate init_state [] (u "k") eq_refl Hk)
           (u "1") (u "10") H1 H2).
Defined.

(** ** The rules further down *)

(** The rules that begin with a keyword, in the shape [kw_then]. *)
Ltac keyword_rules :=
  change re_return with (kw_then (u "return") (tail_rest 1));
  change re_if with (kw_then (u "if") tail_cond);
  change re_otherwise_if
    with (kw_then (u "otherwise")
            (seqs [kw "if"; ws1; Group 1 any1; c_colon; ws0; Eol]));
  change re_for_range
    with (kw_then (u "for")
            (seqs [kw "each"; ws1; Group 1 word; ws1; kw "in"; ws1;
                   Group 2 digits; ws1; kw "to"; ws1; Group 3 digits; ws0;
                   c_colon; ws0; Eol]));
  change re_for_each
    with (kw_then (u "for")
            (seqs [kw "each"; ws1; Group 1 word; ws1; kw "in"; ws1;
                   Group 2 word; ws0; c_colon; ws0; Eol]));
  change re_repeat
    with (kw_then (u "repeat")
            (seqs [Group 1 digits; ws1; kw "times"; ws0; c_colon; ws0;
                   Eol]));
  change re_while with (kw_then (u "while") tail_cond);
  change re_pause with (kw_then (u "pause") (seqs [Group 1 digits; Eol]));
  change re_write
    with (kw_then (u "write")
            (seqs [c_dq; Group 1 any1; c_dq; ws1; kw "to"; ws1; c_dq;
                   Group 2 any1; c_dq; Eol])).

(** The rules that begin with a name and a keyword, in the shape
    [word_then]. *)
Ltac word_rules :=
  change re_becomes with (word_then (u "becomes") (tail_rest 2));
  change re_read
    with (word_then (u "is")
            (seqs [kw "read"; ws1; c_dq; Group 2 any1; c_dq; Eol]));
  change re_ask
    with (word_then (u "is")
            (seqs [kw "ask"; ws1; c_dq; Group 2 any1; c_dq; Eol]));
  change re_sqrt
    with (word_then (u "is") (seqs [kw "sqrt"; ws1; Group 2 any1; Eol]));
  change re_abs
    with (word_then (u "is") (seqs [kw "abs"; ws1; Group 2 any1; Eol]));
  change re_pow
    with (word_then (u "is")
            (seqs [kw "pow"; ws1; Group 2 any1; ws1; Group 3 any1; Eol]));
  change re_random
    with (word_then (u "is")
            (seqs [kw "random"; ws1; Group 2 digits; ws1; Group 3 digits;
                   Eol])).

(** The rules of the other keywords do not take a line that begins with
    the name [x]. *)
Ltac other_keywords x Hx :=
  rewrite ?(@kw_then_fails (u "return") _ x)
    by (try exact Hx; try reflexivity; assumption || discriminate);
  rewrite ?(@kw_then_fails (u "if") _ x)
    by (try exact Hx; try reflexivity; assumption || discriminate);
  rewrite ?(@kw_then_fails (u "otherwise") _ x)
    by (try exact Hx; try reflexivity; assumption || discriminate);
  rewrite ?(@kw_then_fails (u "for") _ x)
    by (try exact Hx; try reflexivity; assumption || discriminate);
  rewrite ?(@kw_then_fails (u "repeat") _ x)
    by (try exact Hx; try reflexivity; assumption || discriminate);
  rewrite ?(@kw_then_fails (u "while") _ x)
    by (try exact Hx; try reflexivity; assumption || discriminate);
  rewrite ?(@kw_then_fails (u "pause") _ x)
    by (try exact Hx; try reflexivity; assumption || discriminate);
  rewrite ?(@kw_then_fails (u "write") _ x)
    by (try exact Hx; try reflexivity; assumption || discriminate).

(** A line with a blank in it is none of the lines compared as a whole. *)
Lemma not_a_whole_line x rest W :
  forallb is_word W = true -> str_eqb (x ++ 32 :: rest) W = false.
Proof.
  intro HW. destruct (str_eqb _ W) eqn:E; [|reflexivity].
  apply str_eqb_eq in E. subst W. rewrite forallb_app in HW.
  apply andb_true_iff in HW. destruct HW as [_ HW]. discriminate HW.
Qed.

Lemma pause_sleeps (st : State) (ws d : str) :
  forallb is_space ws = true -> all_digits d ->
  translate_line st (ws ++ u "pause " ++ d)
  = Ok (push_target (inFunction st)
          (pad ++ u "std::this_thread::sleep_for(std::chrono::milliseconds("
           ++ d ++ u "));")
          (add_include (u "#include <chrono>")
             (add_include (u "#include <thread>")
                (closings (length ws) (u "pause " ++ d) st)))).
Proof.
  intros Hws Hd.
  destruct (digits_last Hd) as (d' & e & -> & He & Hh).
  change (u "pause " ++ d' ++ [e]) with (u "pause" ++ 32 :: d' ++ [e]).
  assert (HK : identifier (u "pause")) by (now split).
  assert (Hno : forall K k, hd_error K = Some k -> is_digit k = false ->
                  ~ led_by K (d' ++ [e])).
  { intros K k HKh Hk.
    destruct (@digit_head_not k (d' ++ [e]) [] Hd Hk)
      as (h & t & E & Hn & _).
    rewrite app_nil_r in E. rewrite E.
    now apply not_led_by_head with (c := k). }
  rewrite plain_line_reaches;
    try exact HK; try exact Hws; try exact Hh; try discriminate.
  - unfold other_statement. keyword_rules. word_rules.
    rewrite word_then_fails
      by (try exact HK; try exact Hh; try reflexivity;
          now apply (Hno (u "becomes") 98)).
    other_keywords (u "pause") HK.
    rewrite !not_a_whole_line by reflexivity.
    rewrite kw_then_matches by (try discriminate; exact Hh).
    cbn [seqs]. rewrite exec_seq, exec_group, digits_to_end;
      [|exact Hd|intros; apply exec_eol_more].
    rewrite exec_eol, firstn_whole. reflexivity.
  - now apply digit_not_space.
  - now apply (Hno (u "is") 105).
  - right. now apply (Hno (u "as") 97).
Qed.

(** X21: [pause d] sleeps and brings in what it needs.  For every number
    [d] written in digits, the line writes a call of [sleep_for] on [d]
    milliseconds and adds [<thread>] and [<chrono>] to the include set,
    where they stay. *)
Theorem pause_adds_its_includes : forall (st st' : State) (ws d : str),
  forallb is_space ws = true -> all_digits d ->
  translate_line st (ws ++ u "pause " ++ d) = Ok st' ->
  st' = push_target (inFunction st)
          (pad ++ u "std::this_thread::sleep_for(std::chrono::milliseconds("
           ++ d ++ u "));")
          (add_include (u "#include <chrono>")
             (add_include (u "#include <thread>")
                (closings (length ws) (u "pause " ++ d) st)))
  /\ In (u "#include <thread>") (includes st')
  /\ In (u "#include <chrono>") (includes st').
Proof.
  intros st st' ws d Hws Hd H.
  rewrite pause_sleeps in H by assumption. injection H as <-.
  split; [reflexivity|].
  rewrite includes_push_target. cbn [includes add_include].
  rewrite !In_set_add. auto.
Qed.

Lemma pause_adds_its_includes_witness :
  exists st',
    translate_line init_state (u "pause 250") = Ok st'
    /\ includes st'
       = init_includes ++ [u "#include <thread>"; u "#include <chrono>"].
Proof.
  eexists. split; [vm_compute; reflexivity|].
  assert (Hd : all_digits (u "250")) by (split; [discriminate|reflexivity]).
  destruct (@pause_adds_its_includes init_state _ [] (u "250") eq_refl Hd
              eq_refl) as (_ & _ & _).
  reflexivity.
Defined.

(** ** Structs *)

Lemma group_to_end (P : char -> bool) i body e p cs :
  forallb P (body ++ [e]) = true ->
  exec (Seq (Group i (Plus (Cls P))) Eol) p (body ++ [e]) cs k_found
  = matched ((i, body ++ [e]) :: cs) e.
Proof.
  intro H. rewrite exec_seq, exec_group.
  set (w := body ++ [e]) in *.
  set (k := fun (p' : option char) (s' : str) (cs' : caps) =>
              exec Eol p' s' ((i, firstn (length w - length s') w) :: cs')
                k_found).
  assert (E : exec (Plus (Cls P)) p (w ++ []) cs k
              = k (last_opt p w) [] cs).
  { apply exec_plus_cls_cut.
    - intros. apply exec_eol_more.
    - subst w. now destruct body.
    - exact H.
    - exact I. }
  rewrite app_nil_r in E. rewrite E. subst k. cbv beta.
  rewrite exec_eol, firstn_whole. unfold matched, k_found, w.
  now rewrite last_opt_last.
Qed.

Section Structs.
Variables (st : State) (ws : str).
Hypothesis Hws : forallb is_space ws = true.

Lemma struct_header_opens T :
  identifier T ->
  translate_line st (ws ++ u "a " ++ T ++ u " has:")
  = Ok (set_struct true (Some T)
          (push_struct (u "struct " ++ T ++ u " {")
             (dedent (length ws) (u "a " ++ T ++ u " has:") st))).
Proof.
  intro HT.
  assert (E : u "a " ++ T ++ u " has:"
              = u "a" ++ 32 :: (T ++ u " has") ++ [58]).
  { cbn [app u]. repeat (rewrite <- app_assoc; cbn [app]). reflexivity. }
  rewrite E.
  assert (HK : identifier (u "a")) by (now split).
  assert (He : is_space 58 = false) by reflexivity.
  unfold translate_line. cbv zeta.
  rewrite (@raw_indent ws (u "a") (T ++ u " has") 58 Hws HK He).
  destruct (@raw_trimmed ws (u "a") (T ++ u " has") 58 Hws HK He)
    as [-> _].
  pose proof (@raw_not_skipped (u "a") (T ++ u " has") 58 HK He) as Hk.
  unfold skipped in Hk. rewrite Hk.
  change re_to_start
    with (kw_then (u "to") (Seq (Lit (u "start"))
                              (Seq ws0 (Seq c_colon Eol)))).
  change re_to with (kw_then (u "to") tail_header).
  rewrite !(@kw_then_fails (u "to") _ (u "a"))
    by (try exact HK; try reflexivity; discriminate).
  change re_struct
    with (kw_then (u "a")
            (Seq (Group 1 word)
               (Seq ws1 (seqs [kw "has"; ws0; c_colon; ws0; Eol])))).
  rewrite kw_then_matches
    by (try discriminate; rewrite <- app_assoc;
        now apply identifier_headed).
  rewrite <- app_assoc.
  rewrite exec_first_word by (try exact HT; reflexivity).
  reflexivity.
Qed.

Lemma struct_field_declares n ty :
  inStruct st = true -> identifier n -> identifier ty ->
  translate_line st (ws ++ n ++ u " as " ++ ty)
  = Ok (push_struct (pad ++ typeMap (Some ty) ++ u " " ++ n ++ u ";")
          (dedent (length ws) (n ++ u " as " ++ ty) st)).
Proof.
  intros Hin Hn Hty.
  destruct Hty as [Hne Hw].
  destruct (exists_last Hne) as (ty' & e & ->).
  assert (Hew : is_word e = true).
  { rewrite forallb_app in Hw. apply andb_true_iff in Hw.
    destruct Hw as [_ Hw]. cbn in Hw. now rewrite andb_true_r in Hw. }
  assert (He : is_space e = false) by now apply word_not_space.
  assert (Hc : e <> 58) by (intros ->; discriminate Hew).
  change (n ++ u " as " ++ ty' ++ [e])
    with (n ++ 32 :: (u "as " ++ ty') ++ [e]).
  unfold translate_line. cbv zeta.
  rewrite (@raw_indent ws n (u "as " ++ ty') e Hws Hn He).
  destruct (@raw_trimmed ws n (u "as " ++ ty') e Hws Hn He) as [-> _].
  pose proof (@raw_not_skipped n (u "as " ++ ty') e Hn He) as Hk.
  unfold skipped in Hk. rewrite Hk.
  assert (Hno : forall r,
             In r [re_to_start; re_to; re_struct; re_method; re_if;
                   re_otherwise_if; re_for_range; re_for_each; re_repeat;
                   re_while] ->
             re_match r (n ++ 32 :: (u "as " ++ ty') ++ [e]) = None).
  { intros r Hr. now apply raw_no_header_by_end. }
  rewrite !Hno by (cbn [In]; tauto).
  destruct (dedent_frame (length ws) (n ++ 32 :: (u "as " ++ ty') ++ [e]) st)
    as (_ & _ & ->).
  rewrite Hin.
  change re_field with (word_then (u "as") (Seq (Group 2 word) Eol)).
  change (n ++ 32 :: (u "as " ++ ty') ++ [e])
    with (n ++ 32 :: u "as" ++ 32 :: ty' ++ [e]).
  rewrite word_then_matches;
    try exact Hn; try discriminate; try reflexivity.
  2:{ destruct (ty' ++ [e]) as [|h t] eqn:E; [exact I|].
      cbn [forallb] in Hw. apply andb_true_iff in Hw. cbn.
      apply word_not_space. tauto. }
  unfold word. rewrite group_to_end by exact Hw. reflexivity.
Qed.
End Structs.




Section Methods.
Variables (st : State) (ws T m : str).
Hypothesis Hws : forallb is_space ws = true.
Hypothesis HT : identifier T.
Hypothesis Hm : identifier m.




End Methods.

(** X22: structs.  For every name [T], the line [a T has:] adds
    [struct T {] to the struct lines and opens the struct; while a struct
    is open, a line [n as ty] of two names adds the member [n] with the
    type that [typeMap] gives for [ty].  Before that an open function is
    closed if the dedent detection says so. *)
Theorem structs_and_fields : forall (st : State) (ws : str),
  forallb is_space ws = true ->
  (forall T, identifier T ->
     translate_line st (ws ++ u "a " ++ T ++ u " has:")
     = Ok (set_struct true (Some T)
             (push_struct (u "struct " ++ T ++ u " {")
                (dedent (length ws) (u "a " ++ T ++ u " has:") st))))
  /\ (forall n ty, inStruct st = true -> identifier n -> identifier ty ->
        translate_line st (ws ++ n ++ u " as " ++ ty)
        = Ok (push_struct (pad ++ typeMap (Some ty) ++ u " " ++ n ++ u ";")
                (dedent (length ws) (n ++ u " as " ++ ty) st))).
Proof.
  intros st ws Hws. split.
  - intros T HT. now apply struct_header_opens.
  - intros n ty Hin Hn Hty. now apply struct_field_declares.
Qed.

Lemma structs_and_fields_witness :
  let st := set_struct true (Some (u "Point"))
              (push_struct (u "struct Point {") init_state) in
  exists st',
    translate_line st (u "    x as decimal") = Ok st'
    /\ structs st' = [u "struct Point {"; u "    double x;"].
Proof.
  intro st.
  assert (Hx : identifier (u "x")) by (split; [discriminate|reflexivity]).
  assert (Hd : identifier (u "decimal"))
    by (split; [discriminate|reflexivity]).
  eexists. split.
  - exact (proj2 (@structs_and_fields st (u "    ") eq_refl) (u "x")
             (u "decimal") eq_refl Hx Hd).
  - reflexivity.
Defined.



(** ** The generic assignment *)

Section GenericTail.
Variables (h : char) (t : str).
Hypothesis Hletter : is_word h = true.
Hypothesis Hnum : is_digit h = false.




End GenericTail.






(** ** Function calls *)






(** ** The rules the generic assignment shadows *)



